(** * TestQueue: a sequential runner of asynchronous tests

    A shallow embedding of [index.js] (the [TestQueue] constructor, its
    builder methods, [run] and the private callbacks that drive a run),
    followed by the properties of a run that the specification states.

    JavaScript functions supplied by the user (the setup and teardown
    functions and the leaf tests) are represented by what they do when
    called.  A run is a chain of promise callbacks in which at most one
    callback is pending at any time; the embedding calls the pending
    callback directly and records every effect, in the order in which it
    happens, in a log.  A promise that nothing will ever settle is
    [Pending] in the final state.

    Queues form a tree: a nested queue is an entry of one parent and
    occurs there once.  [run] starts by resetting the cursor and the two
    counters, so these live in the state of a run; the listeners that were
    attached to a queue before the run are part of the queue. *)

From Stdlib Require Import String List Arith Bool Lia.
Import ListNotations.
Open Scope string_scope.
Open Scope nat_scope.
Open Scope list_scope.

(** ** Values and promises *)

(** The object [{ passed, failed }] built by [_onFinish]. *)
Record Results : Type := mkResults {
  results_passed : nat;
  results_failed : nat
}.

(** JavaScript values that flow through the queue.  [VFulfilled v],
    [VRejected e] and [VPending] are promise-likes: already (or eventually)
    fulfilled with [v], rejected with [e], or never settled. *)
Inductive value : Type :=
| VUndefined
| VBool (b : bool)
| VString (s : string)
| VError (message : string)
| VResults (r : Results)
| VFulfilled (v : value)
| VRejected (e : value)
| VPending.

(** How a promise ends. *)
Inductive settlement : Type :=
| Fulfils (v : value)
| Rejects (e : value)
| NeverSettles.

(** [Promise.resolve(x)], and [resolve(x)] inside an executor: a
    promise-like is followed, any other value fulfils the promise. *)
Fixpoint promise_resolve (x : value) : settlement :=
  match x with
  | VFulfilled v => promise_resolve v
  | VRejected e => Rejects e
  | VPending => NeverSettles
  | _ => Fulfils x
  end.

(** The result of calling a user function such as [setupFn]. *)
Inductive completion : Type :=
| Return (v : value)
| Throw (e : value).

(** What a leaf test [function(pass, fail)] does first: call [pass], call
    [fail], throw, or return without having done (and without ever doing)
    any of these. *)
Inductive executor_end : Type :=
| CallsPass (v : value)
| CallsFail (e : value)
| ThrowsError (e : value)
| ReturnsValue (v : value).

(** A leaf test: the ['info'] events it emits on [this] (the test is bound
    to the queue) and how it ends. *)
Record leaf : Type := mkLeaf {
  leaf_info : list (list value);
  leaf_end : executor_end
}.

(** [new Promise(executor)]: the promise is settled by the first call of
    one of the two callbacks, or rejected by an exception thrown before
    such a call; the value returned by the executor is discarded. *)
Definition new_Promise (f : leaf) : settlement :=
  match leaf_end f with
  | CallsPass v => promise_resolve v
  | CallsFail e => Rejects e
  | ThrowsError e => Rejects e
  | ReturnsValue _ => NeverSettles
  end.

(** ** Events and listeners *)

Inductive event : Type := EvStart | EvPass | EvFail | EvFinish | EvInfo.

Definition event_eqb (a b : event) : bool :=
  match a, b with
  | EvStart, EvStart | EvPass, EvPass | EvFail, EvFail
  | EvFinish, EvFinish | EvInfo, EvInfo => true
  | _, _ => false
  end.

(** A listener attached with [on]: one supplied by the user, or one of the
    two shapes that [_testQueueNext] attaches to a nested queue. *)
Inductive listener : Type :=
| Observer (id : nat)
| EmitBound (k : event) (bound : list value)  (* parent.emit.bind(parent, k, ...bound) *)
| EmitFinish (name : value).  (* function(results) { parent.emit('finish', results, name) } *)

(** ** The queue *)

Inductive runnable (Q : Type) : Type :=
| Fn (f : leaf)
| Sub (q : Q).
Arguments Fn {Q} f.
Arguments Sub {Q} q.

Inductive TestQueue : Type := mkTestQueue {
  stopOnFail : bool;
  setupFn : completion;
  teardownFn : completion;
  tests : list test;
  listeners : list (event * listener)
}
with test : Type := mkTest {
  name : value;
  fn : runnable TestQueue
}.

(** [new TestQueue(options)]; the argument is [options.stopOnFail]. *)
Definition new_TestQueue (option_stopOnFail : option value) : TestQueue :=
  {| stopOnFail := match option_stopOnFail with
                   | Some (VBool false) => false
                   | _ => true
                   end;
     setupFn := Return VUndefined;
     teardownFn := Return VUndefined;
     tests := [];
     listeners := [] |}.

Definition addTest (n : value) (f : runnable TestQueue) (this : TestQueue)
  : TestQueue :=
  {| stopOnFail := stopOnFail this;
     setupFn := setupFn this;
     teardownFn := teardownFn this;
     tests := tests this ++ [mkTest n f];
     listeners := listeners this |}.

Definition setup (f : completion) (this : TestQueue) : TestQueue :=
  {| stopOnFail := stopOnFail this;
     setupFn := f;
     teardownFn := teardownFn this;
     tests := tests this;
     listeners := listeners this |}.

Definition teardown (f : completion) (this : TestQueue) : TestQueue :=
  {| stopOnFail := stopOnFail this;
     setupFn := setupFn this;
     teardownFn := f;
     tests := tests this;
     listeners := listeners this |}.

(** [this.on(k, l)]. *)
Definition on (k : event) (l : listener) (this : TestQueue) : TestQueue :=
  {| stopOnFail := stopOnFail this;
     setupFn := setupFn this;
     teardownFn := teardownFn this;
     tests := tests this;
     listeners := listeners this ++ [(k, l)] |}.

(** ** The state of a run *)

(** The promise returned by [run]. *)
Inductive PromiseState : Type :=
| Pending
| Resolved (r : Results)
| Rejected (r : Results).

(** What happens during a run, in order. *)
Inductive action : Type :=
| CallSetup                                  (* this.setupFn() *)
| CallTeardown                               (* this.teardownFn() *)
| Emit (k : event) (args : list value)       (* this.emit(k, ...args), by the queue itself *)
| ReEmit (k : event) (args : list value)     (* this.emit(k, ...args), by a listener on a nested queue *)
| Notify (id : nat) (k : event) (args : list value)  (* a user listener is called *)
| Forward (k : event) (args : list value)    (* a listener calls emit(k, ...args) on the parent *)
| Dispatch (i : nat) (n : value)             (* entry i is started *)
| Outcome (ok : bool) (cursor : nat)         (* the callback of an entry's promise is called *)
| ConsoleLog (args : list value)
| Settle (p : PromiseState)                  (* _testQueuePass / _testQueueFail is called *)
| Child (i : nat) (a : action).              (* an action of the nested queue at entry i *)

(** The fields that [run] initialises, the promise it returns and the log. *)
Record RunState : Type := mkRunState {
  _testQueueCursor : nat;
  passed : nat;
  failed : nat;
  ret : PromiseState;
  log : list action
}.

Definition record (l : list action) (st : RunState) : RunState :=
  {| _testQueueCursor := _testQueueCursor st;
     passed := passed st;
     failed := failed st;
     ret := ret st;
     log := log st ++ l |}.

Definition add_passed (n : nat) (st : RunState) : RunState :=
  {| _testQueueCursor := _testQueueCursor st;
     passed := passed st + n;
     failed := failed st;
     ret := ret st;
     log := log st |}.

Definition add_failed (n : nat) (st : RunState) : RunState :=
  {| _testQueueCursor := _testQueueCursor st;
     passed := passed st;
     failed := failed st + n;
     ret := ret st;
     log := log st |}.

Definition incr_cursor (st : RunState) : RunState :=
  {| _testQueueCursor := S (_testQueueCursor st);
     passed := passed st;
     failed := failed st;
     ret := ret st;
     log := log st |}.

(** A promise is settled once: later calls of its callbacks do nothing. *)
Definition settle (p : PromiseState) (st : RunState) : RunState :=
  match ret st with
  | Pending =>
      {| _testQueueCursor := _testQueueCursor st;
         passed := passed st;
         failed := failed st;
         ret := p;
         log := log st ++ [Settle p] |}
  | _ => record [Settle p] st
  end.

Definition _testQueuePass (r : Results) : RunState -> RunState :=
  settle (Resolved r).

Definition _testQueueFail (r : Results) : RunState -> RunState :=
  settle (Rejected r).

(** ** Emitting *)

Definition call_listener (k : event) (l : listener) (args : list value)
  : action :=
  match l with
  | Observer id => Notify id k args
  | EmitBound k' bound => Forward k' (bound ++ args)
  | EmitFinish n => Forward EvFinish [nth 0 args VUndefined; n]
  end.

(** The listeners of [this] for [k] are called in the order in which they
    were attached. *)
Definition notify (this : TestQueue) (k : event) (args : list value)
  : list action :=
  flat_map (fun kl => if event_eqb (fst kl) k
                      then [call_listener k (snd kl) args] else [])
           (listeners this).

Definition emit (this : TestQueue) (k : event) (args : list value)
  (st : RunState) : RunState :=
  record (Emit k args :: notify this k args) st.

(** The log of a nested queue as it appears in the log of its parent: each
    [emit] on the parent requested by a listener takes place at once. *)
Definition lift (this : TestQueue) (i : nat) (l : list action) : list action :=
  flat_map (fun a => Child i a ::
                     match a with
                     | Forward k args => ReEmit k args :: notify this k args
                     | _ => []
                     end) l.

(** Lines 86-92: the listeners that the parent attaches to a nested queue. *)
Definition subscribe (n : value) (q : TestQueue) : TestQueue :=
  on EvFinish (EmitFinish n)
    (on EvStart (EmitBound EvStart [n])
      (on EvInfo (EmitBound EvInfo [])
        (on EvFail (EmitBound EvFail [])
          (on EvPass (EmitBound EvPass []) q)))).

(** ** Running *)

(** What a call of [run] gives back: the promise, or an exception. *)
Inductive RunResult : Type :=
| Returned (st : RunState)
| Threw (e : value) (st : RunState).

Definition state_of (r : RunResult) : RunState :=
  match r with
  | Returned st => st
  | Threw _ st => st
  end.

Definition _onFinish (this : TestQueue) (st : RunState) : RunState :=
  let results := mkResults (passed st) (failed st) in
  let st := emit this EvFinish [VResults results] st in
  let st := record [CallTeardown] st in
  match teardownFn this with
  | Throw _ => st
  | Return v =>
      match promise_resolve v with
      | Fulfils _ =>
          if 0 <? failed st
          then _testQueueFail results st
          else _testQueuePass results st
      | _ => st
      end
  end.

Section Callbacks.

(** [this._testQueueNext], as the callbacks call it. *)
Variable next : RunState -> option RunState.
Variable this : TestQueue.

Definition _onPassQueue (n : value) (results : Results) (st : RunState)
  : option RunState :=
  let st := record [Outcome true (_testQueueCursor st)] st in
  let st := add_passed (results_passed results) st in
  next st.

Definition _onPass (n : value) (v : value) (st : RunState)
  : option RunState :=
  let st := record [Outcome true (_testQueueCursor st)] st in
  let st := add_passed 1 st in
  let st := emit this EvPass [n; v] st in
  next st.

Definition _onErrorQueue (n : value) (results : Results) (st : RunState)
  : option RunState :=
  let st := record [Outcome false (_testQueueCursor st)] st in
  let st := record [ConsoleLog [n; VResults results]] st in
  let st := add_failed (results_failed results) st in
  let st := add_passed (results_passed results) st in
  if stopOnFail this
  then Some (_onFinish this st)
  else next st.

Definition _onError (n : value) (e : value) (st : RunState)
  : option RunState :=
  let st := record [Outcome false (_testQueueCursor st)] st in
  let st := add_failed 1 st in
  let st := emit this EvFail [n; e] st in
  if stopOnFail this
  then Some (_onFinish this st)
  else next st.

(** [test.fn.run()] for a nested queue. *)
Variable run_sub : TestQueue -> option RunResult.

(** The body of [_testQueueNext].  [None] means that the fuel ran out. *)
Definition testQueueNext_body (st : RunState) : option RunState :=
  if _testQueueCursor st =? length (tests this)
  then Some (_onFinish this st)
  else
    match nth_error (tests this) (_testQueueCursor st) with
    | None => Some st      (* test is undefined: test.fn throws *)
    | Some t =>
        let st := record [Dispatch (_testQueueCursor st) (name t)] st in
        match fn t with
        | Sub q =>
            match run_sub (subscribe (name t) q) with
            | None => None
            | Some (Threw _ sub) =>
                Some (record (lift this (_testQueueCursor st) (log sub)) st)
            | Some (Returned sub) =>
                let i := _testQueueCursor st in
                let st := incr_cursor st in
                let st := record (lift this i (log sub)) st in
                match ret sub with
                | Resolved results => _onPassQueue (name t) results st
                | Rejected results => _onErrorQueue (name t) results st
                | Pending => Some st
                end
            end
        | Fn f =>
            let st :=
              fold_left (fun s args => emit this EvInfo args s)
                        (leaf_info f) st in
            let st := incr_cursor st in
            match new_Promise f with
            | Fulfils v => _onPass (name t) v st
            | Rejects e => _onError (name t) e st
            | NeverSettles => Some st
            end
        end
    end.

End Callbacks.

Definition initial : RunState :=
  {| _testQueueCursor := 0; passed := 0; failed := 0;
     ret := Pending; log := [] |}.

(** The body of [run]; [next] is [this._testQueueNext]. *)
Definition run_body (next : RunState -> option RunState) (this : TestQueue)
  : option RunResult :=
  let st := record [CallSetup] initial in
  match setupFn this with
  | Throw e => Some (Threw e st)
  | Return v =>
      match promise_resolve v with
      | Fulfils _ => option_map Returned (next (emit this EvStart [] st))
      | _ => Some (Returned st)
      end
  end.

Fixpoint run (fuel : nat) (this : TestQueue) : option RunResult :=
  match fuel with
  | O => None
  | S fuel => run_body (_testQueueNext fuel this) this
  end
with _testQueueNext (fuel : nat) (this : TestQueue) (st : RunState)
  : option RunState :=
  match fuel with
  | O => None
  | S fuel =>
      testQueueNext_body (_testQueueNext fuel this) this (run fuel) st
  end.

(** Enough fuel for a run of [q]. *)
Fixpoint fuel_for (q : TestQueue) : nat :=
  2 + length (tests q)
    + list_sum (map (fun t => match fn t with
                              | Fn _ => 0
                              | Sub q' => fuel_for q'
                              end) (tests q)).

Definition sub_fuel (t : test) : nat :=
  match fn t with
  | Fn _ => 0
  | Sub q => fuel_for q
  end.

(** Enough fuel for [_testQueueNext] when the cursor is [c]. *)
Definition need (this : TestQueue) (c : nat) : nat :=
  1 + (length (tests this) - c)
    + list_sum (map sub_fuel (skipn c (tests this))).

(** ** One entry at a time

    [_testQueueNext] handles the entry under the cursor and then goes one
    of three ways: nothing is left pending, it calls itself from a
    callback, or it calls [_onFinish]. *)

Inductive control : Type :=
| Stall (st : RunState)       (* no callback will ever be called *)
| Continue (st : RunState)    (* the callback calls _testQueueNext *)
| Finalize (st : RunState)    (* _onFinish is called *)
| OutOfFuel.

Definition after_entry (this : TestQueue)
  (run_sub : TestQueue -> option RunResult) (st : RunState) : control :=
  if _testQueueCursor st =? length (tests this) then Finalize st
  else
    match nth_error (tests this) (_testQueueCursor st) with
    | None => Stall st
    | Some t =>
        let i := _testQueueCursor st in
        let st := record [Dispatch i (name t)] st in
        match fn t with
        | Sub q =>
            match run_sub (subscribe (name t) q) with
            | None => OutOfFuel
            | Some (Threw _ sub) => Stall (record (lift this i (log sub)) st)
            | Some (Returned sub) =>
                let st := record (lift this i (log sub)) (incr_cursor st) in
                match ret sub with
                | Resolved results =>
                    Continue
                      (add_passed (results_passed results)
                         (record [Outcome true (S i)] st))
                | Rejected results =>
                    let st :=
                      add_passed (results_passed results)
                        (add_failed (results_failed results)
                           (record [ConsoleLog [name t; VResults results]]
                              (record [Outcome false (S i)] st))) in
                    if stopOnFail this then Finalize st else Continue st
                | Pending => Stall st
                end
            end
        | Fn f =>
            let st :=
              incr_cursor
                (fold_left (fun s args => emit this EvInfo args s)
                           (leaf_info f) st) in
            match new_Promise f with
            | Fulfils v =>
                Continue
                  (emit this EvPass [name t; v]
                     (add_passed 1 (record [Outcome true (S i)] st)))
            | Rejects e =>
                let st :=
                  emit this EvFail [name t; e]
                    (add_failed 1 (record [Outcome false (S i)] st)) in
                if stopOnFail this then Finalize st else Continue st
            | NeverSettles => Stall st
            end
        end
    end.

Definition resume (next : RunState -> option RunState) (this : TestQueue)
  (c : control) : option RunState :=
  match c with
  | Stall st => Some st
  | Continue st => next st
  | Finalize st => Some (_onFinish this st)
  | OutOfFuel => None
  end.

(** ** Notions used in the statements *)

(** *** Setup and teardown *)

(** A setup or teardown function completes when it returns a value, or a
    promise-like that is fulfilled. *)
Definition completes (c : completion) : bool :=
  match c with
  | Return v =>
      match promise_resolve v with
      | Fulfils _ => true
      | _ => false
      end
  | Throw _ => false
  end.

(** It fails when it throws, or returns a promise-like that is rejected. *)
Definition fails_hook (c : completion) : bool :=
  match c with
  | Return v =>
      match promise_resolve v with
      | Rejects _ => true
      | _ => false
      end
  | Throw _ => true
  end.

(** The state of a run of [this] when ['start'] has just been emitted. *)
Definition started (this : TestQueue) : RunState :=
  emit this EvStart [] (record [CallSetup] initial).

(** *** Finalization *)

(** The steps of [_onFinish] in a log. *)
Definition is_final (a : action) : bool :=
  match a with
  | Emit EvFinish _ | CallTeardown | Settle _ => true
  | _ => false
  end.

Definition finalization (l : list action) : list action :=
  filter is_final l.

(** How the promise of a run is settled once teardown is over. *)
Definition verdict (st : RunState) : PromiseState :=
  if 0 <? failed st
  then Rejected (mkResults (passed st) (failed st))
  else Resolved (mkResults (passed st) (failed st)).

(** The state of a run before [_onFinish] is called. *)
Definition unfinished (st : RunState) : Prop :=
  finalization (log st) = [] /\ ret st = Pending.

(** The three ways in which the chain of callbacks of a run can end:
    before [_onFinish], in a teardown that does not complete, or with the
    promise settled. *)
Definition finalized (this : TestQueue) (st : RunState) : Prop :=
  let finish := Emit EvFinish [VResults (mkResults (passed st) (failed st))] in
  (finalization (log st) = [] /\ ret st = Pending)
  \/ (finalization (log st) = [finish; CallTeardown]
      /\ ret st = Pending /\ completes (teardownFn this) = false)
  \/ (finalization (log st) = [finish; CallTeardown; Settle (verdict st)]
      /\ ret st = verdict st /\ completes (teardownFn this) = true).

(** What [_onFinish] adds to the log. *)
Definition finish_steps (this : TestQueue) (st : RunState) : list action :=
  Emit EvFinish [VResults (mkResults (passed st) (failed st))]
  :: CallTeardown
  :: (if completes (teardownFn this) then [Settle (verdict st)] else []).

(** A queue runs to the end when its setup function completes and each
    of its entries gets an outcome: a leaf test by settling its promise, a
    nested queue by running to the end and completing its teardown. *)
Fixpoint runs_through (q : TestQueue) : bool :=
  completes (setupFn q)
  && completes (teardownFn q)
  && forallb (fun t => match fn t with
                       | Fn f => match new_Promise f with
                                 | NeverSettles => false
                                 | _ => true
                                 end
                       | Sub q' => runs_through q'
                       end) (tests q).

Definition entry_settles (t : test) : bool :=
  match fn t with
  | Fn f => match new_Promise f with
            | NeverSettles => false
            | _ => true
            end
  | Sub q => runs_through q
  end.

Definition entries_settle (q : TestQueue) : bool :=
  forallb entry_settles (tests q).

(** The state of a run that got to the end. *)
Definition reached_end (this : TestQueue) (st : RunState) : Prop :=
  finalization (log st) = finish_steps this st
  /\ (completes (teardownFn this) = true -> ret st = verdict st).

(** *** The schedule *)

(** Which entry is started, and which value the cursor has when the
    callback of an entry's promise is called. *)
Inductive tick : Type :=
| Started (i : nat) (n : value)
| Ended (cursor : nat).

Definition tick_of (a : action) : list tick :=
  match a with
  | Dispatch i n => [Started i n]
  | Outcome _ c => [Ended c]
  | _ => []
  end.

Definition schedule (l : list action) : list tick := flat_map tick_of l.

(** The schedule of a run that handles the entries [l], the first of
    which has index [i], one after the other. *)
Fixpoint plan (i : nat) (l : list test) : list tick :=
  match l with
  | [] => []
  | t :: l => Started i (name t) :: Ended (S i) :: plan (S i) l
  end.

(** The schedule of the run is an initial part of the plan. *)
Definition in_order (this : TestQueue) (st : RunState) : Prop :=
  exists rest, schedule (log st) ++ rest = plan 0 (tests this).

(** The state of the schedule whenever [_testQueueNext] is entered. *)
Definition between_entries (this : TestQueue) (st : RunState) : Prop :=
  schedule (log st) = plan 0 (firstn (_testQueueCursor st) (tests this)).

(** From [st] to [s] the entry under the cursor is started. *)
Definition entry_started (this : TestQueue) (st s : RunState) : Prop :=
  exists t,
    nth_error (tests this) (_testQueueCursor st) = Some t
    /\ schedule (log s)
       = schedule (log st) ++ [Started (_testQueueCursor st) (name t)].

(** From [st] to [s] the entry under the cursor is started, the cursor is
    advanced, and the callback of the entry's promise is called. *)
Definition entry_ended (this : TestQueue) (st s : RunState) : Prop :=
  exists t,
    nth_error (tests this) (_testQueueCursor st) = Some t
    /\ _testQueueCursor s = S (_testQueueCursor st)
    /\ schedule (log s)
       = schedule (log st)
         ++ [Started (_testQueueCursor st) (name t);
             Ended (S (_testQueueCursor st))].

(** The number of entries whose outcome is known. *)
Definition outcomes (l : list action) : nat :=
  length (filter (fun a => match a with Outcome _ _ => true | _ => false end)
                 l).

(** The cursor is never ahead of the number of known outcomes. *)
Definition cursor_follows_outcomes (st : RunState) : Prop :=
  _testQueueCursor st <= outcomes (log st).

(** The indices of the entries of the queue that were started, in order. *)
Definition dispatched (l : list action) : list nat :=
  flat_map (fun a => match a with Dispatch i _ => [i] | _ => [] end) l.

(** *** Events *)

(** The events emitted on the queue itself, in order. *)
Definition emitted (l : list action) : list (event * list value) :=
  flat_map (fun a => match a with
                     | Emit k args | ReEmit k args => [(k, args)]
                     | _ => []
                     end) l.

(** The calls of [emit] on the parent made by listeners, in order. *)
Definition forwarded (l : list action) : list (event * list value) :=
  flat_map (fun a => match a with
                     | Forward k args => [(k, args)]
                     | _ => []
                     end) l.

(** What the listeners attached by [subscribe n] make of an event. *)
Definition relay (n : value) (e : event * list value) : event * list value :=
  match fst e with
  | EvStart => (EvStart, n :: snd e)
  | EvFinish => (EvFinish, [nth 0 (snd e) VUndefined; n])
  | k => (k, snd e)
  end.

(** What all the listeners of [q] forward when the events [l] are
    emitted on [q]. *)
Definition relayed (q : TestQueue) (l : list (event * list value))
  : list (event * list value) :=
  flat_map (fun e => forwarded (notify q (fst e) (snd e))) l.

(** Whatever is emitted on a queue reaches all its listeners. *)
Definition relays_follow (q : TestQueue) (st : RunState) : Prop :=
  forwarded (log st) = relayed q (emitted (log st)).

(** No listener of [q] was attached by a parent queue. *)
Definition only_observers (q : TestQueue) : bool :=
  forallb (fun kl => match snd kl with Observer _ => true | _ => false end)
          (listeners q).

(** *** Leaf tests by outcome *)

Definition leaf_passes (t : test) : bool :=
  match fn t with
  | Fn f => match new_Promise f with Fulfils _ => true | _ => false end
  | Sub _ => false
  end.

Definition leaf_fails (t : test) : bool :=
  match fn t with
  | Fn f => match new_Promise f with Rejects _ => true | _ => false end
  | Sub _ => false
  end.

Definition leaf_settles (t : test) : bool := leaf_passes t || leaf_fails t.

(** ** Concrete queues *)

Definition passes (v : value) : runnable TestQueue :=
  Fn (mkLeaf [] (CallsPass v)).

Definition fails (e : value) : runnable TestQueue :=
  Fn (mkLeaf [] (CallsFail e)).

(** The scenario of the specification: [a] passes, [b] fails, [c] passes,
    and [stopOnFail] has its default value. *)
Definition abc : TestQueue :=
  addTest (VString "c") (passes VUndefined)
    (addTest (VString "b") (fails (VError "E"))
      (addTest (VString "a") (passes VUndefined)
        (new_TestQueue None))).

(** The same tests in a queue that goes on after a failure. *)
Definition keep_going : TestQueue :=
  addTest (VString "c") (passes VUndefined)
    (addTest (VString "b") (fails (VError "E"))
      (addTest (VString "a") (passes VUndefined)
        (new_TestQueue (Some (VBool false))))).

Definition two_passes : TestQueue :=
  addTest (VString "y") (passes VUndefined)
    (addTest (VString "x") (passes VUndefined) (new_TestQueue None)).

(** A nested queue with two passes and one failure, and its parent. *)
Definition inner21 : TestQueue :=
  addTest (VString "z") (passes VUndefined)
    (addTest (VString "y") (fails (VString "no"))
      (addTest (VString "x") (passes VUndefined)
        (new_TestQueue (Some (VBool false))))).

Definition outer : TestQueue :=
  addTest (VString "after") (passes VUndefined)
    (addTest (VString "nested") (Sub inner21)
      (new_TestQueue (Some (VBool false)))).

(** The final state of the run of [inner21] as an entry of [outer]. *)
Definition inner21_run : RunState :=
  Eval vm_compute in
    match run 7 (subscribe (VString "nested") inner21) with
    | Some r => state_of r
    | None => initial
    end.

(** Three levels: [two_passes] inside [middle] inside [top]. *)
Definition middle : TestQueue :=
  addTest (VString "inner") (Sub two_passes) (new_TestQueue None).

Definition top : TestQueue :=
  addTest (VString "middle") (Sub middle) (new_TestQueue None).

(** A nested queue that passes, followed by a leaf test that fails. *)
Definition nested_then_failure : TestQueue :=
  addTest (VString "b") (fails (VError "E"))
    (addTest (VString "a") (Sub two_passes) (new_TestQueue None)).

(** A queue whose only entry is an empty queue. *)
Definition nested_empty : TestQueue :=
  addTest (VString "a") (Sub (new_TestQueue None)) (new_TestQueue None).

(** Setup and teardown functions that return a rejected promise. *)
Definition broken_setup : TestQueue :=
  setup (Return (VRejected (VError "no database")))
    (addTest (VString "a") (passes VUndefined) (new_TestQueue None)).

Definition empty_broken_setup : TestQueue :=
  setup (Return (VRejected (VError "no database"))) (new_TestQueue None).

Definition keep_going_broken_setup : TestQueue :=
  setup (Return (VRejected (VError "no database"))) keep_going.

Definition broken_teardown : TestQueue :=
  teardown (Return (VRejected (VError "cannot clean up")))
    (addTest (VString "a") (passes VUndefined)
      (new_TestQueue (Some (VBool false)))).

(** A test that never calls [pass] or [fail], one that throws, and one
    that returns a rejected promise without calling [pass] or [fail]. *)
Definition hang : TestQueue :=
  addTest (VString "b") (passes VUndefined)
    (addTest (VString "a") (Fn (mkLeaf [] (ReturnsValue VUndefined)))
      (new_TestQueue None)).

Definition throwing : TestQueue :=
  addTest (VString "t") (Fn (mkLeaf [] (ThrowsError (VError "boom"))))
    (new_TestQueue None).

Definition returning_rejection : TestQueue :=
  addTest (VString "t")
    (Fn (mkLeaf [] (ReturnsValue (VRejected (VError "boom")))))
    (new_TestQueue None).

(** ** Further notions *)

From Stdlib Require Import ZArith.
From Stdlib Require DecimalString.

(** *** User listeners *)

(** The calls of the user listener [id] recorded in a log, in order. *)
Definition notified (id : nat) (l : list action) : list (event * list value) :=
  flat_map (fun a => match a with
                     | Notify id' k args => if id' =? id then [(k, args)] else []
                     | _ => []
                     end) l.

(** How many times the user listener [id] is attached to [q] for [k]. *)
Definition attached (id : nat) (k : event) (q : TestQueue) : nat :=
  length (filter (fun kl => event_eqb (fst kl) k
                            && match snd kl with
                               | Observer id' => id' =? id
                               | _ => false
                               end)
                 (listeners q)).

(** What the user listener [id] of [q] hears of the events [l]. *)
Definition heard (id : nat) (q : TestQueue) (l : list (event * list value))
  : list (event * list value) :=
  flat_map (fun e => repeat e (attached id (fst e) q)) l.

Definition listeners_follow (id : nat) (q : TestQueue) (st : RunState)
  : Prop :=
  notified id (log st) = heard id q (emitted (log st)).

(** *** The results of a queue, read off its tests *)

(** What a leaf test adds to [passed] and [failed]. *)
Definition leaf_tally (f : leaf) : nat * nat :=
  match new_Promise f with
  | Fulfils _ => (1, 0)
  | Rejects _ => (0, 1)
  | NeverSettles => (0, 0)
  end.

(** The counters of a queue all of whose entries get an outcome: a leaf
    test counts for one, a nested queue for its own counters, and a queue
    with [stopOnFail] stops at its first entry that adds a failure. *)
Fixpoint tally (q : TestQueue) : nat * nat :=
  (fix entries (l : list test) (p f : nat) {struct l} : nat * nat :=
     match l with
     | [] => (p, f)
     | t :: l' =>
         let c := match fn t with
                  | Fn lf => leaf_tally lf
                  | Sub q' => tally q'
                  end in
         if stopOnFail q && (0 <? snd c)
         then (p + fst c, f + snd c)
         else entries l' (p + fst c) (f + snd c)
     end) (tests q) 0 0.

Definition contribution (t : test) : nat * nat :=
  match fn t with
  | Fn lf => leaf_tally lf
  | Sub q => tally q
  end.

Fixpoint tally_entries (stop : bool) (l : list test) (p f : nat)
  : nat * nat :=
  match l with
  | [] => (p, f)
  | t :: l' =>
      let c := contribution t in
      if stop && (0 <? snd c)
      then (p + fst c, f + snd c)
      else tally_entries stop l' (p + fst c) (f + snd c)
  end.

(** The number of entries that are started. *)
Fixpoint entries_run (stop : bool) (l : list test) : nat :=
  match l with
  | [] => 0
  | t :: l' =>
      if stop && (0 <? snd (contribution t))
      then 1
      else S (entries_run stop l')
  end.

(** The calls of [console.log] in line 125, made by the queue itself. *)
Definition console_logs (l : list action) : list (list value) :=
  flat_map (fun a => match a with ConsoleLog args => [args] | _ => [] end) l.

(** What line 125 writes for an entry: the name and the results of a
    nested queue whose promise is rejected. *)
Definition rejection_log (t : test) : list (list value) :=
  match fn t with
  | Sub q =>
      if 0 <? snd (tally q)
      then [[name t;
             VResults (mkResults (fst (tally q)) (snd (tally q)))]]
      else []
  | Fn _ => []
  end.

(** The invariant of such a run: what is left to do gives the result. *)
Definition on_course (this : TestQueue) (st : RunState) : Prop :=
  entries_settle this = true
  /\ unfinished st
  /\ _testQueueCursor st <= length (tests this)
  /\ tally_entries (stopOnFail this)
       (skipn (_testQueueCursor st) (tests this)) (passed st) (failed st)
     = tally this
  /\ _testQueueCursor st
     + entries_run (stopOnFail this)
         (skipn (_testQueueCursor st) (tests this))
     = entries_run (stopOnFail this) (tests this)
  /\ dispatched (log st) = seq 0 (_testQueueCursor st)
  /\ console_logs (log st)
     = flat_map rejection_log (firstn (_testQueueCursor st) (tests this)).

(** The state in which it ends. *)
Definition tallied (this : TestQueue) (st : RunState) : Prop :=
  (passed st, failed st) = tally this
  /\ dispatched (log st)
     = seq 0 (entries_run (stopOnFail this) (tests this))
  /\ reached_end this st
  /\ console_logs (log st)
     = flat_map rejection_log
         (firstn (entries_run (stopOnFail this) (tests this))
                 (tests this)).


(** *** Whether the promise of a run is ever settled *)

(** The results with which the promise of an entry is settled, if it ever
    is. *)
Definition leaf_fate (f : leaf) : option (nat * nat) :=
  match new_Promise f with
  | Fulfils _ => Some (1, 0)
  | Rejects _ => Some (0, 1)
  | NeverSettles => None
  end.

(** The results with which the promise returned by [run] is settled, read
    off the queue: nothing when setup or teardown does not complete, or
    when an entry that is reached never gets an outcome. *)
Fixpoint fate (q : TestQueue) : option (nat * nat) :=
  if completes (setupFn q)
  then
    (fix entries (l : list test) (p f : nat) {struct l}
       : option (nat * nat) :=
       match l with
       | [] => if completes (teardownFn q) then Some (p, f) else None
       | t :: l' =>
           match match fn t with
                 | Fn lf => leaf_fate lf
                 | Sub q' => fate q'
                 end with
           | None => None
           | Some c =>
               if stopOnFail q && (0 <? snd c)
               then if completes (teardownFn q)
                    then Some (p + fst c, f + snd c) else None
               else entries l' (p + fst c) (f + snd c)
           end
       end) (tests q) 0 0
  else None.

Definition entry_fate (t : test) : option (nat * nat) :=
  match fn t with
  | Fn lf => leaf_fate lf
  | Sub q => fate q
  end.

Fixpoint fate_entries (stop td : bool) (l : list test) (p f : nat)
  : option (nat * nat) :=
  match l with
  | [] => if td then Some (p, f) else None
  | t :: l' =>
      match entry_fate t with
      | None => None
      | Some c =>
          if stop && (0 <? snd c)
          then if td then Some (p + fst c, f + snd c) else None
          else fate_entries stop td l' (p + fst c) (f + snd c)
      end
  end.

(** The promise that settles with the given results: rejected when there
    is a failure (line 161), fulfilled otherwise. *)
Definition promise_of (o : option (nat * nat)) : PromiseState :=
  match o with
  | None => Pending
  | Some (p, f) =>
      if 0 <? f then Rejected (mkResults p f) else Resolved (mkResults p f)
  end.

Definition fate_of_entries (this : TestQueue) (l : list test) (p f : nat)
  : option (nat * nat) :=
  fate_entries (stopOnFail this) (completes (teardownFn this)) l p f.

Definition heading_for (this : TestQueue) (st : RunState) : Prop :=
  unfinished st
  /\ _testQueueCursor st <= length (tests this)
  /\ fate_of_entries this (skipn (_testQueueCursor st) (tests this))
                     (passed st) (failed st)
     = fate_of_entries this (tests this) 0 0.

Definition ends_as_fated (this : TestQueue) (st : RunState) : Prop :=
  ret st = promise_of (fate_of_entries this (tests this) 0 0).

Definition returns_as_fated (this : TestQueue) (r : RunResult) : Prop :=
  match r with
  | Returned st => ret st = promise_of (fate this)
  | Threw _ st => ret st = Pending /\ fate this = None
  end.

(** *** Events and counters *)

(** How many of the events [l] are [k] events. *)
Definition count_kind (k : event) (l : list (event * list value)) : nat :=
  length (filter (fun e => event_eqb k (fst e)) l).

(** No nested queue, at any depth, carries a listener attached by a parent
    queue before the run. *)
Fixpoint pristine (q : TestQueue) : bool :=
  forallb (fun t => match fn t with
                    | Fn _ => true
                    | Sub q' => only_observers q' && pristine q'
                    end) (tests q).

(** The counters are the numbers of ['pass'] and ['fail'] events emitted
    on the queue so far. *)
Definition counts_agree (st : RunState) : Prop :=
  count_kind EvPass (emitted (log st)) = passed st
  /\ count_kind EvFail (emitted (log st)) = failed st.

Definition counts_below (st : RunState) : Prop :=
  passed st <= count_kind EvPass (emitted (log st))
  /\ failed st <= count_kind EvFail (emitted (log st)).

Definition counted (st : RunState) : Prop :=
  counts_below st /\ (In CallTeardown (log st) -> counts_agree st).

(** *** An entry that never gets an outcome *)

(** After the entry [t] the run goes on to the next entry: [t] gets an
    outcome, and the queue does not stop on it. *)
Definition goes_past (stop : bool) (t : test) : bool :=
  match entry_fate t with
  | Some c => negb (stop && (0 <? snd c))
  | None => false
  end.

(** *** Further concrete queues *)

(** A queue whose first entry is a nested queue with a teardown function
    that fails. *)
Definition nested_broken_teardown : TestQueue :=
  addTest (VString "after") (passes VUndefined)
    (addTest (VString "nested") (Sub broken_teardown)
      (new_TestQueue (Some (VBool false)))).

(** [outer] as it is when it is run for the second time: the nested queue
    still carries the listeners that the first run attached to it. *)
Definition outer_again : TestQueue :=
  addTest (VString "after") (passes VUndefined)
    (addTest (VString "nested")
       (Sub (subscribe (VString "nested") inner21))
      (new_TestQueue (Some (VBool false)))).

(** *** Building a queue *)

(** A call of one of the chainable methods of a queue. *)
Inductive call : Type :=
| AddTest (n : value) (f : runnable TestQueue)
| SetSetup (f : completion)
| SetTeardown (f : completion)
| AddListener (k : event) (l : listener).

Definition apply_call (q : TestQueue) (c : call) : TestQueue :=
  match c with
  | AddTest n f => addTest n f q
  | SetSetup f => setup f q
  | SetTeardown f => teardown f q
  | AddListener k l => on k l q
  end.

(** [new TestQueue(options).m1(...).m2(...)...]. *)
Definition chain (option_stopOnFail : option value) (calls : list call)
  : TestQueue :=
  fold_left apply_call calls (new_TestQueue option_stopOnFail).

Definition added_tests (calls : list call) : list test :=
  flat_map (fun c => match c with AddTest n f => [mkTest n f] | _ => [] end)
           calls.

Definition added_listeners (calls : list call) : list (event * listener) :=
  flat_map (fun c => match c with AddListener k l => [(k, l)] | _ => [] end)
           calls.

Definition setups (calls : list call) : list completion :=
  flat_map (fun c => match c with SetSetup f => [f] | _ => [] end) calls.

Definition teardowns (calls : list call) : list completion :=
  flat_map (fun c => match c with SetTeardown f => [f] | _ => [] end) calls.

(** *** Output to the console (lines 178-239) *)

(** [console.log] writes to the standard output, [console.error] to the
    standard error. *)
Inductive stream : Type := Stdout | Stderr.

(** The styles of [console-style] that [toConsole] uses. *)
Inductive style : Type :=
| plain | green | red | bold_redBG | black_greenBG.

(** An argument of a call of [console.log] or [console.error]: a string,
    styled or not, a value as it is, or the [stack] of an error. *)
Inductive printed : Type :=
| Text (s : style) (text : string)
| Val (v : value)
| Stack (e : value).

Record console_call : Type := mkCall {
  to : stream;
  shown : list printed
}.

(** The variable [queueDepth] of [toConsole] and what has been written. *)
Record Console : Type := mkConsole {
  queueDepth : Z;
  written : list console_call
}.

Definition console_log (args : list printed) (s : Console) : Console :=
  {| queueDepth := queueDepth s;
     written := written s ++ [mkCall Stdout args] |}.

Definition console_error (args : list printed) (s : Console) : Console :=
  {| queueDepth := queueDepth s;
     written := written s ++ [mkCall Stderr args] |}.

Definition set_queueDepth (d : Z) (s : Console) : Console :=
  {| queueDepth := d; written := written s |}.

(** The argument [i] of a listener: [undefined] when the event has fewer
    arguments. *)
Definition argument (i : nat) (args : list value) : value :=
  nth i args VUndefined.

(** [typeof v === 'string']. *)
Definition is_string (v : value) : bool :=
  match v with
  | VString _ => true
  | _ => false
  end.

(** [v || '']. *)
Definition or_empty (v : value) : value :=
  match v with
  | VUndefined | VBool false | VString EmptyString => VString ""
  | _ => v
  end.

(** [e instanceof Error], with [e.message]. *)
Definition message_of (e : value) : option string :=
  match e with
  | VError m => Some m
  | _ => None
  end.

Fixpoint hashes (n : nat) : string :=
  match n with
  | O => ""
  | S n => "#" ++ hashes n
  end.

(** [new Array(n).join('#')]: a [RangeError] when [n] is negative,
    otherwise the separator between each two of [n] empty slots. *)
Definition new_Array_join (n : Z) : option string :=
  if (n <? 0)%Z then None else Some (hashes (Z.to_nat (n - 1))).

(** A number in a string concatenation. *)
Definition number (n : nat) : string :=
  DecimalString.NilZero.string_of_uint (Nat.to_uint n).

(** [n === 1 ? '' : 's']. *)
Definition plural (n : nat) : string :=
  if n =? 1 then "" else "s".

Section Console.

(** The string that an object stands for in a concatenation. *)
Variable ToString : value -> string.

(** [s + v]. *)
Definition plus (s : string) (v : value) : string :=
  s ++ match v with
       | VString s' => s'
       | VUndefined => "undefined"
       | VBool true => "true"
       | VBool false => "false"
       | _ => ToString v
       end.

(** The four listeners; [None] when the listener throws. *)
Definition on_pass (args : list value) (s : Console) : option Console :=
  let name := argument 0 args in
  Some (console_log [Text green (plus "Pass: " name)] s).

Definition on_fail (args : list value) (s : Console) : option Console :=
  let name := argument 0 args in
  let e := argument 1 args in
  let s := console_error [Text red (plus "Fail: " name)] s in
  match message_of e with
  | Some m =>
      Some (console_error [Stack e] (console_error [Text bold_redBG m] s))
  | None => Some s
  end.

Definition on_start (args : list value) (s : Console) : option Console :=
  let name := argument 0 args in
  if is_string name
  then
    let s := set_queueDepth (queueDepth s + 1) s in
    match new_Array_join (queueDepth s + 1) with
    | None => None
    | Some h =>
        Some (console_log [Text plain (h ++ " " ++ "Start");
                           Val (or_empty name)] s)
    end
  else Some (console_log [Text plain "Start"; Val (or_empty name)] s).

Definition on_finish (args : list value) (s : Console) : option Console :=
  let name := argument 1 args in
  if is_string name
  then
    match new_Array_join (queueDepth s + 1) with
    | None => None
    | Some h =>
        let s := set_queueDepth (queueDepth s - 1) s in
        Some (console_log [Text plain (h ++ " " ++ "Finish");
                           Val (or_empty name)] s)
    end
  else Some (console_log [Text plain "Finish"; Val (or_empty name)] s).

(** The two callbacks that the new [run] passes to [then]. *)
Definition success_text (results : Results) : string :=
  "Success: all " ++ number (results_passed results) ++ " tests passed ".

Definition failure_text (results : Results) : string :=
  let total := results_failed results + results_passed results in
  "Failure: "
  ++ number total ++ " test" ++ plural total
  ++ " ran and " ++ number (results_passed results) ++ " test"
  ++ plural (results_passed results)
  ++ " passed and " ++ number (results_failed results) ++ " test"
  ++ plural (results_failed results)
  ++ " failed ".

Definition on_success (results : Results) (s : Console)
  : completion * Console :=
  (Return VUndefined,
   console_log [Text black_greenBG (success_text results)] s).

Definition on_failure (results : Results) (s : Console)
  : completion * Console :=
  (Return VUndefined,
   console_error [Text bold_redBG (failure_text results)] s).

(** [p.then(onFulfilled, onRejected)]: the promise it gives follows what
    the callback returns, and is rejected when the callback throws. *)
Definition then_ (p : PromiseState)
  (onFulfilled onRejected : Results -> Console -> completion * Console)
  (s : Console) : settlement * Console :=
  match p with
  | Pending => (NeverSettles, s)
  | Resolved r =>
      let (c, s) := onFulfilled r s in
      (match c with
       | Return v => promise_resolve v
       | Throw e => Rejects e
       end, s)
  | Rejected r =>
      let (c, s) := onRejected r s in
      (match c with
       | Return v => promise_resolve v
       | Throw e => Rejects e
       end, s)
  end.

(** What the console shows of a step of a run: the calls of the four
    listeners, which are the user listener [c] of the queue, and the
    [console.log] of line 125, of the queue and of its nested queues. *)
Fixpoint nested_console (a : action) (s : Console) : Console :=
  match a with
  | ConsoleLog args => console_log (map Val args) s
  | Child _ a' => nested_console a' s
  | _ => s
  end.

Definition console_step (c : nat) (a : action) (s : Console)
  : option Console :=
  match a with
  | Notify id k args =>
      if id =? c
      then match k with
           | EvPass => on_pass args s
           | EvFail => on_fail args s
           | EvStart => on_start args s
           | EvFinish => on_finish args s
           | EvInfo => Some s
           end
      else Some s
  | _ => Some (nested_console a s)
  end.

Fixpoint transcript (c : nat) (l : list action) (s : Console)
  : option Console :=
  match l with
  | [] => Some s
  | a :: l' =>
      match console_step c a s with
      | Some s' => transcript c l' s'
      | None => None
      end
  end.

End Console.

(** [TestQueue.toConsole(testQueue)]: the listeners that it attaches. *)
Definition toConsole (c : nat) (testQueue : TestQueue) : TestQueue :=
  on EvFinish (Observer c)
    (on EvStart (Observer c)
      (on EvFail (Observer c)
        (on EvPass (Observer c) testQueue))).

(** What the first call of the new [run] gives, [queueDepth] being 0 as
    line 180 leaves it: an exception, when the [run] of the prototype
    throws; the promise that [then] gives and the console; or nothing that
    is described here, when a listener throws. *)
Inductive ConsoleRun : Type :=
| RunThrew (e : value)
| RunReturned (p : settlement) (s : Console)
| ListenerThrew.

Definition toConsole_run (ToString : value -> string) (fuel c : nat)
  (testQueue : TestQueue) : option ConsoleRun :=
  match run fuel (toConsole c testQueue) with
  | None => None
  | Some (Threw e _) => Some (RunThrew e)
  | Some (Returned st) =>
      match transcript ToString c (log st) (mkConsole 0 []) with
      | None => Some ListenerThrew
      | Some s =>
          let (p, s) :=
            then_ (ret st) on_success on_failure s in
          Some (RunReturned p s)
      end
  end.

(** The calls that show a text in the style [y]. *)
Definition lines_in (y : style) (l : list console_call) : nat :=
  length (filter (fun w => match shown w with
                           | [Text y' _] =>
                               match y, y' with
                               | plain, plain | green, green | red, red
                               | bold_redBG, bold_redBG
                               | black_greenBG, black_greenBG => true
                               | _, _ => false
                               end
                           | _ => false
                           end) l).

Definition pass_fail_lines (s : Console) : nat * nat :=
  (lines_in green (written s), lines_in red (written s)).

(** [outer] with the console listeners, and what its run writes. *)
Definition outer_console : option ConsoleRun :=
  Eval vm_compute in toConsole_run (fun _ => "[object Object]") 9 0 outer.

(** The last call of a run whose promise settles with the given results. *)
Definition summary (passed failed : nat) : console_call :=
  if 0 <? failed
  then mkCall Stderr
         [Text bold_redBG (failure_text (mkResults passed failed))]
  else mkCall Stdout
         [Text black_greenBG (success_text (mkResults passed failed))].

(** The events for which [toConsole] attaches a listener. *)
Definition heard_by_console (k : event) : bool :=
  match k with
  | EvInfo => false
  | _ => true
  end.

(** *** The depth of nesting *)

(** What the ['start'] and ['finish'] listeners make of [queueDepth] in
    the course of the events [l]; [None] when one of them throws. *)
Definition depth_step (e : event * list value) (d : Z) : option Z :=
  match fst e with
  | EvStart =>
      if is_string (argument 0 (snd e))
      then if (d + 1 + 1 <? 0)%Z then None else Some (d + 1)%Z
      else Some d
  | EvFinish =>
      if is_string (argument 1 (snd e))
      then if (d + 1 <? 0)%Z then None else Some (d - 1)%Z
      else Some d
  | _ => Some d
  end.

Fixpoint depth_scan (l : list (event * list value)) (d : Z) : option Z :=
  match l with
  | [] => Some d
  | e :: l' =>
      match depth_step e d with
      | Some d' => depth_scan l' d'
      | None => None
      end
  end.

(** The number of queues that have started and not finished after the
    events [l], when there were [d] before; [None] when more of them
    finish than have started. *)
Fixpoint nest (l : list (event * list value)) (d : nat) : option nat :=
  match l with
  | [] => Some d
  | e :: l' =>
      match fst e with
      | EvStart => nest l' (S d)
      | EvFinish =>
          match d with
          | O => None
          | S d' => nest l' d'
          end
      | _ => nest l' d
      end
  end.

Definition nested_ok (st : RunState) : Prop :=
  exists d,
    nest (emitted (log st)) 0 = Some d /\ (ret st <> Pending -> d = 0).

Definition depth_ok (st : RunState) : Prop :=
  exists d,
    depth_scan (emitted (log st)) 0 = Some d
    /\ (0 <= d)%Z /\ (ret st <> Pending -> d = 0%Z).

(** *** The tests of a queue *)

(** The number of leaf tests of a queue, at any depth. *)
Fixpoint leaves (q : TestQueue) : nat :=
  list_sum (map (fun t => match fn t with
                          | Fn _ => 1
                          | Sub q' => leaves q'
                          end) (tests q)).

Definition entry_leaves (t : test) : nat :=
  match fn t with
  | Fn _ => 1
  | Sub q => leaves q
  end.

(** [stopOnFail] is unset in the queue and in its nested queues. *)
Fixpoint never_stops (q : TestQueue) : bool :=
  negb (stopOnFail q)
  && forallb (fun t => match fn t with
                       | Fn _ => true
                       | Sub q' => never_stops q'
                       end) (tests q).

Definition entry_never_stops (t : test) : bool :=
  match fn t with
  | Fn _ => true
  | Sub q => never_stops q
  end.

(** *** Getting to finalization *)

(** The run gets to [_onFinish]: walking the entries in order, each one
    gets an outcome, until they are exhausted or, with [stopOnFail], one
    of them adds a failure. *)
Fixpoint entries_reach_finish (stop : bool) (l : list test) : bool :=
  match l with
  | [] => true
  | t :: l' =>
      match entry_fate t with
      | None => false
      | Some c => (stop && (0 <? snd c)) || entries_reach_finish stop l'
      end
  end.

Definition reaches_finish (q : TestQueue) : bool :=
  completes (setupFn q)
  && entries_reach_finish (stopOnFail q) (tests q).

Definition heading_for_finish (this : TestQueue) (st : RunState) : Prop :=
  unfinished st
  /\ _testQueueCursor st <= length (tests this)
  /\ entries_reach_finish (stopOnFail this)
       (skipn (_testQueueCursor st) (tests this))
     = entries_reach_finish (stopOnFail this) (tests this).

(** The state in which the chain of callbacks ends: in [_onFinish] when
    the run gets there, before any of its steps otherwise. *)
Definition ends_in_finish (reaches : bool) (this : TestQueue)
  (st : RunState) : Prop :=
  if reaches
  then exists s, unfinished s /\ st = _onFinish this s
  else unfinished st.

(** A queue that stops on its first test, which fails; the second test
    would never call [pass] or [fail]. *)
Definition fail_then_hang : TestQueue :=
  addTest (VString "b") (Fn (mkLeaf [] (ReturnsValue VUndefined)))
    (addTest (VString "a") (fails (VError "E")) (new_TestQueue None)).
(** * Properties *)

(** ** Basic facts *)

Lemma run_S (fuel : nat) (this : TestQueue) :
  run (S fuel) this = run_body (_testQueueNext fuel this) this.
Proof. reflexivity. Qed.

Lemma _testQueueNext_S (fuel : nat) (this : TestQueue) (st : RunState) :
  _testQueueNext (S fuel) this st
  = testQueueNext_body (_testQueueNext fuel this) this (run fuel) st.
Proof. reflexivity. Qed.

Lemma cursor_fold_emit (this : TestQueue) (k : event) (l : list (list value))
  (st : RunState) :
  _testQueueCursor (fold_left (fun s args => emit this k args s) l st)
  = _testQueueCursor st.
Proof.
  revert st; induction l as [|a l IH]; intros st; simpl; [reflexivity|].
  rewrite IH. reflexivity.
Qed.

Lemma body_resume (next : RunState -> option RunState) (this : TestQueue)
  (run_sub : TestQueue -> option RunResult) (st : RunState) :
  testQueueNext_body next this run_sub st
  = resume next this (after_entry this run_sub st).
Proof.
  unfold testQueueNext_body, after_entry.
  destruct (_testQueueCursor st =? length (tests this)); [reflexivity|].
  destruct (nth_error (tests this) (_testQueueCursor st)) as [t|];
    [|reflexivity].
  destruct (fn t) as [f|q].
  - destruct (new_Promise f); simpl; unfold _onPass, _onError; simpl;
      rewrite ?cursor_fold_emit; simpl;
      try destruct (stopOnFail this); reflexivity.
  - destruct (run_sub (subscribe (name t) q)) as [[sub|e sub]|];
      try reflexivity.
    destruct (ret sub); simpl; unfold _onPassQueue, _onErrorQueue; simpl;
      try destruct (stopOnFail this); reflexivity.
Qed.

Lemma not_at_end (this : TestQueue) (st : RunState) (t : test) :
  nth_error (tests this) (_testQueueCursor st) = Some t ->
  (_testQueueCursor st =? length (tests this)) = false.
Proof.
  intros Ht. apply Nat.eqb_neq. intros Heq.
  assert (nth_error (tests this) (_testQueueCursor st) <> None) as Hlt
    by congruence.
  apply nth_error_Some in Hlt. lia.
Qed.

(** ** A proof rule for runs

    [I] holds whenever [_testQueueNext] is entered, [T] of the state in
    which the chain of callbacks ends, [R] of a finished call of [run]. *)

Section Rule.

Variables I T : TestQueue -> RunState -> Prop.
Variable R : TestQueue -> RunResult -> Prop.

Hypothesis entry_rule :
  forall this run_sub st,
    (forall q r, run_sub q = Some r -> R q r) ->
    I this st ->
    match after_entry this run_sub st with
    | Continue s => I this s
    | Stall s => T this s
    | Finalize s => T this (_onFinish this s)
    | OutOfFuel => True
    end.

Hypothesis run_body_rule :
  forall this next,
    (forall st st', I this st -> next st = Some st' -> T this st') ->
    forall r, run_body next this = Some r -> R this r.

Lemma run_rule (fuel : nat) :
  (forall this r, run fuel this = Some r -> R this r)
  /\ (forall this st st',
         I this st -> _testQueueNext fuel this st = Some st' -> T this st').
Proof.
  induction fuel as [|fuel [IHrun IHnext]].
  - split; intros; discriminate.
  - split.
    + intros this r Hr. rewrite run_S in Hr.
      eapply run_body_rule; [|exact Hr]. intros st st'. apply IHnext.
    + intros this st st' HI Hn.
      rewrite _testQueueNext_S, body_resume in Hn.
      pose proof (entry_rule this (run fuel) st IHrun HI) as Hstep.
      destruct (after_entry this (run fuel) st) as [s|s|s|]; simpl in Hn.
      * injection Hn as <-. exact Hstep.
      * eapply IHnext; eauto.
      * injection Hn as <-. exact Hstep.
      * discriminate.
Qed.

End Rule.

(** ** Enough fuel gives a result *)

Lemma fuel_for_eq (q : TestQueue) :
  fuel_for q = 2 + length (tests q) + list_sum (map sub_fuel (tests q)).
Proof. destruct q; reflexivity. Qed.

Lemma fuel_for_subscribe (n : value) (q : TestQueue) :
  fuel_for (subscribe n q) = fuel_for q.
Proof. destruct q; reflexivity. Qed.

Lemma skipn_nth_error {A : Type} (l : list A) (i : nat) (x : A) :
  nth_error l i = Some x -> skipn i l = x :: skipn (S i) l.
Proof.
  revert i; induction l as [|a l IH]; intros [|i] H; simpl in *;
    try discriminate.
  - injection H as ->. reflexivity.
  - apply IH in H. rewrite H. destruct l; reflexivity.
Qed.

Lemma need_step (this : TestQueue) (c : nat) (t : test) :
  nth_error (tests this) c = Some t ->
  need this c = S (sub_fuel t + need this (S c)).
Proof.
  intros H. unfold need. rewrite (skipn_nth_error _ _ _ H). simpl.
  assert (c < length (tests this)) by (apply nth_error_Some; congruence).
  lia.
Qed.

Lemma enough_fuel (fuel : nat) :
  (forall this, fuel_for this <= fuel -> exists r, run fuel this = Some r)
  /\ (forall this st,
         need this (_testQueueCursor st) <= fuel ->
         exists st', _testQueueNext fuel this st = Some st').
Proof.
  induction fuel as [|fuel [IHrun IHnext]].
  - split.
    + intros this H. rewrite fuel_for_eq in H. lia.
    + intros this st H. unfold need in H. lia.
  - split.
    + intros this H. rewrite run_S. unfold run_body.
      destruct (setupFn this) as [v|e]; [|eauto].
      destruct (promise_resolve v); eauto.
      destruct (IHnext this (emit this EvStart [] (record [CallSetup] initial)))
        as [st' Hst'].
      * rewrite fuel_for_eq in H. unfold need. simpl. lia.
      * rewrite Hst'. simpl. eauto.
    + intros this st H. rewrite _testQueueNext_S, body_resume.
      unfold after_entry.
      destruct (_testQueueCursor st =? length (tests this)); [simpl; eauto|].
      destruct (nth_error (tests this) (_testQueueCursor st)) as [t|] eqn:Ht;
        [|simpl; eauto].
      rewrite (need_step _ _ _ Ht) in H. unfold sub_fuel in H.
      destruct (fn t) as [f|q].
      * destruct (new_Promise f); simpl; try destruct (stopOnFail this);
          simpl; eauto; apply IHnext; simpl; rewrite cursor_fold_emit;
          simpl; lia.
      * destruct (IHrun (subscribe (name t) q)) as [r Hr].
        { rewrite fuel_for_subscribe. lia. }
        rewrite Hr. destruct r as [sub|e sub]; [|simpl; eauto].
        destruct (ret sub); simpl; try destruct (stopOnFail this); simpl;
          eauto; apply IHnext; simpl; lia.
Qed.

(** More fuel does not change the result. *)
Lemma after_entry_more (this : TestQueue)
  (run_sub run_sub' : TestQueue -> option RunResult) (st : RunState) :
  (forall q r, run_sub q = Some r -> run_sub' q = Some r) ->
  after_entry this run_sub st <> OutOfFuel ->
  after_entry this run_sub' st = after_entry this run_sub st.
Proof.
  intros Hsub. unfold after_entry.
  destruct (_testQueueCursor st =? length (tests this)); [reflexivity|].
  destruct (nth_error (tests this) (_testQueueCursor st)) as [t|];
    [|reflexivity].
  destruct (fn t) as [f|q]; [reflexivity|].
  destruct (run_sub (subscribe (name t) q)) as [r|] eqn:Hr.
  - rewrite (Hsub _ _ Hr). reflexivity.
  - intros H. contradiction H. reflexivity.
Qed.

Lemma more_fuel (fuel : nat) :
  (forall fuel' this r,
      fuel <= fuel' -> run fuel this = Some r -> run fuel' this = Some r)
  /\ (forall fuel' this st st',
         fuel <= fuel' -> _testQueueNext fuel this st = Some st' ->
         _testQueueNext fuel' this st = Some st').
Proof.
  induction fuel as [|fuel [IHrun IHnext]].
  - split; intros; discriminate.
  - split.
    + intros [|fuel'] this r Hle Hr; [lia|].
      rewrite run_S in *. unfold run_body in *.
      destruct (setupFn this) as [v|e]; [|exact Hr].
      destruct (promise_resolve v); try exact Hr.
      destruct (_testQueueNext fuel this _) as [st'|] eqn:Hn;
        [|discriminate].
      rewrite (IHnext fuel' _ _ _ (le_S_n _ _ Hle) Hn). exact Hr.
    + intros [|fuel'] this st st' Hle Hn; [lia|].
      rewrite _testQueueNext_S, body_resume in *.
      assert (Hfuel : after_entry this (run fuel) st <> OutOfFuel)
        by (intros H; rewrite H in Hn; discriminate).
      rewrite (after_entry_more this (run fuel) (run fuel') st);
        [|intros q r; apply IHrun; lia|exact Hfuel].
      destruct (after_entry this (run fuel) st) as [s|s|s|]; simpl in *;
        try exact Hn.
      apply IHnext; [lia|exact Hn].
Qed.

Lemma run_total (this : TestQueue) (fuel : nat) :
  fuel_for this <= fuel -> exists r, run fuel this = Some r.
Proof. apply enough_fuel. Qed.

(** ** Logs *)

Lemma log_fold_emit (this : TestQueue) (k : event) (l : list (list value))
  (st : RunState) :
  log (fold_left (fun s args => emit this k args s) l st)
  = log st ++ flat_map (fun args => Emit k args :: notify this k args) l.
Proof.
  revert st; induction l as [|a l IH]; intros st; simpl.
  - now rewrite app_nil_r.
  - rewrite IH. simpl. now rewrite <- app_assoc.
Qed.

Lemma passed_fold_emit (this : TestQueue) (k : event) (l : list (list value))
  (st : RunState) :
  passed (fold_left (fun s args => emit this k args s) l st) = passed st.
Proof.
  revert st; induction l as [|a l IH]; intros st; simpl; [reflexivity|].
  now rewrite IH.
Qed.

Lemma failed_fold_emit (this : TestQueue) (k : event) (l : list (list value))
  (st : RunState) :
  failed (fold_left (fun s args => emit this k args s) l st) = failed st.
Proof.
  revert st; induction l as [|a l IH]; intros st; simpl; [reflexivity|].
  now rewrite IH.
Qed.

Lemma ret_fold_emit (this : TestQueue) (k : event) (l : list (list value))
  (st : RunState) :
  ret (fold_left (fun s args => emit this k args s) l st) = ret st.
Proof.
  revert st; induction l as [|a l IH]; intros st; simpl; [reflexivity|].
  now rewrite IH.
Qed.

Create Rewrite HintDb fields.
#[local] Hint Rewrite cursor_fold_emit log_fold_emit passed_fold_emit
  failed_fold_emit ret_fold_emit : fields.

(** Case analysis on the entry under the cursor, following [after_entry]. *)
Ltac entry_cases this run_sub st :=
  unfold after_entry;
  destruct (_testQueueCursor st =? length (tests this)) eqn:Eend;
  [ | destruct (nth_error (tests this) (_testQueueCursor st)) as [t|] eqn:Et;
      [ destruct (fn t) as [f|q] eqn:Efn;
        [ destruct (new_Promise f) as [v|e|] eqn:Ep;
          [ | destruct (stopOnFail this) eqn:Estop | ]
        | destruct (run_sub (subscribe (name t) q)) as [[sub|e sub]|] eqn:Esub;
          [ destruct (ret sub) as [|res|res] eqn:Eret;
            [ | | destruct (stopOnFail this) eqn:Estop ]
          | | ] ]
      | ] ].

(** ** Finalization *)

Lemma finalization_app (l1 l2 : list action) :
  finalization (l1 ++ l2) = finalization l1 ++ finalization l2.
Proof. apply filter_app. Qed.

Lemma finalization_notify (this : TestQueue) (k : event) (args : list value) :
  finalization (notify this k args) = [].
Proof.
  unfold notify. induction (listeners this) as [|[k' l] ls IH]; simpl;
    [reflexivity|].
  destruct (event_eqb k' k); simpl; [|exact IH].
  destruct l; simpl; exact IH.
Qed.

Lemma finalization_lift (this : TestQueue) (i : nat) (l : list action) :
  finalization (lift this i l) = [].
Proof.
  induction l as [|a l IH]; simpl; [reflexivity|].
  unfold finalization in *. rewrite filter_app, IH, app_nil_r.
  destruct a; simpl; try reflexivity.
  apply finalization_notify.
Qed.

Lemma finalization_info (this : TestQueue) (l : list (list value)) :
  finalization
    (flat_map (fun args => Emit EvInfo args :: notify this EvInfo args) l)
  = [].
Proof.
  induction l as [|a l IH]; simpl; [reflexivity|].
  unfold finalization in *. rewrite filter_app, IH, app_nil_r.
  apply finalization_notify.
Qed.

Create Rewrite HintDb fin.
#[local] Hint Rewrite finalization_app finalization_notify finalization_lift
  finalization_info app_nil_r : fin.

Ltac fin_simpl H :=
  repeat (progress (simpl; autorewrite with fields fin; rewrite ?H)).

Lemma unfinished_entry (this : TestQueue)
  (run_sub : TestQueue -> option RunResult) (st : RunState) :
  unfinished st ->
  match after_entry this run_sub st with
  | Continue s | Stall s | Finalize s => unfinished s
  | OutOfFuel => True
  end.
Proof.
  intros [Hlog Hret]. unfold unfinished.
  entry_cases this run_sub st; fin_simpl Hlog; auto.
Qed.

Lemma _onFinish_finalized (this : TestQueue) (st : RunState) :
  unfinished st -> finalized this (_onFinish this st).
Proof.
  intros [Hlog Hret]. unfold finalized, _onFinish, completes.
  destruct (teardownFn this) as [v|e].
  - destruct (promise_resolve v).
    + right; right. unfold verdict, _testQueueFail, _testQueuePass, settle.
      simpl. rewrite Hret.
      destruct (0 <? failed st) eqn:Efailed; fin_simpl Hlog;
        rewrite ?Efailed; auto.
    + right; left. fin_simpl Hlog. auto.
    + right; left. fin_simpl Hlog. auto.
  - right; left. fin_simpl Hlog. auto.
Qed.

Lemma finalized_rule (fuel : nat) :
  (forall this r, run fuel this = Some r -> finalized this (state_of r))
  /\ (forall this st st',
         unfinished st -> _testQueueNext fuel this st = Some st' ->
         finalized this st').
Proof.
  apply (run_rule (fun _ => unfinished) finalized
                  (fun this r => finalized this (state_of r))).
  - intros this run_sub st _ Hst.
    pose proof (unfinished_entry this run_sub st Hst) as H.
    destruct (after_entry this run_sub st); auto.
    + left. exact H.
    + apply _onFinish_finalized. exact H.
  - intros this next Hnext r. unfold run_body.
    destruct (setupFn this) as [v|e].
    + destruct (promise_resolve v).
      * destruct (next _) as [st'|] eqn:Hn; simpl; [|discriminate].
        intros [= <-]. simpl. eapply Hnext; [|exact Hn].
        split; simpl; autorewrite with fin; reflexivity.
      * intros [= <-]. left. split; reflexivity.
      * intros [= <-]. left. split; reflexivity.
    + intros [= <-]. left. split; reflexivity.
Qed.

Lemma counters__onFinish (this : TestQueue) (st : RunState) :
  passed (_onFinish this st) = passed st
  /\ failed (_onFinish this st) = failed st
  /\ _testQueueCursor (_onFinish this st) = _testQueueCursor st.
Proof.
  unfold _onFinish.
  destruct (teardownFn this) as [v|e].
  - destruct (promise_resolve v);
      unfold _testQueueFail, _testQueuePass, settle; simpl;
      try destruct (0 <? failed st); try destruct (ret st); simpl; auto.
  - simpl. auto.
Qed.

Lemma started_unfinished (this : TestQueue) : unfinished (started this).
Proof.
  unfold started, unfinished. fin_simpl (@eq_refl nat 0). auto.
Qed.

Lemma run_started (fuel : nat) (this : TestQueue) :
  completes (setupFn this) = true ->
  run (S fuel) this
  = option_map Returned (_testQueueNext fuel this (started this)).
Proof.
  intros H. rewrite run_S. unfold run_body, completes in *.
  destruct (setupFn this) as [v|e]; [|discriminate].
  destruct (promise_resolve v); try discriminate. reflexivity.
Qed.

Lemma run_body_started (next : RunState -> option RunState)
  (this : TestQueue) (r : RunResult) :
  completes (setupFn this) = true ->
  run_body next this = Some r ->
  exists st', r = Returned st' /\ next (started this) = Some st'.
Proof.
  intros H. unfold run_body, completes in *.
  destruct (setupFn this) as [v|e]; [|discriminate].
  destruct (promise_resolve v); try discriminate.
  fold (started this). destruct (next (started this)) as [st'|];
    simpl; [|discriminate].
  intros [= <-]. eauto.
Qed.

Lemma _onFinish_steps (this : TestQueue) (st : RunState) :
  unfinished st ->
  finalization (log (_onFinish this st)) = finish_steps this st
  /\ ret (_onFinish this st)
     = if completes (teardownFn this) then verdict st else Pending.
Proof.
  intros [Hlog Hret]. unfold finish_steps, _onFinish, completes, verdict.
  destruct (teardownFn this) as [v|e].
  - destruct (promise_resolve v);
      unfold _testQueueFail, _testQueuePass, settle; simpl; rewrite ?Hret;
      destruct (0 <? failed st) eqn:Efailed; fin_simpl Hlog;
      rewrite ?Efailed; split; try reflexivity; assumption.
  - fin_simpl Hlog. split; try reflexivity; assumption.
Qed.

Lemma runs_through_eq (q : TestQueue) :
  runs_through q
  = completes (setupFn q) && completes (teardownFn q) && entries_settle q.
Proof. destruct q; reflexivity. Qed.

Lemma runs_through_subscribe (n : value) (q : TestQueue) :
  runs_through q = true ->
  completes (setupFn (subscribe n q)) = true
  /\ completes (teardownFn (subscribe n q)) = true
  /\ entries_settle (subscribe n q) = true.
Proof.
  rewrite runs_through_eq. intros H.
  apply andb_prop in H as [H Hentries]. apply andb_prop in H as [Hs Ht].
  auto.
Qed.

Lemma finish_steps_counters (this : TestQueue) (st s : RunState) :
  passed s = passed st -> failed s = failed st ->
  finish_steps this s = finish_steps this st.
Proof.
  intros Hp Hf. unfold finish_steps, verdict. rewrite Hp, Hf. reflexivity.
Qed.

Lemma _onFinish_reached (this : TestQueue) (st : RunState) :
  unfinished st ->
  finalization (log (_onFinish this st))
  = finish_steps this (_onFinish this st)
  /\ (completes (teardownFn this) = true ->
      ret (_onFinish this st) = verdict (_onFinish this st)).
Proof.
  intros Hst. destruct (_onFinish_steps this st Hst) as [Hlog Hret].
  destruct (counters__onFinish this st) as [Hp [Hf _]].
  rewrite (finish_steps_counters this st _ Hp Hf). split; [exact Hlog|].
  intros Hteardown. rewrite Hret, Hteardown. unfold verdict.
  rewrite Hp, Hf. reflexivity.
Qed.

Lemma reached_end_rule (fuel : nat) :
  (forall this r,
      run fuel this = Some r ->
      completes (setupFn this) = true -> entries_settle this = true ->
      exists st, r = Returned st /\ reached_end this st)
  /\ (forall this st st',
         (entries_settle this = true /\ unfinished st
          /\ _testQueueCursor st <= length (tests this)) ->
         _testQueueNext fuel this st = Some st' ->
         reached_end this st').
Proof.
  apply (run_rule
           (fun this st =>
              entries_settle this = true /\ unfinished st
              /\ _testQueueCursor st <= length (tests this))
           reached_end
           (fun this r =>
              completes (setupFn this) = true ->
              entries_settle this = true ->
              exists st, r = Returned st /\ reached_end this st)).
  - intros this run_sub st Hsub [Hentries [Hunf Hle]].
    pose proof (unfinished_entry this run_sub st Hunf) as Hunf'.
    assert (Hin : forall t, In t (tests this) -> entry_settles t = true).
    { intros t Ht. unfold entries_settle in Hentries.
      eapply forallb_forall in Hentries; eauto. }
    assert (Hrun : forall t q r,
               In t (tests this) ->
               fn t = Sub q ->
               run_sub (subscribe (name t) q) = Some r ->
               exists sub, r = Returned sub /\ ret sub = verdict sub).
    { intros t q r Ht Hfn Hr. specialize (Hin t Ht).
      unfold entry_settles in Hin. rewrite Hfn in Hin.
      destruct (runs_through_subscribe (name t) q Hin) as [Hs [Htd He]].
      destruct (Hsub _ _ Hr Hs He) as [sub [-> [_ Hret]]].
      exists sub. split; [reflexivity|]. apply Hret. exact Htd. }
    revert Hunf'.
    entry_cases this run_sub st; intros Hunf';
      try (assert (Hlt : _testQueueCursor st < length (tests this))
            by (apply nth_error_Some; rewrite Et; discriminate));
      try (apply _onFinish_reached; exact Hunf');
      try (split; [exact Hentries|]; split; [exact Hunf'|];
           repeat (progress (simpl; autorewrite with fields)); lia);
      try exact I.
    + apply nth_error_In in Et. specialize (Hin t Et).
      unfold entry_settles in Hin. rewrite Efn, Ep in Hin. discriminate.
    + apply nth_error_In in Et.
      destruct (Hrun t q _ Et Efn Esub) as [sub' [[= <-] Hret]].
      rewrite Eret in Hret. unfold verdict in Hret.
      destruct (0 <? failed sub); discriminate.
    + apply nth_error_In in Et.
      destruct (Hrun t q _ Et Efn Esub) as [sub' [[=] _]].
    + apply Nat.eqb_neq in Eend. apply nth_error_None in Et. lia.
  - intros this next Hnext r Hr Hsetup Hentries.
    destruct (run_body_started next this r Hsetup Hr) as [st' [-> Hn]].
    exists st'. split; [reflexivity|].
    apply (Hnext (started this) st'); [|exact Hn].
    split; [exact Hentries|]. split; [apply started_unfinished|].
    simpl. lia.
Qed.

(** ** Failing setup and teardown *)

Lemma fails_hook_completes (c : completion) :
  fails_hook c = true -> completes c = false.
Proof.
  destruct c as [v|e]; simpl; [|reflexivity].
  destruct (promise_resolve v); congruence.
Qed.

(** C10.  When the teardown function throws, or returns a promise that is
    rejected, the promise returned by [run] is never settled; and if the
    run gets as far as calling teardown, the ['finish'] event has been
    emitted before, with the aggregated results.  The run does get that
    far when its setup completes and its entries all get an outcome. *)
Theorem teardown_failure_never_settles (this : TestQueue) (fuel : nat) :
  fails_hook (teardownFn this) = true ->
  fuel_for this <= fuel ->
  exists r,
    run fuel this = Some r
    /\ ret (state_of r) = Pending
    /\ (In CallTeardown (log (state_of r))
        \/ (completes (setupFn this) = true /\ entries_settle this = true) ->
        finalization (log (state_of r))
        = [Emit EvFinish
             [VResults (mkResults (passed (state_of r))
                                  (failed (state_of r)))];
           CallTeardown]).
Proof.
  intros Hfails Hfuel. apply fails_hook_completes in Hfails.
  destruct (run_total this fuel Hfuel) as [r Hr].
  exists r. split; [exact Hr|].
  pose proof (proj1 (reached_end_rule fuel) this r Hr) as Hend.
  destruct (proj1 (finalized_rule fuel) this r Hr)
    as [[Hlog Hret]|[[Hlog [Hret _]]|[_ [_ Hc]]]].
  - split; [exact Hret|]. intros [Hin|[Hsetup Hentries]].
    + assert (In CallTeardown (finalization (log (state_of r)))) as Hin'
        by (apply filter_In; split; [exact Hin|reflexivity]).
      rewrite Hlog in Hin'. contradiction.
    + destruct (Hend Hsetup Hentries) as [st [-> [Hsteps _]]].
      simpl in *. rewrite Hlog in Hsteps. discriminate.
  - split; [exact Hret|]. intros _. exact Hlog.
  - congruence.
Qed.

Lemma teardown_failure_never_settles_witness :
  exists r,
    run 3 broken_teardown = Some r
    /\ ret (state_of r) = Pending
    /\ (In CallTeardown (log (state_of r))
        \/ (completes (setupFn broken_teardown) = true
            /\ entries_settle broken_teardown = true) ->
        finalization (log (state_of r))
        = [Emit EvFinish
             [VResults (mkResults (passed (state_of r))
                                  (failed (state_of r)))];
           CallTeardown]).
Proof.
  apply (teardown_failure_never_settles broken_teardown 3).
  - reflexivity.
  - simpl. lia.
Defined.

(** The run of [broken_teardown] does reach teardown. *)
Example broken_teardown_run :
  option_map (fun r => log (state_of r)) (run 3 broken_teardown)
  = Some [CallSetup; Emit EvStart [];
          Dispatch 0 (VString "a"); Outcome true 1;
          Emit EvPass [VString "a"; VUndefined];
          Emit EvFinish [VResults (mkResults 1 0)]; CallTeardown].
Proof. reflexivity. Qed.

(** C9.  When the setup function returns a promise that is rejected, the
    promise returned by [run] is never settled: calling setup is all that
    happens, so that ['start'] is not emitted, no entry is started and the
    teardown function is not called. *)
Theorem setup_rejection_never_settles (this : TestQueue) (fuel : nat)
  (v e : value) :
  setupFn this = Return v ->
  promise_resolve v = Rejects e ->
  exists st,
    run (S fuel) this = Some (Returned st)
    /\ ret st = Pending
    /\ log st = [CallSetup]
    /\ (forall args, ~ In (Emit EvStart args) (log st))
    /\ (forall i n a, ~ In (Dispatch i n) (log st)
                      /\ ~ In (Child i a) (log st))
    /\ ~ In CallTeardown (log st).
Proof.
  intros Hsetup Hv. exists (record [CallSetup] initial).
  rewrite run_S. unfold run_body. rewrite Hsetup, Hv. simpl.
  repeat split; try reflexivity; intros; intros [H|[]]; discriminate H.
Qed.

Lemma setup_rejection_never_settles_witness :
  exists st,
    run 1 broken_setup = Some (Returned st)
    /\ ret st = Pending
    /\ log st = [CallSetup]
    /\ (forall args, ~ In (Emit EvStart args) (log st))
    /\ (forall i n a, ~ In (Dispatch i n) (log st)
                      /\ ~ In (Child i a) (log st))
    /\ ~ In CallTeardown (log st).
Proof.
  apply (setup_rejection_never_settles broken_setup 0
           (VRejected (VError "no database")) (VError "no database"));
    reflexivity.
Defined.

(** ** Projections of the log

    What listeners do, and what happens in a nested queue, is invisible to
    a projection that only looks at the steps of the queue itself. *)

Section Projection.

Context {B : Type} (proj : action -> list B).
Hypothesis proj_Notify : forall id k args, proj (Notify id k args) = [].
Hypothesis proj_Forward : forall k args, proj (Forward k args) = [].
Hypothesis proj_ReEmit : forall k args, proj (ReEmit k args) = [].
Hypothesis proj_Child : forall i a, proj (Child i a) = [].

Lemma proj_notify (this : TestQueue) (k : event) (args : list value) :
  flat_map proj (notify this k args) = [].
Proof.
  unfold notify. induction (listeners this) as [|[k' l] ls IH]; simpl;
    [reflexivity|].
  rewrite flat_map_app, IH, app_nil_r.
  destruct (event_eqb k' k); simpl; [|reflexivity].
  destruct l; simpl; rewrite ?proj_Notify, ?proj_Forward; reflexivity.
Qed.

Lemma proj_lift (this : TestQueue) (i : nat) (l : list action) :
  flat_map proj (lift this i l) = [].
Proof.
  unfold lift. induction l as [|a l IH]; simpl; [reflexivity|].
  rewrite flat_map_app, IH, app_nil_r, proj_Child. simpl.
  destruct a; simpl; try reflexivity.
  rewrite proj_ReEmit. apply proj_notify.
Qed.

Lemma proj_emits (this : TestQueue) (k : event) (l : list (list value)) :
  flat_map proj (flat_map (fun args => Emit k args :: notify this k args) l)
  = flat_map (fun args => proj (Emit k args)) l.
Proof.
  induction l as [|a l IH]; simpl; [reflexivity|].
  rewrite flat_map_app, IH, proj_notify. reflexivity.
Qed.

End Projection.

(** ** One entry at a time *)

Lemma schedule_app (l1 l2 : list action) :
  schedule (l1 ++ l2) = schedule l1 ++ schedule l2.
Proof. apply flat_map_app. Qed.

Lemma schedule_notify (this : TestQueue) (k : event) (args : list value) :
  schedule (notify this k args) = [].
Proof. apply proj_notify; reflexivity. Qed.

Lemma schedule_lift (this : TestQueue) (i : nat) (l : list action) :
  schedule (lift this i l) = [].
Proof. apply proj_lift; reflexivity. Qed.

Lemma schedule_info (this : TestQueue) (l : list (list value)) :
  schedule
    (flat_map (fun args => Emit EvInfo args :: notify this EvInfo args) l)
  = [].
Proof.
  unfold schedule. rewrite proj_emits by reflexivity.
  induction l; simpl; auto.
Qed.

Create Rewrite HintDb sched.
#[local] Hint Rewrite schedule_app schedule_notify schedule_lift schedule_info
  app_nil_r : sched.

Ltac sched_simpl H :=
  repeat (progress (simpl; autorewrite with fields sched; rewrite ?H)).

Lemma schedule__onFinish (this : TestQueue) (st : RunState) :
  schedule (log (_onFinish this st)) = schedule (log st).
Proof.
  unfold _onFinish.
  destruct (teardownFn this) as [v|e].
  - destruct (promise_resolve v);
      unfold _testQueueFail, _testQueuePass, settle; simpl;
      try destruct (0 <? failed st); try destruct (ret st);
      sched_simpl (@eq_refl nat 0); reflexivity.
  - sched_simpl (@eq_refl nat 0); reflexivity.
Qed.

Lemma plan_app (i : nat) (l1 l2 : list test) :
  plan i (l1 ++ l2) = plan i l1 ++ plan (i + length l1) l2.
Proof.
  revert i; induction l1 as [|t l1 IH]; intros i; simpl.
  - now rewrite Nat.add_0_r.
  - rewrite IH. now rewrite Nat.add_succ_r.
Qed.

Lemma firstn_S_nth_error {A : Type} (l : list A) (i : nat) (x : A) :
  nth_error l i = Some x -> firstn (S i) l = firstn i l ++ [x].
Proof.
  revert i; induction l as [|a l IH]; intros [|i] H; simpl in *;
    try discriminate.
  - injection H as ->. reflexivity.
  - rewrite <- IH by exact H. reflexivity.
Qed.

Lemma plan_firstn_S (l : list test) (c : nat) (t : test) :
  nth_error l c = Some t ->
  plan 0 (firstn (S c) l) = plan 0 (firstn c l) ++ [Started c (name t); Ended (S c)].
Proof.
  intros H. rewrite (firstn_S_nth_error _ _ _ H), plan_app. simpl.
  rewrite length_firstn, Nat.min_l; [reflexivity|].
  apply Nat.lt_le_incl, nth_error_Some. congruence.
Qed.

Lemma plan_split (l : list test) (c : nat) :
  plan 0 l = plan 0 (firstn c l) ++ plan (min c (length l)) (skipn c l).
Proof.
  rewrite <- (firstn_skipn c l) at 1. rewrite plan_app, length_firstn.
  reflexivity.
Qed.

Lemma between_entries_in_order (this : TestQueue) (st : RunState) :
  between_entries this st -> in_order this st.
Proof.
  unfold between_entries, in_order. intros H. rewrite H.
  eexists. symmetry. apply plan_split.
Qed.

Lemma in_flight_in_order (this : TestQueue) (st : RunState) (c : nat)
  (t : test) :
  nth_error (tests this) c = Some t ->
  schedule (log st) = plan 0 (firstn c (tests this)) ++ [Started c (name t)] ->
  in_order this st.
Proof.
  unfold in_order. intros Ht H. rewrite H.
  exists (Ended (S c) :: plan (S c) (skipn (S c) (tests this))).
  rewrite (plan_split (tests this) c), (skipn_nth_error _ _ _ Ht).
  rewrite Nat.min_l
    by (apply Nat.lt_le_incl, nth_error_Some; congruence).
  simpl. rewrite <- app_assoc. reflexivity.
Qed.

Lemma schedule_after_entry (this : TestQueue)
  (run_sub : TestQueue -> option RunResult) (st : RunState) :
  match after_entry this run_sub st with
  | Continue s => entry_ended this st s
  | Finalize s =>
      (s = st /\ _testQueueCursor st = length (tests this))
      \/ entry_ended this st s
  | Stall s =>
      (s = st /\ length (tests this) < _testQueueCursor st)
      \/ entry_started this st s
  | OutOfFuel => True
  end.
Proof.
  entry_cases this run_sub st;
    first
      [ exact I
      | left; split; [reflexivity|]; apply Nat.eqb_eq; exact Eend
      | left; split; [reflexivity|];
        apply Nat.eqb_neq in Eend; apply nth_error_None in Et; lia
      | right; exists t; split; [exact Et|];
        sched_simpl (@eq_refl nat 0); rewrite <- ?app_assoc; auto
      | exists t; split; [exact Et|];
        sched_simpl (@eq_refl nat 0); rewrite <- ?app_assoc; auto ].
Qed.

#[local] Arguments firstn : simpl never.
#[local] Arguments skipn : simpl never.

Lemma in_order_rule (fuel : nat) :
  (forall this r, run fuel this = Some r -> in_order this (state_of r))
  /\ (forall this st st',
         between_entries this st -> _testQueueNext fuel this st = Some st' ->
         in_order this st').
Proof.
  apply (run_rule between_entries in_order
                  (fun this r => in_order this (state_of r))).
  - intros this run_sub st _ Hst.
    pose proof (schedule_after_entry this run_sub st) as H.
    assert (Hended : forall s, entry_ended this st s -> between_entries this s).
    { intros s [t [Ht [Hc Hs]]]. unfold between_entries in *.
      rewrite Hc, Hs, Hst. symmetry. apply plan_firstn_S. exact Ht. }
    destruct (after_entry this run_sub st) as [s|s|s|]; auto.
    + destruct H as [[-> _]|[t [Ht Hs]]].
      * apply between_entries_in_order. exact Hst.
      * apply (in_flight_in_order this s _ t Ht). rewrite Hs, Hst. reflexivity.
    + unfold in_order. rewrite schedule__onFinish.
      apply between_entries_in_order.
      destruct H as [[-> _]|H]; auto.
  - intros this next Hnext r. unfold run_body.
    destruct (setupFn this) as [v|e].
    + destruct (promise_resolve v).
      * destruct (next _) as [st'|] eqn:Hn; simpl; [|discriminate].
        intros [= <-]. simpl. eapply Hnext; [|exact Hn].
        unfold between_entries. sched_simpl (@eq_refl nat 0). reflexivity.
      * intros [= <-]. simpl. eexists. reflexivity.
      * intros [= <-]. simpl. eexists. reflexivity.
    + intros [= <-]. simpl. eexists. reflexivity.
Qed.

(** C5, as amended.  The entries of a queue are started in the order in
    which they were added, one at a time: the schedule of every run is an
    initial part of [Started 0; Ended 1; Started 1; Ended 2; ...], so that
    an entry is started only after the callback of the entry before it has
    been called.  The cursor is advanced as soon as an entry has been
    started: it is already [S i] when the callback of entry [i] is called. *)
Theorem dispatch_in_order (this : TestQueue) (fuel : nat) :
  fuel_for this <= fuel ->
  exists r, run fuel this = Some r /\ in_order this (state_of r).
Proof.
  intros Hfuel. destruct (run_total this fuel Hfuel) as [r Hr].
  exists r. split; [exact Hr|].
  exact (proj1 (in_order_rule fuel) this r Hr).
Qed.

Lemma dispatch_in_order_witness :
  exists r, run 5 abc = Some r /\ in_order abc (state_of r).
Proof.
  apply (dispatch_in_order abc 5). vm_compute. lia.
Defined.

(** C5, as stated, fails: in the run of [hang] the cursor has moved to the
    second entry although the outcome of the first one is not known (and
    never will be). *)
Lemma cursor_ahead_of_outcome :
  exists st,
    run 3 hang = Some (Returned st)
    /\ schedule (log st) = [Started 0 (VString "a")]
    /\ _testQueueCursor st = 1
    /\ ~ cursor_follows_outcomes st.
Proof.
  eexists. split; [vm_compute; reflexivity|]. split; [reflexivity|].
  split; [reflexivity|]. unfold cursor_follows_outcomes. vm_compute. lia.
Qed.

(** ** Events of a nested queue *)

Lemma emitted_app (l1 l2 : list action) :
  emitted (l1 ++ l2) = emitted l1 ++ emitted l2.
Proof. apply flat_map_app. Qed.

Lemma forwarded_app (l1 l2 : list action) :
  forwarded (l1 ++ l2) = forwarded l1 ++ forwarded l2.
Proof. apply flat_map_app. Qed.

Lemma relayed_app (q : TestQueue) (l1 l2 : list (event * list value)) :
  relayed q (l1 ++ l2) = relayed q l1 ++ relayed q l2.
Proof. apply flat_map_app. Qed.

Lemma emitted_notify (q : TestQueue) (k : event) (args : list value) :
  emitted (notify q k args) = [].
Proof.
  unfold notify. induction (listeners q) as [|[k' l] ls IH]; simpl;
    [reflexivity|].
  rewrite emitted_app, IH, app_nil_r.
  destruct (event_eqb k' k); [|reflexivity]. destruct l; reflexivity.
Qed.

Lemma emitted_lift (this : TestQueue) (i : nat) (l : list action) :
  emitted (lift this i l) = forwarded l.
Proof.
  induction l as [|a l IH]; simpl; [reflexivity|].
  rewrite emitted_app, IH.
  destruct a; simpl; try reflexivity.
  rewrite emitted_notify. reflexivity.
Qed.

Lemma forwarded_lift (this : TestQueue) (i : nat) (l : list action) :
  forwarded (lift this i l) = relayed this (forwarded l).
Proof.
  induction l as [|a l IH]; simpl; [reflexivity|].
  rewrite forwarded_app, IH.
  destruct a; reflexivity.
Qed.

Lemma emitted_emits (q : TestQueue) (k : event) (l : list (list value)) :
  emitted (flat_map (fun args => Emit k args :: notify q k args) l)
  = map (fun args => (k, args)) l.
Proof.
  induction l as [|a l IH]; simpl; [reflexivity|].
  rewrite emitted_app, emitted_notify, IH. reflexivity.
Qed.

Lemma forwarded_emits (q : TestQueue) (k : event) (l : list (list value)) :
  forwarded (flat_map (fun args => Emit k args :: notify q k args) l)
  = relayed q (map (fun args => (k, args)) l).
Proof.
  induction l as [|a l IH]; simpl; [reflexivity|].
  rewrite forwarded_app, IH. reflexivity.
Qed.

Create Rewrite HintDb relays.
#[local] Hint Rewrite emitted_app forwarded_app relayed_app emitted_notify
  emitted_lift forwarded_lift emitted_emits forwarded_emits app_nil_r : relays.

Ltac relay_simpl H :=
  repeat (progress (simpl; autorewrite with fields relays; rewrite ?H)).

Lemma relays_follow_entry (this : TestQueue)
  (run_sub : TestQueue -> option RunResult) (st : RunState) :
  relays_follow this st ->
  match after_entry this run_sub st with
  | Continue s | Stall s | Finalize s => relays_follow this s
  | OutOfFuel => True
  end.
Proof.
  unfold relays_follow. intros Hst.
  entry_cases this run_sub st; relay_simpl Hst; auto.
Qed.

Lemma relays_follow__onFinish (this : TestQueue) (st : RunState) :
  relays_follow this st -> relays_follow this (_onFinish this st).
Proof.
  unfold relays_follow, _onFinish. intros Hst.
  destruct (teardownFn this) as [v|e].
  - destruct (promise_resolve v);
      unfold _testQueueFail, _testQueuePass, settle; simpl;
      try destruct (0 <? failed st); try destruct (ret st);
      relay_simpl Hst; reflexivity.
  - relay_simpl Hst; reflexivity.
Qed.

Lemma relays_follow_rule (fuel : nat) :
  (forall this r, run fuel this = Some r -> relays_follow this (state_of r))
  /\ (forall this st st',
         relays_follow this st -> _testQueueNext fuel this st = Some st' ->
         relays_follow this st').
Proof.
  apply (run_rule relays_follow relays_follow
                  (fun this r => relays_follow this (state_of r))).
  - intros this run_sub st _ Hst.
    pose proof (relays_follow_entry this run_sub st Hst) as H.
    destruct (after_entry this run_sub st); auto.
    apply relays_follow__onFinish. exact H.
  - intros this next Hnext r. unfold run_body.
    destruct (setupFn this) as [v|e].
    + destruct (promise_resolve v).
      * destruct (next _) as [st'|] eqn:Hn; simpl; [|discriminate].
        intros [= <-]. simpl. eapply Hnext; [|exact Hn].
        unfold relays_follow. relay_simpl (@eq_refl nat 0). reflexivity.
      * intros [= <-]. reflexivity.
      * intros [= <-]. reflexivity.
    + intros [= <-]. reflexivity.
Qed.

Lemma notify_on (k k' : event) (l : listener) (q : TestQueue)
  (args : list value) :
  notify (on k l q) k' args
  = notify q k' args
    ++ (if event_eqb k k' then [call_listener k' l args] else []).
Proof.
  unfold notify. simpl. rewrite flat_map_app. simpl.
  rewrite app_nil_r. reflexivity.
Qed.

Lemma forwarded_notify_subscribe (n : value) (q : TestQueue) (k : event)
  (args : list value) :
  forwarded (notify (subscribe n q) k args)
  = forwarded (notify q k args) ++ [relay n (k, args)].
Proof.
  unfold subscribe. rewrite !notify_on, !forwarded_app.
  destruct k; simpl; rewrite ?app_nil_r; reflexivity.
Qed.

Lemma relayed_subscribe_In (n : value) (q : TestQueue)
  (l : list (event * list value)) (e : event * list value) :
  In e l -> In (relay n e) (relayed (subscribe n q) l).
Proof.
  intros H. unfold relayed. apply in_flat_map. exists e. split; [exact H|].
  rewrite forwarded_notify_subscribe. apply in_or_app. right.
  destruct e. left. reflexivity.
Qed.

Lemma forwarded_notify_observers (q : TestQueue) (k : event)
  (args : list value) :
  only_observers q = true -> forwarded (notify q k args) = [].
Proof.
  unfold only_observers, notify.
  induction (listeners q) as [|[k' l] ls IH]; simpl; [reflexivity|].
  intros H. apply andb_prop in H as [Hl Hls].
  rewrite forwarded_app, IH by exact Hls.
  destruct (event_eqb k' k); [|reflexivity].
  destruct l; try discriminate. reflexivity.
Qed.

Lemma relayed_subscribe_observers (n : value) (q : TestQueue)
  (l : list (event * list value)) :
  only_observers q = true -> relayed (subscribe n q) l = map (relay n) l.
Proof.
  intros H. induction l as [|[k args] l IH]; simpl; [reflexivity|].
  rewrite forwarded_notify_subscribe, forwarded_notify_observers by exact H.
  simpl. f_equal. exact IH.
Qed.

(** ** The log only grows *)

Lemma log_after_entry (this : TestQueue)
  (run_sub : TestQueue -> option RunResult) (st : RunState) :
  match after_entry this run_sub st with
  | Continue s | Stall s | Finalize s => exists d, log s = log st ++ d
  | OutOfFuel => True
  end.
Proof.
  entry_cases this run_sub st;
    repeat (progress (simpl; autorewrite with fields));
    rewrite <- ?app_assoc; try (eexists; reflexivity); auto;
    exists []; now rewrite app_nil_r.
Qed.

Lemma log__onFinish (this : TestQueue) (st : RunState) :
  exists d, log (_onFinish this st) = log st ++ d.
Proof.
  unfold _onFinish.
  destruct (teardownFn this) as [v|e].
  - destruct (promise_resolve v);
      unfold _testQueueFail, _testQueuePass, settle; simpl;
      try destruct (0 <? failed st); try destruct (ret st); simpl;
      rewrite <- ?app_assoc; eexists; reflexivity.
  - simpl. rewrite <- ?app_assoc. eexists; reflexivity.
Qed.

Lemma log_grows (fuel : nat) (this : TestQueue) (st st' : RunState) :
  _testQueueNext fuel this st = Some st' -> exists d, log st' = log st ++ d.
Proof.
  intros H.
  refine (proj2 (run_rule (fun _ s => exists d, log s = log st ++ d)
                          (fun _ s => exists d, log s = log st ++ d)
                          (fun _ _ => True) _ _ fuel) this st st' _ H).
  - intros q run_sub s _ [d Hd].
    pose proof (log_after_entry q run_sub s) as Hs.
    destruct (after_entry q run_sub s) as [s'|s'|s'|]; auto.
    + destruct Hs as [d' Hs]. exists (d ++ d').
      rewrite Hs, Hd. now rewrite app_assoc.
    + destruct Hs as [d' Hs]. exists (d ++ d').
      rewrite Hs, Hd. now rewrite app_assoc.
    + destruct Hs as [d' Hs]. destruct (log__onFinish q s') as [d'' Hf].
      exists (d ++ d' ++ d''). rewrite Hf, Hs, Hd.
      now rewrite !app_assoc.
  - auto.
  - exists []. now rewrite app_nil_r.
Qed.

(** ** C7 *)

(** The state of the parent once the run of the nested queue under the
    cursor is over and before the parent reacts to its outcome. *)
Lemma after_sub_run (this : TestQueue) (st st' : RunState) (fuel : nat)
  (t : test) (q : TestQueue) (r : RunResult) :
  nth_error (tests this) (_testQueueCursor st) = Some t ->
  fn t = Sub q ->
  run fuel (subscribe (name t) q) = Some r ->
  _testQueueNext (S fuel) this st = Some st' ->
  exists rest,
    log st'
    = log st
      ++ Dispatch (_testQueueCursor st) (name t)
         :: lift this (_testQueueCursor st) (log (state_of r)) ++ rest.
Proof.
  intros Ht Hfn Hr Hn.
  pose proof (not_at_end _ _ _ Ht) as Hend.
  rewrite _testQueueNext_S, body_resume in Hn.
  pose proof (log_after_entry this (run fuel) st) as Hlog.
  assert (Hs : forall s d,
             log s = log st ++ Dispatch (_testQueueCursor st) (name t)
                     :: lift this (_testQueueCursor st) (log (state_of r))
                        ++ d ->
             forall s', (exists d', log s' = log s ++ d') ->
             exists rest,
               log s' = log st ++ Dispatch (_testQueueCursor st) (name t)
                        :: lift this (_testQueueCursor st)
                             (log (state_of r)) ++ rest).
  { intros s d Hd s' [d' Hd']. exists (d ++ d'). rewrite Hd', Hd.
    rewrite <- app_assoc. simpl. now rewrite <- app_assoc. }
  unfold after_entry in Hn. rewrite Hend, Ht, Hfn, Hr in Hn.
  destruct r as [sub|e sub]; simpl in *.
  - destruct (ret sub); simpl in Hn.
    + injection Hn as <-. exists []. simpl.
      rewrite <- app_assoc, app_nil_r. reflexivity.
    + apply log_grows in Hn. eapply Hs; [|exact Hn]. simpl.
      repeat (rewrite <- app_assoc; simpl). reflexivity.
    + destruct (stopOnFail this).
      * injection Hn as <-. eapply Hs; [|apply log__onFinish]. simpl.
        repeat (rewrite <- app_assoc; simpl). reflexivity.
      * apply log_grows in Hn. eapply Hs; [|exact Hn]. simpl.
        repeat (rewrite <- app_assoc; simpl). reflexivity.
  - injection Hn as <-. exists []. simpl.
    rewrite <- app_assoc, app_nil_r. reflexivity.
Qed.

(** C7.  While the nested queue under the cursor runs, every event emitted
    on it is emitted again on the parent: ['pass'], ['fail'] and ['info']
    with the same arguments, ['start'] with the name of the entry in front
    of its arguments (so the nested queue's own ['start'], which has no
    argument, becomes ['start'] with the name of the entry), and
    ['finish'] with the results it carries followed by the name of the
    entry.  When no other parent has attached listeners to the nested
    queue, the parent emits exactly these events, in the same order. *)
Theorem nested_events_bubble (this : TestQueue) (st : RunState) (fuel : nat)
  (t : test) (q : TestQueue) :
  nth_error (tests this) (_testQueueCursor st) = Some t ->
  fn t = Sub q ->
  need this (_testQueueCursor st) <= S fuel ->
  exists r st' rest,
    run fuel (subscribe (name t) q) = Some r
    /\ _testQueueNext (S fuel) this st = Some st'
    /\ log st'
       = log st
         ++ Dispatch (_testQueueCursor st) (name t)
            :: lift this (_testQueueCursor st) (log (state_of r)) ++ rest
    /\ let sub := emitted (log (state_of r)) in
       let here :=
         emitted (lift this (_testQueueCursor st) (log (state_of r))) in
       (forall k args,
           k = EvPass \/ k = EvFail \/ k = EvInfo ->
           In (k, args) sub -> In (k, args) here)
       /\ (forall args,
              In (EvStart, args) sub -> In (EvStart, name t :: args) here)
       /\ (forall args,
              In (EvFinish, args) sub ->
              In (EvFinish, [nth 0 args VUndefined; name t]) here)
       /\ (only_observers q = true -> here = map (relay (name t)) sub).
Proof.
  intros Ht Hfn Hneed.
  destruct (proj2 (enough_fuel (S fuel)) this st Hneed) as [st' Hst'].
  destruct (proj1 (enough_fuel fuel) (subscribe (name t) q)) as [r Hr].
  { rewrite fuel_for_subscribe. rewrite (need_step _ _ _ Ht) in Hneed.
    unfold sub_fuel in Hneed. rewrite Hfn in Hneed. lia. }
  destruct (after_sub_run this st st' fuel t q r Ht Hfn Hr Hst')
    as [rest Hrest].
  exists r, st', rest. repeat (split; [assumption|]).
  pose proof (proj1 (relays_follow_rule fuel) _ _ Hr) as Hfollow.
  unfold relays_follow in Hfollow. simpl. rewrite emitted_lift, Hfollow.
  repeat split.
  - intros k args Hk Hin.
    apply (relayed_subscribe_In (name t) q) in Hin.
    destruct Hk as [-> | [-> | ->]]; exact Hin.
  - intros args Hin. apply (relayed_subscribe_In (name t) q) in Hin.
    exact Hin.
  - intros args Hin. apply (relayed_subscribe_In (name t) q) in Hin.
    exact Hin.
  - apply relayed_subscribe_observers.
Qed.

Lemma nested_events_bubble_witness :
  exists r st' rest,
    run 7 (subscribe (VString "nested") inner21) = Some r
    /\ _testQueueNext 8 outer (started outer) = Some st'
    /\ log st'
       = log (started outer)
         ++ Dispatch 0 (VString "nested")
            :: lift outer 0 (log (state_of r)) ++ rest
    /\ let sub := emitted (log (state_of r)) in
       let here := emitted (lift outer 0 (log (state_of r))) in
       (forall k args,
           k = EvPass \/ k = EvFail \/ k = EvInfo ->
           In (k, args) sub -> In (k, args) here)
       /\ (forall args,
              In (EvStart, args) sub ->
              In (EvStart, VString "nested" :: args) here)
       /\ (forall args,
              In (EvFinish, args) sub ->
              In (EvFinish, [nth 0 args VUndefined; VString "nested"]) here)
       /\ (only_observers inner21 = true ->
           here = map (relay (VString "nested")) sub).
Proof.
  apply (nested_events_bubble outer (started outer) 7
           (mkTest (VString "nested") (Sub inner21)) inner21).
  - reflexivity.
  - reflexivity.
  - vm_compute. lia.
Defined.

(** The events of [inner21] as they are emitted on [outer]. *)
Example outer_events :
  option_map (fun r => emitted (log (state_of r))) (run 9 outer)
  = Some [(EvStart, []);
          (EvStart, [VString "nested"]);
          (EvPass, [VString "x"; VUndefined]);
          (EvFail, [VString "y"; VString "no"]);
          (EvPass, [VString "z"; VUndefined]);
          (EvFinish, [VResults (mkResults 2 1); VString "nested"]);
          (EvPass, [VString "after"; VUndefined]);
          (EvFinish, [VResults (mkResults 3 1)])].
Proof. reflexivity. Qed.

(** Two levels up, ['start'] carries the names of both entries, and
    ['finish'] the name of the entry of the queue that emits it again. *)
Example top_events :
  option_map (fun r => emitted (log (state_of r))) (run 10 top)
  = Some [(EvStart, []);
          (EvStart, [VString "middle"]);
          (EvStart, [VString "middle"; VString "inner"]);
          (EvPass, [VString "x"; VUndefined]);
          (EvPass, [VString "y"; VUndefined]);
          (EvFinish, [VResults (mkResults 2 0); VString "middle"]);
          (EvFinish, [VResults (mkResults 2 0); VString "middle"]);
          (EvFinish, [VResults (mkResults 2 0)])].
Proof. vm_compute. reflexivity. Qed.

(** ** C2 *)

Lemma settled_results (this : TestQueue) (st : RunState) (res : Results) :
  finalized this st ->
  (ret st = Resolved res ->
   res = mkResults (passed st) (failed st) /\ failed st = 0)
  /\ (ret st = Rejected res ->
      res = mkResults (passed st) (failed st) /\ 0 < failed st).
Proof.
  unfold finalized, verdict.
  intros [[_ Hret]|[[_ [Hret _]]|[_ [Hret _]]]]; rewrite Hret;
    try (split; discriminate).
  destruct (0 <? failed st) eqn:E; split; try discriminate;
    intros [= <-]; split; try reflexivity.
  - apply Nat.ltb_lt. exact E.
  - apply Nat.ltb_ge in E. lia.
Qed.

(** C2.  Folding the results of a nested queue into the parent.  When the
    run of the nested queue under the cursor resolves, the parent adds the
    child's [passed] to its own and nothing to [failed] (the child's
    [failed] is zero), and goes on with the next entry.  When it rejects,
    the parent adds the child's [passed] and [failed] to its own counters,
    without a failure of its own for the rejection and without emitting
    ['fail'] itself, and then calls [_onFinish] if [stopOnFail] is set and
    goes on with the next entry otherwise. *)
Theorem nested_results_folded (this : TestQueue) (st : RunState) (fuel : nat)
  (t : test) (q : TestQueue) (sub : RunState) :
  nth_error (tests this) (_testQueueCursor st) = Some t ->
  fn t = Sub q ->
  run fuel (subscribe (name t) q) = Some (Returned sub) ->
  let i := _testQueueCursor st in
  let dispatched := log st ++ Dispatch i (name t) :: lift this i (log sub) in
  (forall res, ret sub = Resolved res ->
     res = mkResults (passed sub) 0
     /\ exists s,
         _testQueueNext (S fuel) this st = _testQueueNext fuel this s
         /\ passed s = passed st + passed sub
         /\ failed s = failed st
         /\ _testQueueCursor s = S i
         /\ log s = dispatched ++ [Outcome true (S i)])
  /\ (forall res, ret sub = Rejected res ->
        res = mkResults (passed sub) (failed sub)
        /\ exists s,
            _testQueueNext (S fuel) this st
            = (if stopOnFail this
               then Some (_onFinish this s)
               else _testQueueNext fuel this s)
            /\ passed s = passed st + passed sub
            /\ failed s = failed st + failed sub
            /\ _testQueueCursor s = S i
            /\ log s = dispatched
                       ++ [Outcome false (S i);
                           ConsoleLog [name t; VResults res]]).
Proof.
  intros Ht Hfn Hr i dispatched.
  pose proof (not_at_end _ _ _ Ht) as Hend.
  pose proof (proj1 (finalized_rule fuel) _ _ Hr) as Hfin. simpl in Hfin.
  rewrite _testQueueNext_S, body_resume. unfold after_entry.
  rewrite Hend, Ht, Hfn, Hr. subst i dispatched.
  split; intros res Hret; rewrite Hret;
    destruct (settled_results _ _ res Hfin) as [Hres Hrej].
  - destruct (Hres Hret) as [-> H0]. rewrite H0. split; [reflexivity|].
    eexists. split; [reflexivity|]. simpl.
    repeat split. rewrite <- !app_assoc. reflexivity.
  - destruct (Hrej Hret) as [-> _]. split; [reflexivity|].
    eexists. split; [destruct (stopOnFail this); reflexivity|]. simpl.
    repeat split. rewrite <- !app_assoc. reflexivity.
Qed.

Lemma nested_results_folded_witness :
  mkResults 2 1 = mkResults (passed inner21_run) (failed inner21_run)
  /\ exists s,
      _testQueueNext 8 outer (started outer)
      = (if stopOnFail outer
         then Some (_onFinish outer s)
         else _testQueueNext 7 outer s)
      /\ passed s = passed (started outer) + passed inner21_run
      /\ failed s = failed (started outer) + failed inner21_run
      /\ _testQueueCursor s = 1
      /\ log s
         = (log (started outer)
            ++ Dispatch 0 (VString "nested") :: lift outer 0 (log inner21_run))
           ++ [Outcome false 1;
               ConsoleLog [VString "nested"; VResults (mkResults 2 1)]].
Proof.
  destruct (nested_results_folded outer (started outer) 7
              (mkTest (VString "nested") (Sub inner21)) inner21 inner21_run)
    as [_ Hrejected]; try reflexivity.
  apply (Hrejected (mkResults 2 1)). reflexivity.
Defined.

(** The scenario of the specification: a nested queue with two passes and
    one failure adds 2 and 1 to the counters of its parent, which has one
    more passing test of its own. *)
Example outer_results :
  option_map (fun r => ret (state_of r)) (run 9 outer)
  = Some (Rejected (mkResults 3 1)).
Proof. reflexivity. Qed.

(** ** C4 *)

Lemma failed_after_entry (this : TestQueue)
  (run_sub : TestQueue -> option RunResult) (st : RunState) :
  match after_entry this run_sub st with
  | Continue s | Stall s | Finalize s => failed st <= failed s
  | OutOfFuel => True
  end.
Proof.
  entry_cases this run_sub st;
    repeat (progress (simpl; autorewrite with fields)); auto; lia.
Qed.

Lemma failed_grows (fuel : nat) (this : TestQueue) (st st' : RunState) :
  _testQueueNext fuel this st = Some st' -> failed st <= failed st'.
Proof.
  intros H.
  refine (proj2 (run_rule (fun _ s => failed st <= failed s)
                          (fun _ s => failed st <= failed s)
                          (fun _ _ => True) _ _ fuel) this st st' _ H).
  - intros q run_sub s _ Hs.
    pose proof (failed_after_entry q run_sub s) as Hle.
    destruct (after_entry q run_sub s) as [s'|s'|s'|]; auto; try lia.
    destruct (counters__onFinish q s') as [_ [Hf _]]. lia.
  - auto.
  - lia.
Qed.

(** C4, as amended.  A leaf test that throws before it has called [pass]
    or [fail] is a failed test: the ['fail'] event is emitted with the name
    of the test and the value thrown, [failed] is incremented by one, and
    the failure is counted in the results of the run: [failed] does not
    decrease afterwards, and the promise of the run, if it is settled, is
    rejected with the final counters. *)
Theorem thrown_error_is_failure (this : TestQueue) (st : RunState)
  (fuel : nat) (t : test) (f : leaf) (e : value) :
  nth_error (tests this) (_testQueueCursor st) = Some t ->
  fn t = Fn f ->
  leaf_end f = ThrowsError e ->
  unfinished st ->
  exists s,
    _testQueueNext (S fuel) this st
    = (if stopOnFail this
       then Some (_onFinish this s)
       else _testQueueNext fuel this s)
    /\ failed s = failed st + 1
    /\ passed s = passed st
    /\ (exists d,
          log s
          = log st
            ++ Dispatch (_testQueueCursor st) (name t) :: d
            ++ Emit EvFail [name t; e] :: notify this EvFail [name t; e])
    /\ forall st',
         _testQueueNext (S fuel) this st = Some st' ->
         In (Emit EvFail [name t; e]) (log st')
         /\ failed st + 1 <= failed st'
         /\ (ret st' = Pending
             \/ ret st' = Rejected (mkResults (passed st') (failed st'))).
Proof.
  intros Ht Hfn He Hst.
  pose proof (not_at_end _ _ _ Ht) as Hend.
  assert (Hp : new_Promise f = Rejects e)
    by (unfold new_Promise; rewrite He; reflexivity).
  pose proof (unfinished_entry this (run fuel) st Hst) as Hunf.
  rewrite _testQueueNext_S, body_resume.
  unfold after_entry in *. rewrite Hend, Ht, Hfn, Hp in *.
  match goal with
  | |- context [if stopOnFail this then Finalize ?x else _] => set (s := x) in *
  end.
  assert (Hs : unfinished s) by (destruct (stopOnFail this); exact Hunf).
  assert (Hlog : exists d,
             log s
             = log st
               ++ Dispatch (_testQueueCursor st) (name t) :: d
               ++ Emit EvFail [name t; e] :: notify this EvFail [name t; e]).
  { subst s. repeat (progress (simpl; autorewrite with fields)).
    exists (flat_map (fun args => Emit EvInfo args :: notify this EvInfo args)
                     (leaf_info f)
            ++ [Outcome false (S (_testQueueCursor st))]).
    repeat (rewrite <- app_assoc; simpl). reflexivity. }
  exists s. split; [destruct (stopOnFail this); reflexivity|].
  split; [subst s; simpl; autorewrite with fields; reflexivity|].
  split; [subst s; simpl; autorewrite with fields; reflexivity|].
  split; [exact Hlog|].
  assert (Hfailed : failed s = failed st + 1)
    by (subst s; simpl; autorewrite with fields; reflexivity).
  intros st' Hst'.
  assert (Hfin : finalized this st' /\ failed s <= failed st'
                 /\ exists d, log st' = log s ++ d).
  { destruct (stopOnFail this); simpl in Hst'.
    - injection Hst' as <-. split; [apply _onFinish_finalized; exact Hs|].
      destruct (counters__onFinish this s) as [_ [Hf _]].
      split; [lia|apply log__onFinish].
    - split; [exact (proj2 (finalized_rule fuel) _ _ _ Hs Hst')|].
      split; [eapply failed_grows; exact Hst'|].
      eapply log_grows; exact Hst'. }
  destruct Hfin as [Hfin [Hle [d' Hd']]]. destruct Hlog as [d Hd].
  split.
  { rewrite Hd', Hd. apply in_or_app. left. apply in_or_app. right.
    right. apply in_or_app. right. left. reflexivity. }
  split; [lia|].
  unfold finalized, verdict in Hfin.
  destruct Hfin as [[_ Hret]|[[_ [Hret _]]|[_ [Hret _]]]]; auto.
  right. rewrite Hret.
  destruct (0 <? failed st') eqn:E; [reflexivity|].
  apply Nat.ltb_ge in E. lia.
Qed.

Lemma thrown_error_is_failure_witness :
  exists s,
    _testQueueNext 2 throwing (started throwing)
    = (if stopOnFail throwing
       then Some (_onFinish throwing s)
       else _testQueueNext 1 throwing s)
    /\ failed s = failed (started throwing) + 1
    /\ passed s = passed (started throwing)
    /\ (exists d,
          log s
          = log (started throwing)
            ++ Dispatch (_testQueueCursor (started throwing)) (VString "t")
               :: d
            ++ Emit EvFail [VString "t"; VError "boom"]
               :: notify throwing EvFail [VString "t"; VError "boom"])
    /\ forall st',
         _testQueueNext 2 throwing (started throwing) = Some st' ->
         In (Emit EvFail [VString "t"; VError "boom"]) (log st')
         /\ failed (started throwing) + 1 <= failed st'
         /\ (ret st' = Pending
             \/ ret st' = Rejected (mkResults (passed st') (failed st'))).
Proof.
  apply (thrown_error_is_failure throwing (started throwing) 1
           (mkTest (VString "t") (Fn (mkLeaf [] (ThrowsError (VError "boom")))))
           (mkLeaf [] (ThrowsError (VError "boom"))) (VError "boom"));
    try reflexivity.
  split; reflexivity.
Defined.

Example throwing_run :
  option_map (fun r => (emitted (log (state_of r)), ret (state_of r)))
             (run 3 throwing)
  = Some ([(EvStart, []);
           (EvFail, [VString "t"; VError "boom"]);
           (EvFinish, [VResults (mkResults 0 1)])],
          Rejected (mkResults 0 1)).
Proof. reflexivity. Qed.

(** What a test returns is discarded: when it returns without having
    called [pass] or [fail], and never calls them, no callback is left
    pending and the run ends where it is. *)
Lemma returned_value_is_discarded (this : TestQueue) (st : RunState)
  (fuel : nat) (t : test) (f : leaf) (v : value) :
  nth_error (tests this) (_testQueueCursor st) = Some t ->
  fn t = Fn f ->
  leaf_end f = ReturnsValue v ->
  exists s,
    _testQueueNext (S fuel) this st = Some s
    /\ passed s = passed st
    /\ failed s = failed st
    /\ ret s = ret st
    /\ _testQueueCursor s = S (_testQueueCursor st)
    /\ log s
       = log st
         ++ Dispatch (_testQueueCursor st) (name t)
            :: flat_map
                 (fun args => Emit EvInfo args :: notify this EvInfo args)
                 (leaf_info f).
Proof.
  intros Ht Hfn Hv.
  assert (Hp : new_Promise f = NeverSettles)
    by (unfold new_Promise; rewrite Hv; reflexivity).
  rewrite _testQueueNext_S, body_resume. unfold after_entry.
  rewrite (not_at_end _ _ _ Ht), Ht, Hfn, Hp.
  eexists. split; [reflexivity|].
  repeat (progress (simpl; autorewrite with fields)).
  rewrite <- app_assoc. auto.
Qed.

(** C4, as stated, fails for a test that returns a rejected promise
    without calling [pass] or [fail]: the promise built around the test
    ignores what the test returns, so that no ['fail'] event is emitted,
    [failed] stays at zero and nothing more happens in the run. *)
Lemma returned_rejection_is_ignored :
  exists st,
    run 3 returning_rejection = Some (Returned st)
    /\ log st = [CallSetup; Emit EvStart []; Dispatch 0 (VString "t")]
    /\ (forall args, ~ In (Emit EvFail args) (log st))
    /\ failed st = 0
    /\ ret st = Pending.
Proof.
  eexists. split; [vm_compute; reflexivity|]. split; [reflexivity|].
  split; [|split; reflexivity].
  intros args [H|[H|[H|[]]]]; discriminate H.
Qed.

(** ** Queues of leaf tests *)

Lemma dispatched_app (l1 l2 : list action) :
  dispatched (l1 ++ l2) = dispatched l1 ++ dispatched l2.
Proof. apply flat_map_app. Qed.

Lemma dispatched_notify (this : TestQueue) (k : event) (args : list value) :
  dispatched (notify this k args) = [].
Proof. apply proj_notify; reflexivity. Qed.

Lemma dispatched_info (this : TestQueue) (l : list (list value)) :
  dispatched
    (flat_map (fun args => Emit EvInfo args :: notify this EvInfo args) l)
  = [].
Proof.
  unfold dispatched. rewrite proj_emits by reflexivity.
  induction l; simpl; auto.
Qed.

Create Rewrite HintDb disp.
#[local] Hint Rewrite dispatched_app dispatched_notify dispatched_info
  app_nil_r : disp.

Lemma dispatched__onFinish (this : TestQueue) (st : RunState) :
  dispatched (log (_onFinish this st)) = dispatched (log st).
Proof.
  unfold _onFinish.
  destruct (teardownFn this) as [v|e].
  - destruct (promise_resolve v);
      unfold _testQueueFail, _testQueuePass, settle; simpl;
      try destruct (0 <? failed st); try destruct (ret st);
      repeat (progress (simpl; autorewrite with fields disp)); reflexivity.
  - repeat (progress (simpl; autorewrite with fields disp)); reflexivity.
Qed.

Lemma In_dispatched (l : list action) (i : nat) (n : value) :
  In (Dispatch i n) l -> In i (dispatched l).
Proof.
  intros H. unfold dispatched. apply in_flat_map.
  exists (Dispatch i n). split; [exact H|left; reflexivity].
Qed.

(** What a passing leaf test under the cursor does to the state. *)
Lemma after_passing_leaf (this : TestQueue)
  (run_sub : TestQueue -> option RunResult) (st : RunState) (t : test) :
  nth_error (tests this) (_testQueueCursor st) = Some t ->
  leaf_passes t = true ->
  exists s,
    after_entry this run_sub st = Continue s
    /\ _testQueueCursor s = S (_testQueueCursor st)
    /\ passed s = passed st + 1
    /\ failed s = failed st
    /\ dispatched (log s) = dispatched (log st) ++ [_testQueueCursor st].
Proof.
  intros Ht Hp. unfold after_entry. rewrite (not_at_end _ _ _ Ht), Ht.
  unfold leaf_passes in Hp.
  destruct (fn t) as [f|q]; [|discriminate].
  destruct (new_Promise f); try discriminate.
  eexists. split; [reflexivity|].
  repeat (progress (simpl; autorewrite with fields disp)). auto.
Qed.

(** What a failing leaf test under the cursor does to the state. *)
Lemma after_failing_leaf (this : TestQueue)
  (run_sub : TestQueue -> option RunResult) (st : RunState) (t : test) :
  nth_error (tests this) (_testQueueCursor st) = Some t ->
  leaf_fails t = true ->
  exists s,
    after_entry this run_sub st
    = (if stopOnFail this then Finalize s else Continue s)
    /\ _testQueueCursor s = S (_testQueueCursor st)
    /\ passed s = passed st
    /\ failed s = failed st + 1
    /\ dispatched (log s) = dispatched (log st) ++ [_testQueueCursor st].
Proof.
  intros Ht Hp. unfold after_entry. rewrite (not_at_end _ _ _ Ht), Ht.
  unfold leaf_fails in Hp.
  destruct (fn t) as [f|q]; [|discriminate].
  destruct (new_Promise f); try discriminate.
  eexists. split; [destruct (stopOnFail this); reflexivity|].
  repeat (progress (simpl; autorewrite with fields disp)). auto.
Qed.

Lemma after_last_entry (this : TestQueue)
  (run_sub : TestQueue -> option RunResult) (st : RunState) :
  _testQueueCursor st = length (tests this) ->
  after_entry this run_sub st = Finalize st.
Proof.
  intros H. unfold after_entry. rewrite H, Nat.eqb_refl. reflexivity.
Qed.

Lemma seq_S_end (n : nat) : seq 0 (S n) = seq 0 n ++ [n].
Proof. rewrite seq_S. reflexivity. Qed.

(** Membership in a list that is given element by element. *)
Ltac in_list := repeat (first [left; reflexivity | right]).

Lemma entry_under_cursor (this : TestQueue) (st : RunState) :
  _testQueueCursor st < length (tests this) ->
  exists t,
    nth_error (tests this) (_testQueueCursor st) = Some t
    /\ In t (tests this).
Proof.
  intros H.
  destruct (nth_error (tests this) (_testQueueCursor st)) as [t|] eqn:Ht.
  - exists t. split; [reflexivity|]. eapply nth_error_In. exact Ht.
  - apply nth_error_None in Ht. lia.
Qed.

(** ** C8 *)

Section EveryTestPasses.

Variable this : TestQueue.
Hypothesis all_pass : forallb leaf_passes (tests this) = true.
Hypothesis teardown_completes : completes (teardownFn this) = true.

Let N := length (tests this).

Let I (q : TestQueue) (st : RunState) : Prop :=
  q = this /\ unfinished st /\ _testQueueCursor st <= N
  /\ passed st = _testQueueCursor st /\ failed st = 0.

Let T (q : TestQueue) (st : RunState) : Prop :=
  passed st = N /\ failed st = 0 /\ ret st = Resolved (mkResults N 0).

Lemma passing_queue_counts (fuel : nat) (st st' : RunState) :
  unfinished st -> _testQueueCursor st <= N ->
  passed st = _testQueueCursor st -> failed st = 0 ->
  _testQueueNext fuel this st = Some st' ->
  passed st' = N /\ failed st' = 0 /\ ret st' = Resolved (mkResults N 0).
Proof.
  intros Hunf Hle Hp Hf Hn.
  refine (proj2 (run_rule I T (fun _ _ => True) _ _ fuel) this st st' _ Hn);
    [| auto | unfold I; auto 10 ].
  clear - all_pass teardown_completes. intros q run_sub st _ [-> [Hunf [Hle [Hp Hf]]]].
  pose proof (unfinished_entry this run_sub st Hunf) as Hunf'.
  destruct (Nat.eq_dec (_testQueueCursor st) N) as [Hend|Hend].
  - rewrite after_last_entry by exact Hend.
    destruct (counters__onFinish this st) as [Hp' [Hf' _]].
    destruct (_onFinish_steps this st Hunf) as [_ Hret].
    rewrite teardown_completes in Hret. unfold verdict in Hret.
    rewrite Hf in Hret. simpl in Hret.
    unfold T. rewrite Hp', Hf', Hret, Hp, Hend, Hf. auto.
  - destruct (entry_under_cursor this st) as [t [Ht Hin]]; [subst N; lia|].
    assert (Hpass : leaf_passes t = true)
      by (eapply forallb_forall in all_pass; eauto).
    destruct (after_passing_leaf this run_sub st t Ht Hpass)
      as [s [Hs [Hc [Hp' [Hf' _]]]]].
    rewrite Hs in *. unfold I. split; [reflexivity|].
    split; [exact Hunf'|]. subst N. repeat split; lia.
Qed.

End EveryTestPasses.

Lemma need_0 (this : TestQueue) : S (need this 0) = fuel_for this.
Proof. rewrite fuel_for_eq. unfold need. rewrite skipn_O. lia. Qed.

(** A run whose setup completes goes on with [_testQueueNext]. *)
Lemma run_continues (this : TestQueue) (fuel : nat) :
  completes (setupFn this) = true ->
  fuel_for this <= fuel ->
  exists fuel' st',
    fuel = S fuel'
    /\ _testQueueNext fuel' this (started this) = Some st'
    /\ run fuel this = Some (Returned st').
Proof.
  intros Hsetup Hfuel. destruct fuel as [|fuel'].
  - rewrite fuel_for_eq in Hfuel. lia.
  - destruct (proj2 (enough_fuel fuel') this (started this)) as [st' Hst'].
    { simpl. pose proof (need_0 this). lia. }
    exists fuel', st'. split; [reflexivity|]. split; [exact Hst'|].
    rewrite run_started by exact Hsetup. rewrite Hst'. reflexivity.
Qed.

Lemma empty_queue_log (this : TestQueue) (fuel : nat) (st' : RunState) :
  tests this = [] ->
  completes (teardownFn this) = true ->
  _testQueueNext fuel this (started this) = Some st' ->
  log st'
  = CallSetup
    :: (Emit EvStart [] :: notify this EvStart [])
    ++ (Emit EvFinish [VResults (mkResults 0 0)]
        :: notify this EvFinish [VResults (mkResults 0 0)])
    ++ [CallTeardown; Settle (Resolved (mkResults 0 0))].
Proof.
  intros Hempty Hteardown Hn. destruct fuel as [|fuel]; [discriminate|].
  rewrite _testQueueNext_S, body_resume, after_last_entry in Hn
    by (rewrite Hempty; reflexivity).
  injection Hn as <-. unfold _onFinish, completes in *.
  destruct (teardownFn this) as [v|e]; [|discriminate].
  destruct (promise_resolve v); try discriminate.
  simpl. rewrite <- !app_assoc. reflexivity.
Qed.

(** C8, as amended.  When every entry of the queue is a leaf test that
    passes, and the setup and teardown functions complete, the run resolves
    with [passed] equal to the number of entries and [failed] equal to
    zero.  For the empty queue the log is: setup, ['start'], ['finish']
    with zero counts, teardown, and the promise resolved with zero counts;
    ['start'] and ['finish'] are emitted once each. *)
Theorem every_test_passes (this : TestQueue) (fuel : nat) :
  forallb leaf_passes (tests this) = true ->
  completes (setupFn this) = true ->
  completes (teardownFn this) = true ->
  fuel_for this <= fuel ->
  exists st,
    run fuel this = Some (Returned st)
    /\ passed st = length (tests this)
    /\ failed st = 0
    /\ ret st = Resolved (mkResults (length (tests this)) 0)
    /\ (tests this = [] ->
        log st
        = CallSetup
          :: (Emit EvStart [] :: notify this EvStart [])
          ++ (Emit EvFinish [VResults (mkResults 0 0)]
              :: notify this EvFinish [VResults (mkResults 0 0)])
          ++ [CallTeardown; Settle (Resolved (mkResults 0 0))]
        /\ emitted (log st)
           = [(EvStart, []); (EvFinish, [VResults (mkResults 0 0)])]).
Proof.
  intros Hpass Hsetup Hteardown Hfuel.
  destruct (run_continues this fuel Hsetup Hfuel) as [fuel' [st [_ [Hn Hr]]]].
  exists st. split; [exact Hr|].
  destruct (passing_queue_counts this Hpass Hteardown fuel'
              (started this) st (started_unfinished this)
              (Nat.le_0_l _) eq_refl eq_refl Hn)
    as [Hp [Hf Hret]].
  repeat (split; [assumption|]).
  intros Hempty.
  pose proof (empty_queue_log this fuel' st Hempty Hteardown Hn) as Hlog.
  split; [exact Hlog|]. rewrite Hlog. relay_simpl (@eq_refl nat 0).
  reflexivity.
Qed.

Lemma every_test_passes_witness :
  exists st,
    run 4 two_passes = Some (Returned st)
    /\ passed st = length (tests two_passes)
    /\ failed st = 0
    /\ ret st = Resolved (mkResults (length (tests two_passes)) 0)
    /\ (tests two_passes = [] ->
        log st
        = CallSetup
          :: (Emit EvStart [] :: notify two_passes EvStart [])
          ++ (Emit EvFinish [VResults (mkResults 0 0)]
              :: notify two_passes EvFinish [VResults (mkResults 0 0)])
          ++ [CallTeardown; Settle (Resolved (mkResults 0 0))]
        /\ emitted (log st)
           = [(EvStart, []); (EvFinish, [VResults (mkResults 0 0)])]).
Proof.
  apply (every_test_passes two_passes 4); reflexivity.
Defined.

(** The empty queue. *)
Example empty_queue_run :
  run 2 (new_TestQueue None)
  = Some (Returned
            {| _testQueueCursor := 0; passed := 0; failed := 0;
               ret := Resolved (mkResults 0 0);
               log := [CallSetup; Emit EvStart [];
                       Emit EvFinish [VResults (mkResults 0 0)];
                       CallTeardown; Settle (Resolved (mkResults 0 0))] |}).
Proof. reflexivity. Qed.

(** C8, as stated, fails in two ways.  An entry that is a nested queue
    does not count for one: [nested_empty] has one entry, which passes,
    and its run resolves with [passed] equal to zero.  And when the setup
    function does not complete, nothing is emitted and the promise is
    never settled, even for the empty queue; likewise, when the teardown
    function does not complete, the promise is never settled although
    every test has passed. *)
Lemma passed_is_not_the_number_of_entries :
  (exists st,
      run 5 nested_empty = Some (Returned st)
      /\ length (tests nested_empty) = 1
      /\ schedule (log st) = [Started 0 (VString "a"); Ended 1]
      /\ In (Outcome true 1) (log st)
      /\ ret st = Resolved (mkResults 0 0))
  /\ (exists st,
         run 2 empty_broken_setup = Some (Returned st)
         /\ tests empty_broken_setup = []
         /\ emitted (log st) = []
         /\ ret st = Pending)
  /\ (exists st,
         run 3 broken_teardown = Some (Returned st)
         /\ forallb leaf_passes (tests broken_teardown) = true
         /\ passed st = 1
         /\ ret st = Pending).
Proof.
  split; [|split]; eexists; (split; [vm_compute; reflexivity|]).
  - split; [reflexivity|]. split; [reflexivity|]. split; [|reflexivity].
    simpl. in_list.
  - repeat split.
  - repeat split.
Qed.

(** ** C3 *)

Lemma passes_not_fails (t : test) : leaf_passes t = true -> leaf_fails t = false.
Proof.
  unfold leaf_passes, leaf_fails. destruct (fn t) as [f|q]; [|discriminate].
  destruct (new_Promise f); congruence.
Qed.

Lemma fails_not_passes (t : test) : leaf_fails t = true -> leaf_passes t = false.
Proof.
  unfold leaf_passes, leaf_fails. destruct (fn t) as [f|q]; [|discriminate].
  destruct (new_Promise f); congruence.
Qed.

Lemma count_firstn_S (p : test -> bool) (l : list test) (c : nat) (t : test) :
  nth_error l c = Some t ->
  length (filter p (firstn (S c) l))
  = length (filter p (firstn c l)) + (if p t then 1 else 0).
Proof.
  intros H. rewrite (firstn_S_nth_error _ _ _ H), filter_app, length_app.
  simpl. destruct (p t); reflexivity.
Qed.

Lemma settled_split (l : list test) :
  forallb leaf_settles l = true ->
  length (filter leaf_passes l) + length (filter leaf_fails l) = length l.
Proof.
  induction l as [|t l IH]; simpl; [reflexivity|].
  intros H. apply andb_prop in H as [Ht Hl]. specialize (IH Hl).
  unfold leaf_settles in Ht. apply orb_prop in Ht as [Ht|Ht]; rewrite Ht.
  - rewrite (passes_not_fails _ Ht). simpl. lia.
  - rewrite (fails_not_passes _ Ht). simpl. lia.
Qed.

Section AllEntriesRun.

Variable this : TestQueue.
Hypothesis goes_on : stopOnFail this = false.
Hypothesis all_settle : forallb leaf_settles (tests this) = true.
Hypothesis teardown_completes : completes (teardownFn this) = true.

Let N := length (tests this).
Let P (c : nat) := length (filter leaf_passes (firstn c (tests this))).
Let F (c : nat) := length (filter leaf_fails (firstn c (tests this))).

Let I (q : TestQueue) (st : RunState) : Prop :=
  q = this /\ unfinished st /\ _testQueueCursor st <= N
  /\ passed st = P (_testQueueCursor st)
  /\ failed st = F (_testQueueCursor st)
  /\ dispatched (log st) = seq 0 (_testQueueCursor st).

Let T (q : TestQueue) (st : RunState) : Prop :=
  passed st = P N /\ failed st = F N
  /\ dispatched (log st) = seq 0 N /\ ret st = verdict st.

Lemma leaf_queue_counts (fuel : nat) (st' : RunState) :
  _testQueueNext fuel this (started this) = Some st' ->
  passed st' = length (filter leaf_passes (tests this))
  /\ failed st' = length (filter leaf_fails (tests this))
  /\ dispatched (log st') = seq 0 (length (tests this))
  /\ ret st' = verdict st'.
Proof.
  intros Hn.
  assert (HT : T this st').
  { refine (proj2 (run_rule I T (fun _ _ => True) _ _ fuel)
                  this (started this) st' _ Hn).
    - clear - goes_on all_settle teardown_completes.
      intros q run_sub st _ [-> [Hunf [Hle [Hp [Hf Hd]]]]].
      pose proof (unfinished_entry this run_sub st Hunf) as Hunf'.
      destruct (Nat.eq_dec (_testQueueCursor st) N) as [Hend|Hend].
      + rewrite after_last_entry by exact Hend.
        destruct (counters__onFinish this st) as [Hp' [Hf' _]].
        destruct (_onFinish_steps this st Hunf) as [_ Hret].
        rewrite teardown_completes in Hret.
        unfold T, verdict in *.
        rewrite dispatched__onFinish, Hp', Hf', Hret, Hp, Hf, Hd, Hend.
        auto.
      + destruct (entry_under_cursor this st) as [t [Ht Hin]];
          [subst N; lia|].
        assert (Hsettles : leaf_settles t = true)
          by (eapply forallb_forall in all_settle; eauto).
        unfold leaf_settles in Hsettles.
        apply orb_prop in Hsettles as [Hpass|Hfail].
        * destruct (after_passing_leaf this run_sub st t Ht Hpass)
            as [s [Hs [Hc [Hp' [Hf' Hd']]]]].
          rewrite Hs in *. unfold I. split; [reflexivity|].
          split; [exact Hunf'|]. rewrite Hc, Hp', Hf', Hd', Hp, Hf, Hd.
          unfold P, F. rewrite !(count_firstn_S _ _ _ _ Ht), Hpass.
          rewrite (passes_not_fails _ Hpass), seq_S_end.
          subst N. repeat split; lia.
        * destruct (after_failing_leaf this run_sub st t Ht Hfail)
            as [s [Hs [Hc [Hp' [Hf' Hd']]]]].
          rewrite goes_on in Hs.
          rewrite Hs in *. unfold I. split; [reflexivity|].
          split; [exact Hunf'|]. rewrite Hc, Hp', Hf', Hd', Hp, Hf, Hd.
          unfold P, F. rewrite !(count_firstn_S _ _ _ _ Ht), Hfail.
          rewrite (fails_not_passes _ Hfail), seq_S_end.
          subst N. repeat split; lia.
    - auto.
    - unfold I. split; [reflexivity|].
      split; [apply started_unfinished|]. subst N. simpl.
      unfold P, F. rewrite firstn_O, dispatched_notify. simpl.
      repeat split; lia. }
  unfold T, P, F, N in HT. rewrite !firstn_all in HT. exact HT.
Qed.

End AllEntriesRun.

(** C3, as amended.  In a queue of leaf tests with [stopOnFail] unset, all
    of which pass or fail, and whose setup and teardown functions
    complete, every entry is started; [passed] and [failed] end up as the
    number [P] of passing and the number [F] of failing tests; and the
    promise of the run is rejected with these counts if and only if
    [F > 0], and resolved with them if and only if [F = 0]. *)
Theorem all_entries_run (this : TestQueue) (fuel : nat) :
  stopOnFail this = false ->
  forallb leaf_settles (tests this) = true ->
  completes (setupFn this) = true ->
  completes (teardownFn this) = true ->
  fuel_for this <= fuel ->
  let P := length (filter leaf_passes (tests this)) in
  let F := length (filter leaf_fails (tests this)) in
  exists st,
    run fuel this = Some (Returned st)
    /\ P + F = length (tests this)
    /\ dispatched (log st) = seq 0 (length (tests this))
    /\ passed st = P
    /\ failed st = F
    /\ (ret st = Rejected (mkResults P F) <-> 0 < F)
    /\ (ret st = Resolved (mkResults P F) <-> F = 0).
Proof.
  intros Hstop Hsettle Hsetup Hteardown Hfuel P F.
  destruct (run_continues this fuel Hsetup Hfuel) as [fuel' [st [_ [Hn Hr]]]].
  exists st. split; [exact Hr|].
  destruct (leaf_queue_counts this Hstop Hsettle Hteardown fuel' st Hn)
    as [Hp [Hf [Hd Hret]]].
  fold P in Hp. fold F in Hf.
  split; [apply settled_split; exact Hsettle|].
  repeat (split; [assumption|]).
  unfold verdict in Hret. rewrite Hp, Hf in Hret. rewrite Hret.
  destruct (0 <? F) eqn:E.
  - apply Nat.ltb_lt in E. split; split; intros H; try reflexivity;
      try exact E; try discriminate. lia.
  - apply Nat.ltb_ge in E. split; split; intros H; try reflexivity;
      try discriminate; lia.
Qed.

Lemma all_entries_run_witness :
  exists st,
    run 5 keep_going = Some (Returned st)
    /\ 2 + 1 = length (tests keep_going)
    /\ dispatched (log st) = seq 0 (length (tests keep_going))
    /\ passed st = 2
    /\ failed st = 1
    /\ (ret st = Rejected (mkResults 2 1) <-> 0 < 1)
    /\ (ret st = Resolved (mkResults 2 1) <-> 1 = 0).
Proof.
  apply (all_entries_run keep_going 5); reflexivity.
Defined.

Example keep_going_run :
  option_map (fun r => (dispatched (log (state_of r)), ret (state_of r)))
             (run 5 keep_going)
  = Some ([0; 1; 2], Rejected (mkResults 2 1)).
Proof. reflexivity. Qed.

(** C3, as stated, fails when setup or teardown does not complete.  With
    a setup function that returns a rejected promise no entry of
    [keep_going] is started; with a teardown function that returns a
    rejected promise the only test of [broken_teardown] runs and passes,
    but the promise of the run is not resolved. *)
Lemma entries_not_run_without_setup :
  (exists st,
      run 5 keep_going_broken_setup = Some (Returned st)
      /\ stopOnFail keep_going_broken_setup = false
      /\ forallb leaf_settles (tests keep_going_broken_setup) = true
      /\ length (tests keep_going_broken_setup) = 3
      /\ dispatched (log st) = []
      /\ ret st = Pending)
  /\ (exists st,
         run 3 broken_teardown = Some (Returned st)
         /\ stopOnFail broken_teardown = false
         /\ forallb leaf_settles (tests broken_teardown) = true
         /\ length (filter leaf_fails (tests broken_teardown)) = 0
         /\ dispatched (log st) = [0]
         /\ ret st = Pending).
Proof.
  split; eexists; (split; [vm_compute; reflexivity|]); repeat split.
Qed.

(** ** C1 *)

Lemma run_without_setup (fuel : nat) (this : TestQueue) (r : RunResult) :
  completes (setupFn this) = false ->
  run fuel this = Some r ->
  state_of r = record [CallSetup] initial.
Proof.
  intros H Hr. destruct fuel as [|fuel]; [discriminate|].
  rewrite run_S in Hr. unfold run_body, completes in *.
  destruct (setupFn this) as [v|e].
  - destruct (promise_resolve v); try discriminate;
      injection Hr as <-; reflexivity.
  - injection Hr as <-. reflexivity.
Qed.

Section StopOnFirstFailure.

Variable this : TestQueue.
Variable k : nat.
Hypothesis stops : stopOnFail this = true.
Hypothesis passes_before :
  forallb leaf_passes (firstn k (tests this)) = true.
Hypothesis fails_at :
  exists t, nth_error (tests this) k = Some t /\ leaf_fails t = true.

Let I (q : TestQueue) (st : RunState) : Prop :=
  q = this /\ unfinished st /\ _testQueueCursor st <= k
  /\ passed st = _testQueueCursor st /\ failed st = 0
  /\ dispatched (log st) = seq 0 (_testQueueCursor st).

Let T (q : TestQueue) (st : RunState) : Prop :=
  passed st = k /\ failed st = 1
  /\ dispatched (log st) = seq 0 (S k)
  /\ ret st = if completes (teardownFn this)
              then Rejected (mkResults k 1) else Pending.

Lemma halted_queue_counts (fuel : nat) (st' : RunState) :
  _testQueueNext fuel this (started this) = Some st' ->
  passed st' = k /\ failed st' = 1
  /\ dispatched (log st') = seq 0 (S k)
  /\ ret st' = if completes (teardownFn this)
               then Rejected (mkResults k 1) else Pending.
Proof.
  intros Hn.
  refine (proj2 (run_rule I T (fun _ _ => True) _ _ fuel)
                this (started this) st' _ Hn).
  - clear - stops passes_before fails_at.
    intros q run_sub st _ [-> [Hunf [Hle [Hp [Hf Hd]]]]].
    pose proof (unfinished_entry this run_sub st Hunf) as Hunf'.
    destruct fails_at as [tk [Htk Hfails]].
    destruct (Nat.eq_dec (_testQueueCursor st) k) as [Hk|Hk].
    + rewrite <- Hk in Htk.
      destruct (after_failing_leaf this run_sub st tk Htk Hfails)
        as [s [Hs [Hc [Hp' [Hf' Hd']]]]].
      rewrite stops in Hs. rewrite Hs in *.
      destruct (counters__onFinish this s) as [Hp'' [Hf'' _]].
      destruct (_onFinish_steps this s Hunf') as [_ Hret].
      unfold T, verdict in *.
      rewrite dispatched__onFinish, Hp'', Hf'', Hret, Hp', Hf', Hd', Hp,
        Hf, Hd, Hk.
      rewrite seq_S_end. simpl. auto.
    + assert (Hlt : _testQueueCursor st < k) by lia.
      assert (Hk_lt : k < length (tests this))
        by (apply nth_error_Some; congruence).
      destruct (entry_under_cursor this st) as [t [Ht _]]; [lia|].
      assert (Hpass : leaf_passes t = true).
      { eapply forallb_forall in passes_before; [exact passes_before|].
        apply (nth_error_In _ (_testQueueCursor st)).
        rewrite nth_error_firstn.
        apply Nat.ltb_lt in Hlt. rewrite Hlt. exact Ht. }
      destruct (after_passing_leaf this run_sub st t Ht Hpass)
        as [s [Hs [Hc [Hp' [Hf' Hd']]]]].
      rewrite Hs in *. unfold I. split; [reflexivity|].
      split; [exact Hunf'|]. rewrite Hc, Hp', Hf', Hd', Hp, Hf, Hd.
      rewrite seq_S_end. repeat split; lia.
  - auto.
  - unfold I. split; [reflexivity|].
    split; [apply started_unfinished|]. simpl.
    rewrite dispatched_notify. repeat split; lia.
Qed.

End StopOnFirstFailure.

(** C1, as amended.  Let [stopOnFail] be set, the entries before index
    [k] be leaf tests that pass and entry [k] a leaf test that fails.  Then
    no entry after [k] is ever started.  The promise of the run is either
    never settled or rejected with [passed = k] and [failed = 1], which are
    then also the values of the counters.  If the setup function
    completes, the entries up to [k] are started, one after the other, and
    the counters reach these values; if the teardown function completes as
    well, the promise is rejected. *)
Theorem stop_on_first_failure (this : TestQueue) (k fuel : nat) :
  stopOnFail this = true ->
  forallb leaf_passes (firstn k (tests this)) = true ->
  (exists t, nth_error (tests this) k = Some t /\ leaf_fails t = true) ->
  fuel_for this <= fuel ->
  exists r,
    run fuel this = Some r
    /\ (forall i n, In (Dispatch i n) (log (state_of r)) -> i <= k)
    /\ (ret (state_of r) = Pending
        \/ (ret (state_of r) = Rejected (mkResults k 1)
            /\ passed (state_of r) = k /\ failed (state_of r) = 1))
    /\ (completes (setupFn this) = true ->
        passed (state_of r) = k /\ failed (state_of r) = 1
        /\ dispatched (log (state_of r)) = seq 0 (S k))
    /\ (completes (setupFn this) = true ->
        completes (teardownFn this) = true ->
        ret (state_of r) = Rejected (mkResults k 1)).
Proof.
  intros Hstop Hbefore Hfails Hfuel.
  destruct (completes (setupFn this)) eqn:Hsetup.
  - destruct (run_continues this fuel Hsetup Hfuel)
      as [fuel' [st [_ [Hn Hr]]]].
    exists (Returned st). split; [exact Hr|]. simpl.
    destruct (halted_queue_counts this k Hstop Hbefore Hfails
                fuel' st Hn) as [Hp [Hf [Hd Hret]]].
    split.
    { intros i n Hin. apply In_dispatched in Hin. rewrite Hd in Hin.
      apply in_seq in Hin. lia. }
    split.
    { rewrite Hret. destruct (completes (teardownFn this)); auto. }
    split; [auto|].
    intros _ Hteardown. rewrite Hret, Hteardown. reflexivity.
  - destruct (run_total this fuel Hfuel) as [r Hr].
    exists r. split; [exact Hr|].
    rewrite (run_without_setup fuel this r Hsetup Hr). simpl.
    split.
    { intros i n [H|[]]. discriminate H. }
    split; [auto|]. split; discriminate.
Qed.

Lemma stop_on_first_failure_witness :
  exists r,
    run 5 abc = Some r
    /\ (forall i n, In (Dispatch i n) (log (state_of r)) -> i <= 1)
    /\ (ret (state_of r) = Pending
        \/ (ret (state_of r) = Rejected (mkResults 1 1)
            /\ passed (state_of r) = 1 /\ failed (state_of r) = 1))
    /\ (completes (setupFn abc) = true ->
        passed (state_of r) = 1 /\ failed (state_of r) = 1
        /\ dispatched (log (state_of r)) = seq 0 2)
    /\ (completes (setupFn abc) = true ->
        completes (teardownFn abc) = true ->
        ret (state_of r) = Rejected (mkResults 1 1)).
Proof.
  apply (stop_on_first_failure abc 1 5); try reflexivity.
  exists (mkTest (VString "b") (fails (VError "E"))). split; reflexivity.
Defined.

(** The scenario of the specification: ['pass'] for [a], ['fail'] for [b]
    with the error, [c] is never started, and the run rejects with one
    passed and one failed test. *)
Example abc_run :
  option_map (fun r => (emitted (log (state_of r)),
                        dispatched (log (state_of r)),
                        ret (state_of r)))
             (run 5 abc)
  = Some ([(EvStart, []);
           (EvPass, [VString "a"; VUndefined]);
           (EvFail, [VString "b"; VError "E"]);
           (EvFinish, [VResults (mkResults 1 1)])],
          [0; 1],
          Rejected (mkResults 1 1)).
Proof. reflexivity. Qed.

(** C1, as stated, fails when an entry before the failing one is a nested
    queue: in [nested_then_failure] the entry at index 0 passes and the
    entry at index 1 fails, and the run rejects with [passed] equal to 2,
    the number of tests of the nested queue, and not to 1. *)
Lemma nested_entry_counts_its_tests :
  exists st,
    run 8 nested_then_failure = Some (Returned st)
    /\ stopOnFail nested_then_failure = true
    /\ schedule (log st)
       = [Started 0 (VString "a"); Ended 1; Started 1 (VString "b"); Ended 2]
    /\ In (Outcome true 1) (log st)
    /\ In (Outcome false 2) (log st)
    /\ ret st = Rejected (mkResults 2 1)
    /\ passed st <> 1.
Proof.
  eexists. split; [vm_compute; reflexivity|]. split; [reflexivity|].
  split; [reflexivity|]. split; [simpl; in_list|].
  split; [simpl; in_list|]. split; [reflexivity|].
  simpl. discriminate.
Qed.

(** * Further properties *)

(** ** A proof rule that knows the fuel

    As [run_rule], but the nested runs are calls of [run], so that what
    is known of [run] can be used for them. *)

Section FuelRule.

Variables I T : TestQueue -> RunState -> Prop.
Variable R : TestQueue -> RunResult -> Prop.

Hypothesis entry_rule :
  forall fuel this st,
    (forall q r, run fuel q = Some r -> R q r) ->
    I this st ->
    match after_entry this (run fuel) st with
    | Continue s => I this s
    | Stall s => T this s
    | Finalize s => T this (_onFinish this s)
    | OutOfFuel => True
    end.

Hypothesis run_result_rule :
  forall fuel this,
    (forall st st',
        I this st -> _testQueueNext fuel this st = Some st' -> T this st') ->
    forall r, run (S fuel) this = Some r -> R this r.

Lemma run_rule_fuel (fuel : nat) :
  (forall this r, run fuel this = Some r -> R this r)
  /\ (forall this st st',
         I this st -> _testQueueNext fuel this st = Some st' -> T this st').
Proof.
  induction fuel as [|fuel [IHrun IHnext]].
  - split; intros; discriminate.
  - split.
    + intros this r Hr. eapply run_result_rule; [|exact Hr]. apply IHnext.
    + intros this st st' HI Hn.
      rewrite _testQueueNext_S, body_resume in Hn.
      pose proof (entry_rule fuel this st IHrun HI) as Hstep.
      destruct (after_entry this (run fuel) st) as [s|s|s|]; simpl in Hn.
      * injection Hn as <-. exact Hstep.
      * eapply IHnext; eauto.
      * injection Hn as <-. exact Hstep.
      * discriminate.
Qed.

End FuelRule.

(** ** User listeners *)

Lemma notified_app (id : nat) (l1 l2 : list action) :
  notified id (l1 ++ l2) = notified id l1 ++ notified id l2.
Proof. apply flat_map_app. Qed.

Lemma heard_app (id : nat) (q : TestQueue) (l1 l2 : list (event * list value)) :
  heard id q (l1 ++ l2) = heard id q l1 ++ heard id q l2.
Proof. apply flat_map_app. Qed.

Lemma notified_notify (id : nat) (q : TestQueue) (k : event)
  (args : list value) :
  notified id (notify q k args) = repeat (k, args) (attached id k q).
Proof.
  unfold notify, attached.
  induction (listeners q) as [|[k' l] ls IH]; simpl; [reflexivity|].
  rewrite notified_app, IH.
  destruct (event_eqb k' k); simpl; [|reflexivity].
  destruct l as [id'| |]; simpl; try reflexivity.
  destruct (id' =? id); reflexivity.
Qed.

Lemma notified_lift (id : nat) (this : TestQueue) (i : nat)
  (l : list action) :
  notified id (lift this i l) = heard id this (forwarded l).
Proof.
  induction l as [|a l IH]; simpl; [reflexivity|].
  rewrite notified_app, IH.
  destruct a; simpl; try reflexivity.
  rewrite notified_notify. reflexivity.
Qed.

Lemma notified_emits (id : nat) (q : TestQueue) (k : event)
  (l : list (list value)) :
  notified id (flat_map (fun args => Emit k args :: notify q k args) l)
  = heard id q (map (fun args => (k, args)) l).
Proof.
  induction l as [|a l IH]; simpl; [reflexivity|].
  rewrite notified_app, notified_notify, IH. reflexivity.
Qed.

Create Rewrite HintDb hears.
#[local] Hint Rewrite notified_app heard_app notified_notify notified_lift
  notified_emits emitted_app emitted_notify emitted_lift emitted_emits
  app_nil_r : hears.

Ltac hear_simpl H :=
  repeat (progress (simpl; autorewrite with fields hears; rewrite ?H)).

Lemma listeners_follow_entry (id : nat) (this : TestQueue)
  (run_sub : TestQueue -> option RunResult) (st : RunState) :
  listeners_follow id this st ->
  match after_entry this run_sub st with
  | Continue s | Stall s | Finalize s => listeners_follow id this s
  | OutOfFuel => True
  end.
Proof.
  unfold listeners_follow. intros Hst.
  entry_cases this run_sub st; hear_simpl Hst; auto.
Qed.

Lemma listeners_follow__onFinish (id : nat) (this : TestQueue)
  (st : RunState) :
  listeners_follow id this st -> listeners_follow id this (_onFinish this st).
Proof.
  unfold listeners_follow, _onFinish. intros Hst.
  destruct (teardownFn this) as [v|e].
  - destruct (promise_resolve v);
      unfold _testQueueFail, _testQueuePass, settle; simpl;
      try destruct (0 <? failed st); try destruct (ret st);
      hear_simpl Hst; reflexivity.
  - hear_simpl Hst; reflexivity.
Qed.

Lemma listeners_follow_rule (id fuel : nat) :
  (forall this r,
      run fuel this = Some r -> listeners_follow id this (state_of r))
  /\ (forall this st st',
         listeners_follow id this st ->
         _testQueueNext fuel this st = Some st' ->
         listeners_follow id this st').
Proof.
  apply (run_rule (listeners_follow id) (listeners_follow id)
                  (fun this r => listeners_follow id this (state_of r))).
  - intros this run_sub st _ Hst.
    pose proof (listeners_follow_entry id this run_sub st Hst) as H.
    destruct (after_entry this run_sub st); auto.
    apply listeners_follow__onFinish. exact H.
  - intros this next Hnext r. unfold run_body.
    destruct (setupFn this) as [v|e].
    + destruct (promise_resolve v).
      * destruct (next _) as [st'|] eqn:Hn; simpl; [|discriminate].
        intros [= <-]. simpl. eapply Hnext; [|exact Hn].
        unfold listeners_follow. hear_simpl (@eq_refl nat 0). reflexivity.
      * intros [= <-]. reflexivity.
      * intros [= <-]. reflexivity.
    + intros [= <-]. reflexivity.
Qed.

Lemma attached_on (id : nat) (k k' : event) (l : listener) (q : TestQueue) :
  attached id k' (on k l q)
  = attached id k' q
    + (if event_eqb k k' && match l with
                            | Observer id' => id' =? id
                            | _ => false
                            end
       then 1 else 0).
Proof.
  unfold attached. simpl. rewrite filter_app, length_app. simpl.
  destruct (event_eqb k k' && _); reflexivity.
Qed.

Lemma fuel_for_on (k : event) (l : listener) (q : TestQueue) :
  fuel_for (on k l q) = fuel_for q.
Proof. destruct q; reflexivity. Qed.

Lemma heard_filter (id : nat) (q : TestQueue) (p : event -> bool)
  (l : list (event * list value)) :
  (forall k, attached id k q = if p k then 1 else 0) ->
  heard id q l = filter (fun e => p (fst e)) l.
Proof.
  intros H. induction l as [|e l IH]; simpl; [reflexivity|].
  rewrite IH, H. destruct (p (fst e)); reflexivity.
Qed.

(** X1.  A user listener attached once to a queue for the events of one
    kind is called exactly once for each event of that kind emitted on the
    queue, both for the events of the queue itself and for those it emits
    again for a nested queue, with the arguments of the event and in the
    order of the events; it is called for no other event. *)
Theorem listener_called_per_event (q : TestQueue) (k : event)
  (id fuel : nat) :
  (forall k', attached id k' q = 0) ->
  fuel_for q <= fuel ->
  exists r,
    run fuel (on k (Observer id) q) = Some r
    /\ notified id (log (state_of r))
       = filter (fun e => event_eqb k (fst e)) (emitted (log (state_of r))).
Proof.
  intros Hfresh Hfuel.
  destruct (run_total (on k (Observer id) q) fuel) as [r Hr].
  { rewrite fuel_for_on. exact Hfuel. }
  exists r. split; [exact Hr|].
  rewrite (proj1 (listeners_follow_rule id fuel) _ _ Hr).
  apply heard_filter. intros k'.
  rewrite attached_on, Hfresh, Nat.eqb_refl, andb_true_r. reflexivity.
Qed.

Lemma listener_called_per_event_witness :
  exists r,
    run 9 (on EvPass (Observer 7) outer) = Some r
    /\ notified 7 (log (state_of r))
       = filter (fun e => event_eqb EvPass (fst e))
                (emitted (log (state_of r))).
Proof.
  apply (listener_called_per_event outer EvPass 7 9).
  - intros k'. reflexivity.
  - vm_compute. lia.
Defined.

(** On [outer] such a listener hears the two passes of the nested queue
    and the pass of the test that follows it. *)
Example outer_pass_listener :
  option_map (fun r => notified 7 (log (state_of r)))
             (run 9 (on EvPass (Observer 7) outer))
  = Some [(EvPass, [VString "x"; VUndefined]);
          (EvPass, [VString "z"; VUndefined]);
          (EvPass, [VString "after"; VUndefined])].
Proof. vm_compute. reflexivity. Qed.

(** ** The first and the last event *)

(** The chain of callbacks of a run ends before [_onFinish] or in it. *)
Lemma next_ends (fuel : nat) (this : TestQueue) (st st' : RunState) :
  unfinished st ->
  _testQueueNext fuel this st = Some st' ->
  unfinished st' \/ exists s, unfinished s /\ st' = _onFinish this s.
Proof.
  intros Hst Hn.
  refine (proj2 (run_rule
                   (fun _ s => unfinished s)
                   (fun q s' =>
                      unfinished s'
                      \/ exists s, unfinished s /\ s' = _onFinish q s)
                   (fun _ _ => True) _ _ fuel) this st st' Hst Hn).
  - intros q run_sub s _ Hs.
    pose proof (unfinished_entry q run_sub s Hs) as H.
    destruct (after_entry q run_sub s) as [s'|s'|s'|]; auto.
    right. exists s'. auto.
  - auto.
Qed.

Lemma emitted__onFinish (this : TestQueue) (st : RunState) :
  emitted (log (_onFinish this st))
  = emitted (log st)
    ++ [(EvFinish, [VResults (mkResults (passed st) (failed st))])].
Proof.
  unfold _onFinish.
  destruct (teardownFn this) as [v|e].
  - destruct (promise_resolve v);
      unfold _testQueueFail, _testQueuePass, settle; simpl;
      try destruct (0 <? failed st); try destruct (ret st);
      relay_simpl (@eq_refl nat 0); reflexivity.
  - relay_simpl (@eq_refl nat 0); reflexivity.
Qed.

Lemma unfinished_no_teardown (st : RunState) :
  unfinished st -> ~ In CallTeardown (log st).
Proof.
  intros [Hlog _] Hin.
  assert (In CallTeardown (finalization (log st))) as Hin'
    by (apply filter_In; split; [exact Hin|reflexivity]).
  rewrite Hlog in Hin'. contradiction.
Qed.

(** X2.  The events of a run are framed by the queue's own ['start'] and
    ['finish'].  If the setup function does not complete, nothing is
    emitted at all.  Otherwise the first event is ['start'] without
    arguments, and once the run has got to teardown the last event is
    ['finish'] with the final counters: nothing is emitted while teardown
    runs or after it. *)
Theorem start_first_finish_last (this : TestQueue) (fuel : nat) :
  fuel_for this <= fuel ->
  exists r,
    run fuel this = Some r
    /\ (completes (setupFn this) = false ->
        emitted (log (state_of r)) = [])
    /\ (completes (setupFn this) = true ->
        exists body,
          emitted (log (state_of r)) = (EvStart, []) :: body
          /\ (In CallTeardown (log (state_of r)) ->
              exists body',
                body
                = body'
                  ++ [(EvFinish,
                       [VResults (mkResults (passed (state_of r))
                                            (failed (state_of r)))])])).
Proof.
  intros Hfuel. destruct (completes (setupFn this)) eqn:Hsetup.
  - destruct (run_continues this fuel Hsetup Hfuel)
      as [fuel' [st [_ [Hn Hr]]]].
    exists (Returned st). split; [exact Hr|]. split; [discriminate|].
    intros _. simpl.
    destruct (log_grows fuel' this _ _ Hn) as [d Hd].
    assert (Hstart : emitted (log (started this)) = [(EvStart, [])])
      by (unfold started; relay_simpl (@eq_refl nat 0); reflexivity).
    exists (emitted d). split.
    { rewrite Hd, emitted_app, Hstart. reflexivity. }
    intros Hin.
    destruct (next_ends fuel' this _ _ (started_unfinished this) Hn)
      as [Hunf|[s [Hs ->]]].
    + exfalso. exact (unfinished_no_teardown _ Hunf Hin).
    + destruct (counters__onFinish this s) as [Hp [Hf _]].
      rewrite Hp, Hf.
      pose proof (emitted__onFinish this s) as He.
      rewrite Hd, emitted_app, Hstart in He. simpl in He.
      destruct (emitted (log s)) as [|e0 evs] eqn:Hevs;
        [destruct (emitted d); discriminate|].
      simpl in He. injection He as _ He. exists evs. exact He.
  - destruct (run_total this fuel Hfuel) as [r Hr].
    exists r. split; [exact Hr|]. split; [|discriminate].
    intros _. rewrite (run_without_setup fuel this r Hsetup Hr). reflexivity.
Qed.

Lemma start_first_finish_last_witness :
  exists r,
    run 9 outer = Some r
    /\ (completes (setupFn outer) = false ->
        emitted (log (state_of r)) = [])
    /\ (completes (setupFn outer) = true ->
        exists body,
          emitted (log (state_of r)) = (EvStart, []) :: body
          /\ (In CallTeardown (log (state_of r)) ->
              exists body',
                body
                = body'
                  ++ [(EvFinish,
                       [VResults (mkResults (passed (state_of r))
                                            (failed (state_of r)))])])).
Proof.
  apply (start_first_finish_last outer 9). vm_compute. lia.
Defined.

(** ** The results of a queue, read off its tests *)

Lemma tally_eq (q : TestQueue) :
  tally q = tally_entries (stopOnFail q) (tests q) 0 0.
Proof.
  destruct q as [stop sf tf l ls]. simpl.
  generalize 0 at 2 4 as p. generalize 0 at 2 3 as f.
  induction l as [|t l IH]; intros f p; simpl; [reflexivity|].
  fold (contribution t).
  destruct (stop && (0 <? snd (contribution t))); [reflexivity|].
  apply IH.
Qed.

Lemma tally_subscribe (n : value) (q : TestQueue) :
  tally (subscribe n q) = tally q.
Proof. destruct q; reflexivity. Qed.

Lemma dispatched_lift (this : TestQueue) (i : nat) (l : list action) :
  dispatched (lift this i l) = [].
Proof. apply proj_lift; reflexivity. Qed.

#[local] Hint Rewrite dispatched_lift : disp.

Lemma console_logs_app (l1 l2 : list action) :
  console_logs (l1 ++ l2) = console_logs l1 ++ console_logs l2.
Proof. apply flat_map_app. Qed.

Lemma console_logs_notify (this : TestQueue) (k : event)
  (args : list value) :
  console_logs (notify this k args) = [].
Proof. apply proj_notify; reflexivity. Qed.

Lemma console_logs_lift (this : TestQueue) (i : nat) (l : list action) :
  console_logs (lift this i l) = [].
Proof. apply proj_lift; reflexivity. Qed.

Lemma console_logs_info (this : TestQueue) (l : list (list value)) :
  console_logs
    (flat_map (fun args => Emit EvInfo args :: notify this EvInfo args) l)
  = [].
Proof.
  unfold console_logs. rewrite proj_emits by reflexivity.
  induction l; simpl; auto.
Qed.

Create Rewrite HintDb clog.
#[local] Hint Rewrite console_logs_app console_logs_notify console_logs_lift
  console_logs_info app_nil_r : clog.

Lemma console_logs__onFinish (this : TestQueue) (st : RunState) :
  console_logs (log (_onFinish this st)) = console_logs (log st).
Proof.
  unfold _onFinish.
  destruct (teardownFn this) as [v|e].
  - destruct (promise_resolve v);
      unfold _testQueueFail, _testQueuePass, settle; simpl;
      try destruct (0 <? failed st); try destruct (ret st);
      repeat (progress (simpl; autorewrite with fields clog)); reflexivity.
  - repeat (progress (simpl; autorewrite with fields clog)); reflexivity.
Qed.

(** What an entry that gets an outcome does to the state. *)
Lemma after_settled_entry (this : TestQueue)
  (run_sub : TestQueue -> option RunResult) (st : RunState) (t : test) :
  nth_error (tests this) (_testQueueCursor st) = Some t ->
  entry_settles t = true ->
  (forall q, fn t = Sub q ->
             exists sub,
               run_sub (subscribe (name t) q) = Some (Returned sub)
               /\ ret sub = verdict sub
               /\ (passed sub, failed sub) = tally q) ->
  exists s,
    after_entry this run_sub st
    = (if stopOnFail this && (0 <? snd (contribution t))
       then Finalize s else Continue s)
    /\ _testQueueCursor s = S (_testQueueCursor st)
    /\ passed s = passed st + fst (contribution t)
    /\ failed s = failed st + snd (contribution t)
    /\ dispatched (log s) = dispatched (log st) ++ [_testQueueCursor st]
    /\ console_logs (log s) = console_logs (log st) ++ rejection_log t.
Proof.
  intros Ht Hsettles Hsub. unfold after_entry.
  rewrite (not_at_end _ _ _ Ht), Ht.
  unfold contribution, entry_settles, rejection_log in *.
  destruct (fn t) as [f|q].
  - unfold leaf_tally. destruct (new_Promise f); try discriminate; simpl.
    + rewrite andb_false_r. eexists. split; [reflexivity|].
      repeat (progress (simpl; autorewrite with fields disp clog)).
      repeat split; lia.
    + rewrite andb_true_r. eexists.
      split; [destruct (stopOnFail this); reflexivity|].
      repeat (progress (simpl; autorewrite with fields disp clog)).
      repeat split; lia.
  - destruct (Hsub q eq_refl) as [sub [Hrun [Hret Htally]]].
    rewrite Hrun, <- Htally. simpl. unfold verdict in Hret.
    destruct (0 <? failed sub) eqn:Efailed; rewrite Hret; simpl.
    + rewrite andb_true_r. eexists.
      split; [destruct (stopOnFail this); reflexivity|].
      repeat (progress (simpl; autorewrite with fields disp clog)).
      repeat split; lia.
    + rewrite andb_false_r. eexists. split; [reflexivity|].
      apply Nat.ltb_ge in Efailed.
      repeat (progress (simpl; autorewrite with fields disp clog)).
      repeat split; lia.
Qed.

Lemma entries_settle_nth (this : TestQueue) (c : nat) (t : test) :
  entries_settle this = true ->
  nth_error (tests this) c = Some t ->
  entry_settles t = true.
Proof.
  intros H Ht. unfold entries_settle in H.
  eapply forallb_forall in H; [exact H|]. eapply nth_error_In. exact Ht.
Qed.

Lemma after_entry_out_of_fuel (this : TestQueue)
  (run_sub : TestQueue -> option RunResult) (st : RunState) (t : test)
  (q : TestQueue) :
  nth_error (tests this) (_testQueueCursor st) = Some t ->
  fn t = Sub q ->
  run_sub (subscribe (name t) q) = None ->
  after_entry this run_sub st = OutOfFuel.
Proof.
  intros Ht Hfn Hr. unfold after_entry.
  rewrite (not_at_end _ _ _ Ht), Ht, Hfn, Hr. reflexivity.
Qed.

Lemma tallied_rule (fuel : nat) :
  (forall this r,
      run fuel this = Some r ->
      completes (setupFn this) = true -> entries_settle this = true ->
      exists st, r = Returned st /\ tallied this st)
  /\ (forall this st st',
         on_course this st -> _testQueueNext fuel this st = Some st' ->
         tallied this st').
Proof.
  apply (run_rule on_course tallied
           (fun this r =>
              completes (setupFn this) = true ->
              entries_settle this = true ->
              exists st, r = Returned st /\ tallied this st)).
  - intros this run_sub st Hsub
      [Hentries [Hunf [Hle [Htally [Hrun [Hd Hcl]]]]]].
    pose proof (unfinished_entry this run_sub st Hunf) as Hunf'.
    destruct (Nat.eq_dec (_testQueueCursor st) (length (tests this)))
      as [Hend|Hend].
    + rewrite after_last_entry by exact Hend.
      rewrite Hend, skipn_all in *. simpl in *.
      destruct (counters__onFinish this st) as [Hp [Hf _]].
      unfold tallied.
      rewrite Hp, Hf, dispatched__onFinish, console_logs__onFinish, Hd, Hcl,
        <- Hrun.
      rewrite Nat.add_0_r.
      split; [exact Htally|]. split; [reflexivity|].
      split; [|reflexivity].
      apply _onFinish_reached. exact Hunf.
    + destruct (entry_under_cursor this st) as [t [Ht _]]; [lia|].
      pose proof (entries_settle_nth _ _ _ Hentries Ht) as Hsettles.
      assert (Hcases :
                after_entry this run_sub st = OutOfFuel
                \/ forall q, fn t = Sub q ->
                     exists sub,
                       run_sub (subscribe (name t) q) = Some (Returned sub)
                       /\ ret sub = verdict sub
                       /\ (passed sub, failed sub) = tally q).
      { destruct (fn t) as [f|q] eqn:Hfn; [right; discriminate|].
        unfold entry_settles in Hsettles. rewrite Hfn in Hsettles.
        destruct (runs_through_subscribe (name t) q Hsettles)
          as [Hsetup [Hteardown Hsub_entries]].
        destruct (run_sub (subscribe (name t) q)) as [r|] eqn:Hr.
        - right. intros q' Hq'. injection Hq' as <-.
          destruct (Hsub _ _ Hr Hsetup Hsub_entries)
            as [sub [-> [Htallied [_ [[_ Hret] _]]]]].
          exists sub. rewrite tally_subscribe in Htallied.
          split; [exact Hr|]. split; [|exact Htallied].
          apply Hret. exact Hteardown.
        - left. eapply after_entry_out_of_fuel; eauto. }
      destruct Hcases as [Hout|Hsubs]; [rewrite Hout; exact I|].
      destruct (after_settled_entry this run_sub st t Ht Hsettles Hsubs)
        as [s [Hs [Hc [Hp [Hf [Hd' Hcl']]]]]].
      rewrite Hs in *.
      rewrite (skipn_nth_error _ _ _ Ht) in Htally, Hrun. simpl in Htally, Hrun.
      assert (Hlogs : console_logs (log s)
                      = flat_map rejection_log
                          (firstn (S (_testQueueCursor st)) (tests this))).
      { rewrite (firstn_S_nth_error _ _ _ Ht), flat_map_app, Hcl', Hcl.
        simpl. rewrite app_nil_r. reflexivity. }
      destruct (stopOnFail this && (0 <? snd (contribution t))).
      * destruct (counters__onFinish this s) as [Hp' [Hf' _]].
        unfold tallied.
        rewrite Hp', Hf', dispatched__onFinish, console_logs__onFinish,
          Hd', Hd, Hp, Hf, Hlogs, <- Hrun.
        rewrite Nat.add_1_r.
        split; [exact Htally|].
        split; [symmetry; apply seq_S_end|].
        split; [|reflexivity].
        apply _onFinish_reached. exact Hunf'.
      * unfold on_course. rewrite Hc, Hp, Hf, Hd', Hd.
        split; [exact Hentries|]. split; [exact Hunf'|].
        split; [lia|]. split; [exact Htally|].
        split; [lia|]. split; [symmetry; apply seq_S_end|exact Hlogs].
  - intros this next Hnext r Hr Hsetup Hentries.
    destruct (run_body_started next this r Hsetup Hr) as [st' [-> Hst']].
    exists st'. split; [reflexivity|].
    apply (Hnext (started this) st'); [|exact Hst'].
    unfold on_course.
    split; [exact Hentries|]. split; [apply started_unfinished|].
    unfold started. autorewrite with fields. rewrite skipn_O. simpl.
    split; [lia|]. split; [symmetry; apply tally_eq|].
    split; [reflexivity|]. rewrite ?firstn_O.
    repeat (progress (simpl; autorewrite with fields disp clog)).
    split; reflexivity.
Qed.

Lemma tallied_run (this : TestQueue) (fuel : nat) :
  completes (setupFn this) = true ->
  entries_settle this = true ->
  fuel_for this <= fuel ->
  exists st, run fuel this = Some (Returned st) /\ tallied this st.
Proof.
  intros Hsetup Hentries Hfuel.
  destruct (run_total this fuel Hfuel) as [r Hr].
  destruct (proj1 (tallied_rule fuel) this r Hr Hsetup Hentries)
    as [st [-> Hst]].
  exists st. auto.
Qed.

Lemma entries_run_all (l : list test) : entries_run false l = length l.
Proof. induction l as [|t l IH]; simpl; congruence. Qed.

Lemma entries_run_le (stop : bool) (l : list test) :
  entries_run stop l <= length l.
Proof.
  induction l as [|t l IH]; simpl; [lia|].
  destruct (stop && (0 <? snd (contribution t))); lia.
Qed.

(** X3.  The results of a queue are determined by its tests alone, at any
    depth of nesting.  When setup completes and every entry gets an outcome,
    [run] counts as [tally] does: a leaf test adds one pass or one failure, a
    nested queue adds its own tally, and with [stopOnFail] the count stops
    after the first entry that adds a failure.  These are the counters
    carried by the ['finish'] event, and when teardown completes the
    promise is rejected with them if there is a failure and fulfilled with
    them otherwise. *)
Theorem results_are_the_tally (this : TestQueue) (fuel : nat) :
  completes (setupFn this) = true ->
  entries_settle this = true ->
  fuel_for this <= fuel ->
  exists st,
    run fuel this = Some (Returned st)
    /\ (passed st, failed st) = tally this
    /\ In (Emit EvFinish [VResults (mkResults (fst (tally this))
                                              (snd (tally this)))])
          (log st)
    /\ (completes (teardownFn this) = true ->
        ret st
        = if 0 <? snd (tally this)
          then Rejected (mkResults (fst (tally this)) (snd (tally this)))
          else Resolved (mkResults (fst (tally this)) (snd (tally this)))).
Proof.
  intros Hsetup Hentries Hfuel.
  destruct (tallied_run this fuel Hsetup Hentries Hfuel)
    as [st [Hr [Htally [_ [[Hfin Hret] _]]]]].
  exists st. split; [exact Hr|]. split; [exact Htally|].
  rewrite <- Htally. simpl. split.
  - assert (Hin : In (Emit EvFinish
                        [VResults (mkResults (passed st) (failed st))])
                     (finalization (log st)))
      by (rewrite Hfin; left; reflexivity).
    apply filter_In in Hin. apply Hin.
  - intros Hteardown. apply Hret. exact Hteardown.
Qed.

Lemma results_are_the_tally_witness :
  exists st,
    run 9 outer = Some (Returned st)
    /\ (passed st, failed st) = tally outer
    /\ In (Emit EvFinish [VResults (mkResults (fst (tally outer))
                                              (snd (tally outer)))])
          (log st)
    /\ (completes (teardownFn outer) = true ->
        ret st
        = if 0 <? snd (tally outer)
          then Rejected (mkResults (fst (tally outer)) (snd (tally outer)))
          else Resolved (mkResults (fst (tally outer)) (snd (tally outer)))).
Proof.
  apply (results_are_the_tally outer 9);
    [reflexivity | reflexivity | vm_compute; lia].
Defined.

Example outer_tally : tally outer = (3, 1).
Proof. reflexivity. Qed.

Example nested_then_failure_tally : tally nested_then_failure = (2, 1).
Proof. reflexivity. Qed.

(** X4.  Which entries are started.  When setup completes and every entry
    gets an outcome, the entries are started in order from the first one,
    each exactly once, up to and including the first entry that adds a
    failure when [stopOnFail] is set, a nested queue adding the failures
    of its own run; when [stopOnFail] is not set, every entry is started,
    whatever failed before it. *)
Theorem entries_started (this : TestQueue) (fuel : nat) :
  completes (setupFn this) = true ->
  entries_settle this = true ->
  fuel_for this <= fuel ->
  exists st,
    run fuel this = Some (Returned st)
    /\ dispatched (log st)
       = seq 0 (entries_run (stopOnFail this) (tests this))
    /\ entries_run (stopOnFail this) (tests this) <= length (tests this)
    /\ (stopOnFail this = false ->
        dispatched (log st) = seq 0 (length (tests this))).
Proof.
  intros Hsetup Hentries Hfuel.
  destruct (tallied_run this fuel Hsetup Hentries Hfuel)
    as [st [Hr [_ [Hd _]]]].
  exists st. split; [exact Hr|]. split; [exact Hd|].
  split; [apply entries_run_le|].
  intros Hstop. rewrite Hd, Hstop, entries_run_all. reflexivity.
Qed.

Lemma entries_started_witness :
  exists st,
    run 8 nested_then_failure = Some (Returned st)
    /\ dispatched (log st)
       = seq 0 (entries_run (stopOnFail nested_then_failure)
                            (tests nested_then_failure))
    /\ entries_run (stopOnFail nested_then_failure)
                   (tests nested_then_failure)
       <= length (tests nested_then_failure)
    /\ (stopOnFail nested_then_failure = false ->
        dispatched (log st) = seq 0 (length (tests nested_then_failure))).
Proof.
  apply (entries_started nested_then_failure 8);
    [reflexivity | reflexivity | vm_compute; lia].
Defined.

(** X5.  The stray [console.log] of line 125.  When setup completes and
    every entry gets an outcome, the queue itself calls [console.log]
    once for each entry it has started that is a nested queue whose
    promise is rejected, in the order of the entries, with the name of
    the entry and the results of the nested queue; it does not call it
    for a leaf test, whether it passes or fails, nor for a nested queue
    whose promise is fulfilled. *)
Theorem rejected_nested_queues_are_logged (this : TestQueue) (fuel : nat) :
  completes (setupFn this) = true ->
  entries_settle this = true ->
  fuel_for this <= fuel ->
  exists st,
    run fuel this = Some (Returned st)
    /\ console_logs (log st)
       = flat_map rejection_log
           (firstn (entries_run (stopOnFail this) (tests this))
                   (tests this)).
Proof.
  intros Hsetup Hentries Hfuel.
  destruct (tallied_run this fuel Hsetup Hentries Hfuel)
    as [st [Hr [_ [_ [_ Hlogs]]]]].
  exists st. split; [exact Hr|exact Hlogs].
Qed.

Lemma rejected_nested_queues_are_logged_witness :
  exists st,
    run 9 outer = Some (Returned st)
    /\ console_logs (log st)
       = flat_map rejection_log
           (firstn (entries_run (stopOnFail outer) (tests outer))
                   (tests outer)).
Proof.
  apply (rejected_nested_queues_are_logged outer 9);
    [reflexivity | reflexivity | vm_compute; lia].
Defined.

Example outer_rejection_log :
  flat_map rejection_log (tests outer)
  = [[VString "nested"; VResults (mkResults 2 1)]].
Proof. reflexivity. Qed.

(** ** Whether the promise of a run is ever settled *)

Lemma fate_eq (q : TestQueue) :
  fate q
  = if completes (setupFn q)
    then fate_of_entries q (tests q) 0 0
    else None.
Proof.
  destruct q as [stop sf tf l ls]. unfold fate_of_entries. simpl.
  destruct (completes sf); [|reflexivity].
  generalize 0 at 2 4 as p. generalize 0 at 2 3 as f.
  induction l as [|t l IH]; intros f p; simpl; [reflexivity|].
  fold (entry_fate t).
  destruct (entry_fate t) as [c|]; [|reflexivity].
  destruct (stop && (0 <? snd c)); [reflexivity|].
  apply IH.
Qed.

Lemma fate_subscribe (n : value) (q : TestQueue) :
  fate (subscribe n q) = fate q.
Proof. destruct q; reflexivity. Qed.

Lemma fate_without_setup (q : TestQueue) :
  completes (setupFn q) = false -> fate q = None.
Proof. intros H. rewrite fate_eq, H. reflexivity. Qed.

(** What an entry does to the state, by its fate. *)
Lemma after_fated_entry (this : TestQueue)
  (run_sub : TestQueue -> option RunResult) (st : RunState) (t : test) :
  nth_error (tests this) (_testQueueCursor st) = Some t ->
  (forall q, fn t = Sub q ->
             exists r,
               run_sub (subscribe (name t) q) = Some r
               /\ match r with
                  | Returned sub => ret sub = promise_of (fate q)
                  | Threw _ _ => fate q = None
                  end) ->
  match entry_fate t with
  | None =>
      exists s,
        after_entry this run_sub st = Stall s
        /\ dispatched (log s) = dispatched (log st) ++ [_testQueueCursor st]
  | Some c =>
      exists s,
        after_entry this run_sub st
        = (if stopOnFail this && (0 <? snd c)
           then Finalize s else Continue s)
        /\ _testQueueCursor s = S (_testQueueCursor st)
        /\ passed s = passed st + fst c
        /\ failed s = failed st + snd c
        /\ dispatched (log s) = dispatched (log st) ++ [_testQueueCursor st]
  end.
Proof.
  intros Ht Hsub. unfold after_entry.
  rewrite (not_at_end _ _ _ Ht), Ht.
  unfold entry_fate.
  destruct (fn t) as [f|q].
  - unfold leaf_fate. destruct (new_Promise f); simpl.
    + rewrite andb_false_r. eexists. split; [reflexivity|].
      repeat (progress (simpl; autorewrite with fields disp)).
      repeat split; lia.
    + rewrite andb_true_r. eexists.
      split; [destruct (stopOnFail this); reflexivity|].
      repeat (progress (simpl; autorewrite with fields disp)).
      repeat split; lia.
    + eexists. split; [reflexivity|].
      repeat (progress (simpl; autorewrite with fields disp)). reflexivity.
  - destruct (Hsub q eq_refl) as [r [Hrun Hr]]. rewrite Hrun.
    destruct r as [sub|e sub].
    + destruct (fate q) as [[p f]|]; simpl in Hr.
      * destruct (0 <? f) eqn:Ef; rewrite Hr; simpl; rewrite Ef.
        -- rewrite andb_true_r. eexists.
           split; [destruct (stopOnFail this); reflexivity|].
           repeat (progress (simpl; autorewrite with fields disp)).
           repeat split; lia.
        -- rewrite andb_false_r. eexists. split; [reflexivity|].
           apply Nat.ltb_ge in Ef.
           repeat (progress (simpl; autorewrite with fields disp)).
           repeat split; lia.
      * rewrite Hr. eexists. split; [reflexivity|].
      repeat (progress (simpl; autorewrite with fields disp)). reflexivity.
    + rewrite Hr. eexists. split; [reflexivity|].
      repeat (progress (simpl; autorewrite with fields disp)). reflexivity.
Qed.

Lemma fated_rule (fuel : nat) :
  (forall this r, run fuel this = Some r -> returns_as_fated this r)
  /\ (forall this st st',
         heading_for this st -> _testQueueNext fuel this st = Some st' ->
         ends_as_fated this st').
Proof.
  apply (run_rule heading_for ends_as_fated returns_as_fated).
  - intros this run_sub st Hsub [Hunf [Hle Hfate]].
    pose proof (unfinished_entry this run_sub st Hunf) as Hunf'.
    destruct (Nat.eq_dec (_testQueueCursor st) (length (tests this)))
      as [Hend|Hend].
    + rewrite after_last_entry by exact Hend.
      rewrite Hend, skipn_all in Hfate. unfold ends_as_fated.
      rewrite <- Hfate.
      destruct (_onFinish_steps this st Hunf) as [_ ->].
      unfold fate_of_entries. simpl.
      destruct (completes (teardownFn this)); reflexivity.
    + destruct (entry_under_cursor this st) as [t [Ht _]]; [lia|].
      assert (Hcases :
                after_entry this run_sub st = OutOfFuel
                \/ forall q, fn t = Sub q ->
                     exists r,
                       run_sub (subscribe (name t) q) = Some r
                       /\ match r with
                          | Returned sub => ret sub = promise_of (fate q)
                          | Threw _ _ => fate q = None
                          end).
      { destruct (fn t) as [f|q] eqn:Hfn; [right; discriminate|].
        destruct (run_sub (subscribe (name t) q)) as [r|] eqn:Hr.
        - right. intros q' Hq'. injection Hq' as <-.
          exists r. split; [exact Hr|].
          pose proof (Hsub _ _ Hr) as HR. unfold returns_as_fated in HR.
          rewrite fate_subscribe in HR.
          destruct r; [exact HR|apply HR].
        - left. eapply after_entry_out_of_fuel; eauto. }
      destruct Hcases as [Hout|Hsubs]; [rewrite Hout; exact I|].
      pose proof (after_fated_entry this run_sub st t Ht Hsubs) as Hstep.
      rewrite (skipn_nth_error _ _ _ Ht) in Hfate.
      unfold fate_of_entries in Hfate. simpl in Hfate.
      destruct (entry_fate t) as [c|].
      * destruct Hstep as [s [Hs [Hc [Hp [Hf _]]]]]. rewrite Hs in *.
        destruct (stopOnFail this && (0 <? snd c)).
        -- unfold ends_as_fated, fate_of_entries. rewrite <- Hfate.
           destruct (_onFinish_steps this s Hunf') as [_ ->].
           unfold verdict. rewrite Hp, Hf.
           destruct (completes (teardownFn this)); reflexivity.
        -- unfold heading_for, fate_of_entries. rewrite Hc, Hp, Hf.
           split; [exact Hunf'|]. split; [lia|]. exact Hfate.
      * destruct Hstep as [s [Hs _]]. rewrite Hs in *.
        unfold ends_as_fated, fate_of_entries. rewrite <- Hfate.
        apply Hunf'.
  - intros this next Hnext r Hr. unfold returns_as_fated.
    destruct (completes (setupFn this)) eqn:Hsetup.
    + destruct (run_body_started next this r Hsetup Hr) as [st' [-> Hst']].
      rewrite fate_eq, Hsetup.
      apply (Hnext (started this) st'); [|exact Hst'].
      unfold heading_for.
      split; [apply started_unfinished|].
      unfold started. autorewrite with fields. rewrite skipn_O. simpl.
      split; [lia|reflexivity].
    + rewrite (fate_without_setup _ Hsetup).
      unfold run_body, completes in *.
      destruct (setupFn this) as [v|e].
      * destruct (promise_resolve v); try discriminate;
          injection Hr as <-; reflexivity.
      * injection Hr as <-. split; reflexivity.
Qed.



Example hang_fate : fate hang = None.
Proof. reflexivity. Qed.

Example outer_fate : fate outer = Some (3, 1).
Proof. reflexivity. Qed.

(** ** Events and counters *)

Lemma count_kind_app (k : event) (l1 l2 : list (event * list value)) :
  count_kind k (l1 ++ l2) = count_kind k l1 + count_kind k l2.
Proof. unfold count_kind. rewrite filter_app, length_app. reflexivity. Qed.

Lemma count_kind_relay (k : event) (n : value)
  (l : list (event * list value)) :
  count_kind k (map (relay n) l) = count_kind k l.
Proof.
  unfold count_kind. induction l as [|[k' args] l IH]; [reflexivity|].
  simpl. replace (fst (relay n (k', args))) with k'
    by (destruct k'; reflexivity).
  destruct (event_eqb k k'); simpl; rewrite IH; reflexivity.
Qed.

Lemma count_kind_other (k k' : event) (l : list (list value)) :
  event_eqb k k' = false ->
  count_kind k (map (fun args => (k', args)) l) = 0.
Proof.
  intros H. unfold count_kind.
  induction l as [|a l IH]; [reflexivity|]. simpl. rewrite H. exact IH.
Qed.

Lemma pristine_eq (q : TestQueue) :
  pristine q
  = forallb (fun t => match fn t with
                      | Fn _ => true
                      | Sub q' => only_observers q' && pristine q'
                      end) (tests q).
Proof. destruct q; reflexivity. Qed.

Lemma pristine_subscribe (n : value) (q : TestQueue) :
  pristine (subscribe n q) = pristine q.
Proof. destruct q; reflexivity. Qed.

Lemma pristine_entry (this : TestQueue) (c : nat) (t : test)
  (q : TestQueue) :
  pristine this = true ->
  nth_error (tests this) c = Some t ->
  fn t = Sub q ->
  only_observers q = true /\ pristine q = true.
Proof.
  rewrite pristine_eq. intros H Ht Hfn.
  eapply forallb_forall in H; [|eapply nth_error_In; exact Ht].
  rewrite Hfn in H. apply andb_prop in H. exact H.
Qed.

Lemma settled_teardown (this : TestQueue) (st : RunState) :
  finalized this st -> ret st <> Pending -> In CallTeardown (log st).
Proof.
  intros [[_ Hret]|[[_ [Hret _]]|[Hlog _]]] Hne; try contradiction.
  assert (Hin : In CallTeardown (finalization (log st)))
    by (rewrite Hlog; right; left; reflexivity).
  apply filter_In in Hin. apply Hin.
Qed.

Lemma counted__onFinish (this : TestQueue) (st : RunState) :
  counts_agree st -> counted (_onFinish this st).
Proof.
  intros [Hp Hf].
  assert (H : counts_agree (_onFinish this st)).
  { unfold counts_agree.
    destruct (counters__onFinish this st) as [-> [-> _]].
    rewrite emitted__onFinish, !count_kind_app, Hp, Hf.
    unfold count_kind. simpl. split; lia. }
  split; [|intros _; exact H].
  destruct H as [H1 H2]. unfold counts_below. rewrite H1, H2. split; lia.
Qed.

Lemma counted_unfinished (st : RunState) :
  unfinished st -> counts_below st -> counted st.
Proof.
  intros Hunf H. split; [exact H|].
  intros Hin. exfalso. exact (unfinished_no_teardown _ Hunf Hin).
Qed.

Lemma counted_rule (fuel : nat) :
  (forall this r,
      run fuel this = Some r ->
      pristine this = true -> counted (state_of r))
  /\ (forall this st st',
         (pristine this = true /\ unfinished st /\ counts_agree st) ->
         _testQueueNext fuel this st = Some st' ->
         counted st').
Proof.
  apply (run_rule_fuel
           (fun this st =>
              pristine this = true /\ unfinished st /\ counts_agree st)
           (fun _ st => counted st)
           (fun this r => pristine this = true -> counted (state_of r))).
  - intros fuel' this st Hsub [Hpr [Hunf [Hp Hf]]].
    pose proof (unfinished_entry this (run fuel') st Hunf) as Hunf'.
    revert Hunf'. entry_cases this (run fuel') st; intros Hunf'.
    all: try exact I.
    all: try (apply counted__onFinish).
    all: try (apply counted_unfinished; [exact Hunf'|]).
    all: try (split; [exact Hpr|]; split; [exact Hunf'|]).
    all: unfold counts_agree, counts_below.
    all: relay_simpl (@eq_refl nat 0).
    all: rewrite ?count_kind_app, ?count_kind_other, ?Hp, ?Hf by reflexivity.
    all: try (unfold count_kind; simpl; split; lia).
    all: destruct (pristine_entry _ _ _ _ Hpr Et Efn) as [Hobs Hprq].
    all: pose proof (proj1 (relays_follow_rule fuel') _ _ Esub) as Hrel.
    all: unfold relays_follow in Hrel; simpl in Hrel.
    all: rewrite (relayed_subscribe_observers _ _ _ Hobs) in Hrel.
    all: rewrite Hrel, !count_kind_relay.
    all: try (split; lia).
    all: pose proof (proj1 (finalized_rule fuel') _ _ Esub) as Hfin.
    all: simpl in Hfin.
    all: destruct (settled_results _ _ res Hfin) as [Hres Hrej].
    all: destruct (Hsub _ _ Esub (eq_trans (pristine_subscribe _ _) Hprq))
        as [_ Hagree].
    all: simpl in Hagree.
    all: destruct Hagree as [-> ->];
      [apply (settled_teardown _ _ Hfin); rewrite Eret; discriminate|].
    + destruct (Hres Eret) as [-> H0]. simpl. split; lia.
    + destruct (Hrej Eret) as [-> H0]. simpl. split; lia.
    + destruct (Hrej Eret) as [-> H0]. simpl. split; lia.
  - intros fuel' this Hnext r Hr Hpr.
    rewrite run_S in Hr. unfold run_body in Hr.
    assert (Hnone : counted (record [CallSetup] initial)).
    { apply counted_unfinished.
      - split; reflexivity.
      - split; simpl; lia. }
    destruct (setupFn this) as [v|e].
    + destruct (promise_resolve v); try (injection Hr as <-; exact Hnone).
      destruct (_testQueueNext fuel' this _) as [st'|] eqn:Hn;
        [|discriminate].
      injection Hr as <-. simpl.
      apply (Hnext (started this) st'); [|exact Hn].
      split; [exact Hpr|]. split; [apply started_unfinished|].
      unfold counts_agree, started. relay_simpl (@eq_refl nat 0).
      split; reflexivity.
    + injection Hr as <-. exact Hnone.
Qed.

(** X7.  The counters and the events agree.  When no nested queue carries
    listeners of an earlier parent, the counters [passed] and [failed] of a
    run never exceed the numbers of ['pass'] and ['fail'] events emitted on
    the queue (its own and those of nested queues at any depth), and once
    teardown has been called they are equal: the results carried by
    ['finish'] and by the promise count exactly the ['pass'] and ['fail']
    events that a listener on the queue has seen. *)
Theorem counters_match_events (this : TestQueue) (fuel : nat) :
  pristine this = true ->
  fuel_for this <= fuel ->
  exists r,
    run fuel this = Some r
    /\ passed (state_of r)
       <= count_kind EvPass (emitted (log (state_of r)))
    /\ failed (state_of r)
       <= count_kind EvFail (emitted (log (state_of r)))
    /\ (In CallTeardown (log (state_of r)) ->
        count_kind EvPass (emitted (log (state_of r)))
        = passed (state_of r)
        /\ count_kind EvFail (emitted (log (state_of r)))
           = failed (state_of r)).
Proof.
  intros Hpr Hfuel. destruct (run_total this fuel Hfuel) as [r Hr].
  exists r. split; [exact Hr|].
  destruct (proj1 (counted_rule fuel) this r Hr Hpr) as [[Hp Hf] Hagree].
  auto.
Qed.

Lemma counters_match_events_witness :
  exists r,
    run 9 outer = Some r
    /\ passed (state_of r)
       <= count_kind EvPass (emitted (log (state_of r)))
    /\ failed (state_of r)
       <= count_kind EvFail (emitted (log (state_of r)))
    /\ (In CallTeardown (log (state_of r)) ->
        count_kind EvPass (emitted (log (state_of r)))
        = passed (state_of r)
        /\ count_kind EvFail (emitted (log (state_of r)))
           = failed (state_of r)).
Proof.
  apply (counters_match_events outer 9); [reflexivity | vm_compute; lia].
Defined.

(** ** An entry that never gets an outcome *)

Lemma sub_run_fated (fuel : nat) (this : TestQueue) (st : RunState)
  (t : test) :
  nth_error (tests this) (_testQueueCursor st) = Some t ->
  after_entry this (run fuel) st = OutOfFuel
  \/ forall q, fn t = Sub q ->
       exists r,
         run fuel (subscribe (name t) q) = Some r
         /\ match r with
            | Returned sub => ret sub = promise_of (fate q)
            | Threw _ _ => fate q = None
            end.
Proof.
  intros Ht.
  destruct (fn t) as [f|q] eqn:Hfn; [right; discriminate|].
  destruct (run fuel (subscribe (name t) q)) as [r|] eqn:Hr.
  - right. intros q' Hq'. injection Hq' as <-.
    exists r. split; [exact Hr|].
    pose proof (proj1 (fated_rule fuel) _ _ Hr) as HR.
    unfold returns_as_fated in HR. rewrite fate_subscribe in HR.
    destruct r; [exact HR|apply HR].
  - left. eapply after_entry_out_of_fuel; eauto.
Qed.

Section StuckEntry.

Variable this : TestQueue.
Variable k : nat.
Variable t : test.

Hypothesis reached :
  forallb (goes_past (stopOnFail this)) (firstn k (tests this)) = true.
Hypothesis under_k : nth_error (tests this) k = Some t.
Hypothesis stuck : entry_fate t = None.

Lemma stuck_entry_stalls (fuel : nat) (st' : RunState) :
  _testQueueNext fuel this (started this) = Some st' ->
  unfinished st' /\ dispatched (log st') = seq 0 (S k).
Proof.
  intros Hn.
  refine (proj2 (run_rule_fuel
                   (fun q st =>
                      q = this /\ unfinished st /\ _testQueueCursor st <= k
                      /\ dispatched (log st) = seq 0 (_testQueueCursor st))
                   (fun _ st =>
                      unfinished st /\ dispatched (log st) = seq 0 (S k))
                   (fun _ _ => True) _ _ fuel)
                this (started this) st' _ Hn).
  - clear - reached under_k stuck.
    intros fuel' q st _ [-> [Hunf [Hle Hd]]].
    pose proof (unfinished_entry this (run fuel') st Hunf) as Hunf'.
    assert (Hlt : k < length (tests this))
      by (apply nth_error_Some; rewrite under_k; discriminate).
    destruct (entry_under_cursor this st) as [tc [Htc _]]; [lia|].
    destruct (sub_run_fated fuel' this st tc Htc) as [Hout|Hsubs];
      [rewrite Hout; exact I|].
    pose proof (after_fated_entry this (run fuel') st tc Htc Hsubs) as Hstep.
    destruct (Nat.eq_dec (_testQueueCursor st) k) as [Hk|Hk].
    + rewrite Hk, under_k in Htc. injection Htc as <-.
      rewrite stuck in Hstep. destruct Hstep as [s [Hs Hds]].
      rewrite Hs in *. split; [exact Hunf'|].
      rewrite Hds, Hd, Hk. symmetry. apply seq_S_end.
    + assert (Hpast : goes_past (stopOnFail this) tc = true).
      { eapply forallb_forall; [exact reached|].
        eapply nth_error_In with (n := _testQueueCursor st).
        rewrite nth_error_firstn.
        destruct (_testQueueCursor st <? k) eqn:E; [exact Htc|].
        apply Nat.ltb_ge in E. lia. }
      unfold goes_past in Hpast.
      destruct (entry_fate tc) as [c|]; [|discriminate].
      apply negb_true_iff in Hpast.
      destruct Hstep as [s [Hs [Hc [_ [_ Hds]]]]].
      rewrite Hpast in Hs. rewrite Hs in *.
      split; [reflexivity|]. split; [exact Hunf'|].
      rewrite Hc, Hds, Hd. split; [lia|]. symmetry. apply seq_S_end.
  - auto.
  - split; [reflexivity|]. split; [apply started_unfinished|].
    unfold started.
    repeat (progress (simpl; autorewrite with fields disp)).
    split; [lia|reflexivity].
Qed.

End StuckEntry.

(** X8.  An entry that never gets an outcome blocks the queue.  Let entry
    [k] be the first one whose promise is never settled: a test that
    returns without calling [pass] or [fail], or a nested queue whose own
    promise stays pending.  If the run gets to it (setup completes and the
    queue does not stop on an earlier failure), then the entries
    [0 .. k] are started and nothing else happens: no later entry is
    started, the queue's own ['finish'] is not emitted, teardown is not
    called and the promise returned by [run] stays pending. *)
Theorem stuck_entry_blocks_queue (this : TestQueue) (k : nat) (t : test)
  (fuel : nat) :
  completes (setupFn this) = true ->
  forallb (goes_past (stopOnFail this)) (firstn k (tests this)) = true ->
  nth_error (tests this) k = Some t ->
  entry_fate t = None ->
  fuel_for this <= fuel ->
  exists st,
    run fuel this = Some (Returned st)
    /\ dispatched (log st) = seq 0 (S k)
    /\ finalization (log st) = []
    /\ ~ In CallTeardown (log st)
    /\ ret st = Pending.
Proof.
  intros Hsetup Hreached Hk Hstuck Hfuel.
  destruct (run_continues this fuel Hsetup Hfuel)
    as [fuel' [st [_ [Hn Hr]]]].
  exists st. split; [exact Hr|].
  destruct (stuck_entry_stalls this k t Hreached Hk Hstuck fuel' st Hn)
    as [Hunf Hd].
  split; [exact Hd|]. split; [apply Hunf|].
  split; [apply unfinished_no_teardown; exact Hunf|apply Hunf].
Qed.

Lemma stuck_entry_blocks_queue_witness :
  exists st,
    run 7 nested_broken_teardown = Some (Returned st)
    /\ dispatched (log st) = seq 0 1
    /\ finalization (log st) = []
    /\ ~ In CallTeardown (log st)
    /\ ret st = Pending.
Proof.
  apply (stuck_entry_blocks_queue nested_broken_teardown 0
           (mkTest (VString "nested") (Sub broken_teardown)) 7);
    [reflexivity | reflexivity | reflexivity | reflexivity
    | vm_compute; lia].
Defined.

Example hanging_test_blocks_queue :
  exists st,
    run 4 hang = Some (Returned st)
    /\ dispatched (log st) = [0]
    /\ ret st = Pending.
Proof. eexists. split; [vm_compute; reflexivity|]. split; reflexivity. Qed.

(** ** A nested queue that is dispatched again *)

Lemma forwarded_notify_resubscribed (n : value) (q : TestQueue) (m : nat)
  (k : event) (args : list value) :
  only_observers q = true ->
  forwarded (notify (Nat.iter m (subscribe n) q) k args)
  = repeat (relay n (k, args)) m.
Proof.
  intros H. induction m as [|m IH]; simpl.
  - apply forwarded_notify_observers. exact H.
  - rewrite forwarded_notify_subscribe, IH. symmetry. apply repeat_cons.
Qed.

Lemma relayed_resubscribed (n : value) (q : TestQueue) (m : nat)
  (l : list (event * list value)) :
  only_observers q = true ->
  relayed (Nat.iter m (subscribe n) q) l
  = flat_map (fun e => repeat (relay n e) m) l.
Proof.
  intros H. unfold relayed. apply flat_map_ext. intros [k args].
  apply forwarded_notify_resubscribed. exact H.
Qed.

(** X9.  The listeners that a parent attaches to a nested queue (lines
    86-92) are never removed, and they are attached again each time the
    entry is dispatched.  So when the nested queue under the cursor still
    carries the listeners of [m] earlier dispatches of the entry, each
    event emitted on it is emitted [m + 1] times on the parent while it
    runs: a second run of a queue reports every event of its nested
    queues twice. *)
Theorem events_repeat_when_dispatched_again (this : TestQueue)
  (st : RunState) (fuel : nat) (t : test) (q : TestQueue) (m : nat) :
  nth_error (tests this) (_testQueueCursor st) = Some t ->
  fn t = Sub (Nat.iter m (subscribe (name t)) q) ->
  only_observers q = true ->
  need this (_testQueueCursor st) <= S fuel ->
  exists r st' rest,
    run fuel (Nat.iter (S m) (subscribe (name t)) q) = Some r
    /\ _testQueueNext (S fuel) this st = Some st'
    /\ log st'
       = log st
         ++ Dispatch (_testQueueCursor st) (name t)
            :: lift this (_testQueueCursor st) (log (state_of r)) ++ rest
    /\ emitted (lift this (_testQueueCursor st) (log (state_of r)))
       = flat_map (fun e => repeat (relay (name t) e) (S m))
                  (emitted (log (state_of r))).
Proof.
  intros Ht Hfn Hobs Hneed.
  destruct (proj2 (enough_fuel (S fuel)) this st Hneed) as [st' Hst'].
  destruct (proj1 (enough_fuel fuel)
              (subscribe (name t) (Nat.iter m (subscribe (name t)) q)))
    as [r Hr].
  { rewrite fuel_for_subscribe. rewrite (need_step _ _ _ Ht) in Hneed.
    unfold sub_fuel in Hneed. rewrite Hfn in Hneed. lia. }
  destruct (after_sub_run this st st' fuel t _ r Ht Hfn Hr Hst')
    as [rest Hrest].
  exists r, st', rest. split; [exact Hr|]. split; [exact Hst'|].
  split; [exact Hrest|].
  pose proof (proj1 (relays_follow_rule fuel) _ _ Hr) as Hfollow.
  unfold relays_follow in Hfollow. rewrite emitted_lift, Hfollow.
  apply (relayed_resubscribed (name t) q (S m)). exact Hobs.
Qed.

Lemma events_repeat_when_dispatched_again_witness :
  exists r st' rest,
    run 7 (Nat.iter 2 (subscribe (VString "nested")) inner21) = Some r
    /\ _testQueueNext 8 outer_again (started outer_again) = Some st'
    /\ log st'
       = log (started outer_again)
         ++ Dispatch 0 (VString "nested")
            :: lift outer_again 0 (log (state_of r)) ++ rest
    /\ emitted (lift outer_again 0 (log (state_of r)))
       = flat_map (fun e => repeat (relay (VString "nested") e) 2)
                  (emitted (log (state_of r))).
Proof.
  apply (events_repeat_when_dispatched_again outer_again
           (started outer_again) 7
           (mkTest (VString "nested")
                   (Sub (subscribe (VString "nested") inner21)))
           inner21 1);
    [reflexivity | reflexivity | reflexivity | vm_compute; lia].
Defined.

(** On its second run [outer] emits five ['pass'] events and counts three
    passes. *)
Example outer_again_counts :
  exists st,
    run 9 outer_again = Some (Returned st)
    /\ passed st = 3
    /\ count_kind EvPass (emitted (log st)) = 5.
Proof.
  eexists. split; [vm_compute; reflexivity|]. split; reflexivity.
Qed.

(** ** Building a queue *)

Lemma last_cons_default {A : Type} (l : list A) (x d d' : A) :
  last (x :: l) d = last (x :: l) d'.
Proof.
  revert x. induction l as [|y l IH]; intros x; [reflexivity|].
  change (last (y :: l) d = last (y :: l) d'). apply IH.
Qed.

Lemma fold_apply_call (calls : list call) (q : TestQueue) :
  let q' := fold_left apply_call calls q in
  stopOnFail q' = stopOnFail q
  /\ tests q' = tests q ++ added_tests calls
  /\ listeners q' = listeners q ++ added_listeners calls
  /\ setupFn q' = last (setups calls) (setupFn q)
  /\ teardownFn q' = last (teardowns calls) (teardownFn q).
Proof.
  revert q. induction calls as [|c calls IH]; intros q; simpl.
  - rewrite !app_nil_r. auto.
  - destruct (IH (apply_call q c)) as [Hstop [Htests [Hls [Hsetup Htd]]]].
    rewrite Hstop, Htests, Hls, Hsetup, Htd.
    destruct c; simpl; rewrite <- ?app_assoc; repeat split;
      try reflexivity.
    + destruct (setups calls); [reflexivity|apply last_cons_default].
    + destruct (teardowns calls); [reflexivity|apply last_cons_default].
Qed.

(** X10.  What a chain of calls builds.  In a queue built by
    [new TestQueue(options)] followed by any sequence of [addTest],
    [setup], [teardown] and [on] calls, the entries are the ones added, in
    the order of the [addTest] calls; the setup function is the one given
    by the last [setup] call and the teardown function the one given by
    the last [teardown] call, an earlier one being dropped, not run as
    well; without such a call it is a function that returns at once, so
    that setup or teardown completes; [stopOnFail] is as the options set
    it, unless the option is exactly [false] it is on. *)
Theorem chain_builds (option_stopOnFail : option value)
  (calls : list call) :
  let q := chain option_stopOnFail calls in
  tests q = added_tests calls
  /\ listeners q = added_listeners calls
  /\ setupFn q = last (setups calls) (Return VUndefined)
  /\ teardownFn q = last (teardowns calls) (Return VUndefined)
  /\ (setups calls = [] -> completes (setupFn q) = true)
  /\ (teardowns calls = [] -> completes (teardownFn q) = true)
  /\ (stopOnFail q = false <-> option_stopOnFail = Some (VBool false)).
Proof.
  unfold chain.
  destruct (fold_apply_call calls (new_TestQueue option_stopOnFail))
    as [Hstop [Htests [Hls [Hsetup Htd]]]].
  simpl in *. rewrite Hstop, Htests, Hls, Hsetup, Htd.
  repeat split; try reflexivity.
  - intros ->. reflexivity.
  - intros ->. reflexivity.
  - destruct option_stopOnFail as [[| [|] | | | | | |]|];
      try discriminate; reflexivity.
  - intros ->. reflexivity.
Qed.

(** ** Output to the console *)

Lemma fate_on (k : event) (l : listener) (q : TestQueue) :
  fate (on k l q) = fate q.
Proof. destruct q; reflexivity. Qed.

Lemma fate_toConsole (c : nat) (q : TestQueue) :
  fate (toConsole c q) = fate q.
Proof. unfold toConsole. rewrite !fate_on. reflexivity. Qed.

Lemma fuel_for_toConsole (c : nat) (q : TestQueue) :
  fuel_for (toConsole c q) = fuel_for q.
Proof. unfold toConsole. rewrite !fuel_for_on. reflexivity. Qed.

Lemma then_summary (o : option (nat * nat)) (s : Console) :
  then_ (promise_of o) on_success on_failure s
  = match o with
    | Some (n, m) =>
        (Fulfils VUndefined,
         {| queueDepth := queueDepth s;
            written := written s ++ [summary n m] |})
    | None => (NeverSettles, s)
    end.
Proof.
  destruct o as [[n m]|]; [|reflexivity].
  unfold promise_of, summary. destruct (0 <? m); reflexivity.
Qed.

(** X11.  The promise that the [run] of a queue given to [toConsole]
    returns is never rejected.  It is fulfilled with [undefined], both
    when the promise of the queue is fulfilled and when it is rejected,
    and then one more call to the console follows those of the listeners:
    the summary, on the standard error with the three counts when there
    is a failure and on the standard output with the number of passes
    otherwise.  It stays pending when the promise of the queue stays
    pending, and then nothing follows the calls of the listeners. *)
Theorem toConsole_run_never_rejects (ToString : value -> string)
  (q : TestQueue) (c fuel : nat) :
  fuel_for q <= fuel ->
  exists r,
    run fuel (toConsole c q) = Some r
    /\ forall p s,
         toConsole_run ToString fuel c q = Some (RunReturned p s) ->
         (forall e, p <> Rejects e)
         /\ exists s0,
              transcript ToString c (log (state_of r)) (mkConsole 0 [])
              = Some s0
              /\ match fate q with
                 | Some (n, m) =>
                     p = Fulfils VUndefined
                     /\ written s = written s0 ++ [summary n m]
                 | None => p = NeverSettles /\ s = s0
                 end.
Proof.
  intros Hfuel.
  destruct (run_total (toConsole c q) fuel) as [r Hr].
  { rewrite fuel_for_toConsole. exact Hfuel. }
  exists r. split; [exact Hr|].
  pose proof (proj1 (fated_rule fuel) _ _ Hr) as HR.
  unfold returns_as_fated in HR. rewrite fate_toConsole in HR.
  unfold toConsole_run. rewrite Hr.
  destruct r as [st|e st]; [|discriminate]. simpl.
  destruct (transcript ToString c (log st) (mkConsole 0 [])) as [s0|];
    [|discriminate].
  rewrite HR, then_summary. intros p s Hres.
  destruct (fate q) as [[n m]|]; injection Hres as <- <-.
  - split; [discriminate|]. exists s0. auto.
  - split; [discriminate|]. exists s0. auto.
Qed.

Lemma toConsole_run_never_rejects_witness :
  exists r,
    run 9 (toConsole 0 outer) = Some r
    /\ forall p s,
         toConsole_run (fun _ => "[object Object]") 9 0 outer
         = Some (RunReturned p s) ->
         (forall e, p <> Rejects e)
         /\ exists s0,
              transcript (fun _ => "[object Object]") 0 (log (state_of r))
                         (mkConsole 0 [])
              = Some s0
              /\ match fate outer with
                 | Some (n, m) =>
                     p = Fulfils VUndefined
                     /\ written s = written s0 ++ [summary n m]
                 | None => p = NeverSettles /\ s = s0
                 end.
Proof.
  apply (toConsole_run_never_rejects (fun _ => "[object Object]") outer 0 9).
  vm_compute. lia.
Defined.

Lemma attached_toConsole (c : nat) (q : TestQueue) (k : event) :
  (forall k', attached c k' q = 0) ->
  attached c k (toConsole c q) = if heard_by_console k then 1 else 0.
Proof.
  intros Hfresh. unfold toConsole.
  rewrite !attached_on, Hfresh, Nat.eqb_refl.
  destruct k; reflexivity.
Qed.

Lemma notified_toConsole (c fuel : nat) (q : TestQueue) (r : RunResult) :
  (forall k, attached c k q = 0) ->
  run fuel (toConsole c q) = Some r ->
  notified c (log (state_of r))
  = filter (fun e => heard_by_console (fst e)) (emitted (log (state_of r))).
Proof.
  intros Hfresh Hr.
  rewrite (proj1 (listeners_follow_rule c fuel) _ _ Hr).
  apply heard_filter. intros k. apply attached_toConsole. exact Hfresh.
Qed.

Section Transcript.

Variable ToString : value -> string.
Variable c : nat.

Lemma queueDepth_nested_console (a : action) (s : Console) :
  queueDepth (nested_console a s) = queueDepth s.
Proof. induction a; simpl; auto. Qed.

Lemma transcript_depth (l : list action) (s : Console) :
  option_map queueDepth (transcript ToString c l s)
  = depth_scan (notified c l) (queueDepth s).
Proof.
  revert s. induction l as [|a l IH]; intros s; [reflexivity|].
  destruct a; simpl; fold (notified c l); try (rewrite IH; reflexivity);
    try (rewrite IH, queueDepth_nested_console; reflexivity).
  destruct (id =? c); simpl; [|apply IH].
  destruct k; simpl; unfold depth_step; simpl.
  - unfold on_start.
    destruct (is_string (argument 0 args)); simpl;
      [|rewrite IH; reflexivity].
    unfold new_Array_join.
    destruct (queueDepth s + 1 + 1 <? 0)%Z;
      [reflexivity|rewrite IH; reflexivity].
  - rewrite IH; reflexivity.
  - unfold on_fail.
    destruct (message_of (argument 1 args)); rewrite IH; reflexivity.
  - unfold on_finish.
    destruct (is_string (argument 1 args)); simpl;
      [|rewrite IH; reflexivity].
    unfold new_Array_join.
    destruct (queueDepth s + 1 <? 0)%Z;
      [reflexivity|rewrite IH; reflexivity].
  - apply IH.
Qed.

End Transcript.

Lemma depth_scan_app (l1 l2 : list (event * list value)) (d : Z) :
  depth_scan (l1 ++ l2) d
  = match depth_scan l1 d with
    | Some d' => depth_scan l2 d'
    | None => None
    end.
Proof.
  revert d. induction l1 as [|e l1 IH]; intros d; simpl; [reflexivity|].
  destruct (depth_step e d); [apply IH|reflexivity].
Qed.

Lemma depth_scan_heard (l : list (event * list value)) (d : Z) :
  depth_scan (filter (fun e => heard_by_console (fst e)) l) d
  = depth_scan l d.
Proof.
  revert d. induction l as [|[k args] l IH]; intros d; [reflexivity|].
  destruct k; simpl; rewrite ?IH; try reflexivity.
  destruct (depth_step _ d); [apply IH|reflexivity].
  destruct (depth_step _ d); [apply IH|reflexivity].
Qed.

(** ** The depth of nesting *)

Lemma nest_app (l1 l2 : list (event * list value)) (d : nat) :
  nest (l1 ++ l2) d
  = match nest l1 d with
    | Some d' => nest l2 d'
    | None => None
    end.
Proof.
  revert d. induction l1 as [|[k args] l1 IH]; intros d; [reflexivity|].
  destruct k; simpl; try apply IH.
  destruct d; [reflexivity|apply IH].
Qed.

Lemma nest_shift (l : list (event * list value)) (d d' x : nat) :
  nest l d = Some d' -> nest l (d + x) = Some (d' + x).
Proof.
  revert d. induction l as [|[k args] l IH]; intros d; simpl.
  - intros [= <-]. reflexivity.
  - destruct k; try apply IH.
    destruct d; [discriminate|]. simpl. apply IH.
Qed.

Lemma nest_relay (n : value) (l : list (event * list value)) (d : nat) :
  nest (map (relay n) l) d = nest l d.
Proof.
  revert d. induction l as [|[k args] l IH]; intros d; [reflexivity|].
  destruct k; simpl; try apply IH.
  destruct d; [reflexivity|apply IH].
Qed.

Lemma nest_other (k : event) (l : list (list value)) (d : nat) :
  heard_by_console k = false \/ k = EvPass \/ k = EvFail ->
  nest (map (fun args => (k, args)) l) d = Some d.
Proof.
  intros Hk. induction l as [|a l IH]; [reflexivity|].
  destruct k; simpl; try exact IH;
    destruct Hk as [Hk|[Hk|Hk]]; discriminate.
Qed.

Lemma depth_scan_other (k : event) (l : list (list value)) (d : Z) :
  heard_by_console k = false \/ k = EvPass \/ k = EvFail ->
  depth_scan (map (fun args => (k, args)) l) d = Some d.
Proof.
  intros Hk. induction l as [|a l IH]; [reflexivity|].
  destruct k; simpl; try exact IH;
    destruct Hk as [Hk|[Hk|Hk]]; discriminate.
Qed.

Lemma depth_step_relay (n : value) (k : event) (args : list value)
  (d : Z) :
  depth_step (relay n (k, args)) d
  = match k with
    | EvStart =>
        if is_string n
        then if (d + 1 + 1 <? 0)%Z then None else Some (d + 1)%Z
        else Some d
    | EvFinish =>
        if is_string n
        then if (d + 1 <? 0)%Z then None else Some (d - 1)%Z
        else Some d
    | _ => Some d
    end.
Proof. destruct k; reflexivity. Qed.

Lemma depth_scan_relay_string (n : value) (l : list (event * list value))
  (d d' : nat) :
  is_string n = true ->
  nest l d = Some d' ->
  depth_scan (map (relay n) l) (Z.of_nat d) = Some (Z.of_nat d').
Proof.
  intros Hn. revert d. induction l as [|[k args] l IH]; intros d.
  - intros [= <-]. reflexivity.
  - cbn [map depth_scan]. rewrite depth_step_relay, Hn.
    destruct k; cbn [nest fst]; try apply IH.
    + intros H.
      destruct (Z.of_nat d + 1 + 1 <? 0)%Z eqn:E;
        [apply Z.ltb_lt in E; lia|].
      replace (Z.of_nat d + 1)%Z with (Z.of_nat (S d)) by lia.
      apply IH. exact H.
    + destruct d as [|d0]; [discriminate|]. intros H.
      destruct (Z.of_nat (S d0) + 1 <? 0)%Z eqn:E;
        [apply Z.ltb_lt in E; lia|].
      replace (Z.of_nat (S d0) - 1)%Z with (Z.of_nat d0) by lia.
      apply IH. exact H.
Qed.

Lemma depth_scan_relay_other (n : value) (l : list (event * list value))
  (d : Z) :
  is_string n = false ->
  depth_scan (map (relay n) l) d = Some d.
Proof.
  intros Hn. induction l as [|[k args] l IH]; [reflexivity|].
  cbn [map depth_scan]. rewrite depth_step_relay, Hn.
  destruct k; exact IH.
Qed.

Lemma nested__onFinish (this : TestQueue) (st : RunState) :
  nest (emitted (log st)) 0 = Some 1 -> nested_ok (_onFinish this st).
Proof.
  intros H. exists 0. split; [|reflexivity].
  rewrite emitted__onFinish, nest_app, H. reflexivity.
Qed.

Lemma nested_unfinished (st : RunState) :
  unfinished st ->
  (exists d, nest (emitted (log st)) 0 = Some d) ->
  nested_ok st.
Proof.
  intros [_ Hret] [d Hd]. exists d. split; [exact Hd|].
  intros Hne. contradiction.
Qed.

Lemma nested_rule (fuel : nat) :
  (forall this r,
      run fuel this = Some r ->
      pristine this = true -> nested_ok (state_of r))
  /\ (forall this st st',
         (pristine this = true /\ unfinished st
          /\ nest (emitted (log st)) 0 = Some 1) ->
         _testQueueNext fuel this st = Some st' ->
         nested_ok st').
Proof.
  apply (run_rule_fuel
           (fun this st =>
              pristine this = true /\ unfinished st
              /\ nest (emitted (log st)) 0 = Some 1)
           (fun _ st => nested_ok st)
           (fun this r => pristine this = true -> nested_ok (state_of r))).
  - intros fuel' this st Hsub [Hpr [Hunf Hn]].
    pose proof (unfinished_entry this (run fuel') st Hunf) as Hunf'.
    revert Hunf'. entry_cases this (run fuel') st; intros Hunf'.
    all: try exact I.
    all: try (apply nested__onFinish).
    all: try (apply nested_unfinished; [exact Hunf'|]).
    all: try (split; [exact Hpr|]; split; [exact Hunf'|]).
    all: relay_simpl (@eq_refl nat 0).
    all: rewrite ?nest_app, ?Hn.
    all: rewrite ?nest_other by (left; reflexivity).
    all: try reflexivity.
    all: try (eexists; reflexivity).
    all: destruct (pristine_entry _ _ _ _ Hpr Et Efn) as [Hobs Hprq].
    all: pose proof (proj1 (relays_follow_rule fuel') _ _ Esub) as Hrel.
    all: unfold relays_follow in Hrel; simpl in Hrel.
    all: rewrite (relayed_subscribe_observers _ _ _ Hobs) in Hrel.
    all: rewrite Hrel, nest_relay.
    all: destruct (Hsub _ _ Esub (eq_trans (pristine_subscribe _ _) Hprq))
        as [dE [HdE Hsettled]].
    all: simpl in HdE, Hsettled.
    all: pose proof (nest_shift _ 0 _ 1 HdE) as Hshift.
    all: simpl in Hshift; rewrite Hshift.
    all: try (eexists; reflexivity).
    all: rewrite Hsettled by (rewrite Eret; discriminate).
    all: reflexivity.
  - intros fuel' this Hnext r Hr Hpr.
    rewrite run_S in Hr. unfold run_body in Hr.
    assert (Hnone : nested_ok (record [CallSetup] initial)).
    { apply nested_unfinished.
      - split; reflexivity.
      - exists 0. reflexivity. }
    destruct (setupFn this) as [v|e].
    + destruct (promise_resolve v); try (injection Hr as <-; exact Hnone).
      destruct (_testQueueNext fuel' this _) as [st'|] eqn:Hn;
        [|discriminate].
      injection Hr as <-. simpl.
      apply (Hnext (started this) st'); [|exact Hn].
      split; [exact Hpr|]. split; [apply started_unfinished|].
      unfold started. relay_simpl (@eq_refl nat 0). reflexivity.
    + injection Hr as <-. exact Hnone.
Qed.

Lemma depth__onFinish (this : TestQueue) (st : RunState) :
  depth_scan (emitted (log st)) 0 = Some 0%Z ->
  depth_ok (_onFinish this st).
Proof.
  intros H. exists 0%Z. split; [|split; [lia|reflexivity]].
  rewrite emitted__onFinish, depth_scan_app, H. reflexivity.
Qed.

Lemma depth_unfinished (st : RunState) :
  unfinished st ->
  (exists d, depth_scan (emitted (log st)) 0 = Some d /\ (0 <= d)%Z) ->
  depth_ok st.
Proof.
  intros [_ Hret] [d [Hd Hle]]. exists d. split; [exact Hd|].
  split; [exact Hle|]. intros Hne. contradiction.
Qed.

Lemma depth_scan_nested (n : value) (l : list (event * list value))
  (d : nat) :
  nest l 0 = Some d ->
  depth_scan (map (relay n) l) 0
  = Some (if is_string n then Z.of_nat d else 0%Z).
Proof.
  intros H. destruct (is_string n) eqn:Hn.
  - apply (depth_scan_relay_string n l 0 d Hn H).
  - apply depth_scan_relay_other. exact Hn.
Qed.

Lemma depth_rule (fuel : nat) :
  (forall this r,
      run fuel this = Some r ->
      pristine this = true -> depth_ok (state_of r))
  /\ (forall this st st',
         (pristine this = true /\ unfinished st
          /\ depth_scan (emitted (log st)) 0 = Some 0%Z) ->
         _testQueueNext fuel this st = Some st' ->
         depth_ok st').
Proof.
  apply (run_rule_fuel
           (fun this st =>
              pristine this = true /\ unfinished st
              /\ depth_scan (emitted (log st)) 0 = Some 0%Z)
           (fun _ st => depth_ok st)
           (fun this r => pristine this = true -> depth_ok (state_of r))).
  - intros fuel' this st _ [Hpr [Hunf Hn]].
    pose proof (unfinished_entry this (run fuel') st Hunf) as Hunf'.
    revert Hunf'. entry_cases this (run fuel') st; intros Hunf'.
    all: try exact I.
    all: try (apply depth__onFinish).
    all: try (apply depth_unfinished; [exact Hunf'|]).
    all: try (split; [exact Hpr|]; split; [exact Hunf'|]).
    all: relay_simpl (@eq_refl nat 0).
    all: rewrite ?depth_scan_app, ?Hn.
    all: rewrite ?depth_scan_other by (left; reflexivity).
    all: try reflexivity.
    all: try (eexists; split; [reflexivity|lia]).
    all: destruct (pristine_entry _ _ _ _ Hpr Et Efn) as [Hobs Hprq].
    all: pose proof (proj1 (relays_follow_rule fuel') _ _ Esub) as Hrel.
    all: unfold relays_follow in Hrel; simpl in Hrel.
    all: rewrite (relayed_subscribe_observers _ _ _ Hobs) in Hrel.
    all: rewrite Hrel.
    all: destruct (proj1 (nested_rule fuel') _ _ Esub
                     (eq_trans (pristine_subscribe _ _) Hprq))
        as [dE [HdE Hsettled]].
    all: simpl in HdE, Hsettled.
    all: rewrite (depth_scan_nested _ _ _ HdE).
    all: try (eexists; split; [reflexivity|destruct (is_string (name t)); lia]).
    all: rewrite Hsettled by (rewrite Eret; discriminate).
    all: destruct (is_string (name t)); reflexivity.
  - intros fuel' this Hnext r Hr Hpr.
    rewrite run_S in Hr. unfold run_body in Hr.
    assert (Hnone : depth_ok (record [CallSetup] initial)).
    { apply depth_unfinished.
      - split; reflexivity.
      - exists 0%Z. split; [reflexivity|lia]. }
    destruct (setupFn this) as [v|e].
    + destruct (promise_resolve v); try (injection Hr as <-; exact Hnone).
      destruct (_testQueueNext fuel' this _) as [st'|] eqn:Hn;
        [|discriminate].
      injection Hr as <-. simpl.
      apply (Hnext (started this) st'); [|exact Hn].
      split; [exact Hpr|]. split; [apply started_unfinished|].
      unfold started. relay_simpl (@eq_refl nat 0). reflexivity.
    + injection Hr as <-. exact Hnone.
Qed.

(** What the run of [outer] writes when the queue is given to
    [toConsole]. *)
Example outer_console_written :
  toConsole_run (fun _ => "[object Object]") 9 0 outer = outer_console
  /\ option_map (fun r => match r with
                          | RunReturned _ s => written s
                          | _ => []
                          end) outer_console
     = Some
         [mkCall Stdout [Text plain "Start"; Val (VString "")];
          mkCall Stdout [Text plain "# Start"; Val (VString "nested")];
          mkCall Stdout [Text green "Pass: x"];
          mkCall Stderr [Text red "Fail: y"];
          mkCall Stdout [Text green "Pass: z"];
          mkCall Stdout [Text plain "# Finish"; Val (VString "nested")];
          mkCall Stdout [Val (VString "nested");
                         Val (VResults (mkResults 2 1))];
          mkCall Stdout [Text green "Pass: after"];
          mkCall Stdout [Text plain "Finish"; Val (VString "")];
          mkCall Stderr
            [Text bold_redBG
               "Failure: 4 tests ran and 3 tests passed and 1 test failed "]].
Proof. split; vm_compute; reflexivity. Qed.

Lemma pristine_toConsole (c : nat) (q : TestQueue) :
  pristine (toConsole c q) = pristine q.
Proof. destruct q; reflexivity. Qed.

(** X12.  The listeners of [toConsole] never throw, and [queueDepth]
    counts the nested queues that are running.  When no nested queue
    carries listeners of an earlier parent, and the listeners of
    [toConsole] are attached once, no listener throws in the course of a
    run ([new Array] is never given a negative length), [queueDepth] is
    not negative when the chain of callbacks of the run ends, and it is
    back to zero when the promise settles. *)
Theorem toConsole_listeners_never_throw (ToString : value -> string)
  (q : TestQueue) (c fuel : nat) :
  pristine q = true ->
  (forall k, attached c k q = 0) ->
  fuel_for q <= fuel ->
  exists res,
    toConsole_run ToString fuel c q = Some res
    /\ res <> ListenerThrew
    /\ forall p s,
         res = RunReturned p s ->
         (0 <= queueDepth s)%Z
         /\ (p <> NeverSettles -> queueDepth s = 0%Z).
Proof.
  intros Hpr Hfresh Hfuel.
  destruct (run_total (toConsole c q) fuel) as [r Hr].
  { rewrite fuel_for_toConsole. exact Hfuel. }
  destruct (proj1 (depth_rule fuel) _ _ Hr
              (eq_trans (pristine_toConsole c q) Hpr))
    as [d [Hd [Hle Hsettled]]].
  pose proof (transcript_depth ToString c (log (state_of r))
                (mkConsole 0 [])) as Hdepth.
  rewrite (notified_toConsole c fuel q r Hfresh Hr), depth_scan_heard in Hdepth.
  simpl in Hdepth. rewrite Hd in Hdepth.
  unfold toConsole_run. rewrite Hr.
  destruct r as [st|e st];
    [|eexists; split; [reflexivity|split; discriminate]].
  simpl in *.
  destruct (transcript ToString c (log st) (mkConsole 0 [])) as [s0|];
    [|discriminate].
  injection Hdepth as Hdepth.
  destruct (then_ (ret st) on_success on_failure s0) as [p s] eqn:Hthen.
  eexists. split; [reflexivity|]. split; [discriminate|].
  intros p' s' [= <- <-].
  unfold then_ in Hthen.
  destruct (ret st); injection Hthen as <- <-; simpl; rewrite ?Hdepth;
    (split; [exact Hle|]); intros Hp;
    try contradiction; apply Hsettled; discriminate.
Qed.

Lemma toConsole_listeners_never_throw_witness :
  exists res,
    toConsole_run (fun _ => "[object Object]") 9 0 outer = Some res
    /\ res <> ListenerThrew
    /\ forall p s,
         res = RunReturned p s ->
         (0 <= queueDepth s)%Z
         /\ (p <> NeverSettles -> queueDepth s = 0%Z).
Proof.
  apply (toConsole_listeners_never_throw (fun _ => "[object Object]")
           outer 0 9);
    [reflexivity | intros k; reflexivity | vm_compute; lia].
Defined.

(** ** The lines of the console *)

Lemma lines_in_app (y : style) (l1 l2 : list console_call) :
  lines_in y (l1 ++ l2) = lines_in y l1 + lines_in y l2.
Proof. unfold lines_in. rewrite filter_app, length_app. reflexivity. Qed.

Lemma lines_nested_console (a : action) (s : Console) :
  pass_fail_lines (nested_console a s) = pass_fail_lines s.
Proof.
  induction a; simpl; auto.
  unfold pass_fail_lines. simpl. rewrite !lines_in_app.
  unfold lines_in. simpl.
  destruct args as [|v [|v' args]]; simpl; rewrite !Nat.add_0_r;
    reflexivity.
Qed.

Section Lines.

Variable ToString : value -> string.
Variable c : nat.

Lemma console_step_lines (a : action) (s s' : Console) :
  console_step ToString c a s = Some s' ->
  lines_in green (written s')
  = lines_in green (written s) + count_kind EvPass (notified c [a])
  /\ lines_in red (written s')
     = lines_in red (written s) + count_kind EvFail (notified c [a]).
Proof.
  assert (Hnested : forall a',
             notified c [a'] = [] ->
             Some (nested_console a' s) = Some s' ->
             lines_in green (written s')
             = lines_in green (written s)
               + count_kind EvPass (notified c [a'])
             /\ lines_in red (written s')
                = lines_in red (written s)
                  + count_kind EvFail (notified c [a'])).
  { intros a' -> [= <-].
    pose proof (lines_nested_console a' s) as H.
    unfold pass_fail_lines in H. injection H as -> ->.
    unfold count_kind. simpl. split; lia. }
  destruct a; try (apply Hnested; reflexivity).
  simpl. destruct (id =? c).
  - destruct k; simpl.
    + unfold on_start. destruct (is_string (argument 0 args)).
      * destruct (new_Array_join _); [|discriminate]. intros [= <-].
        simpl. rewrite !lines_in_app. unfold count_kind, lines_in. simpl.
        split; lia.
      * intros [= <-].
        simpl. rewrite !lines_in_app. unfold count_kind, lines_in. simpl.
        split; lia.
    + unfold on_pass. intros [= <-].
      simpl. rewrite !lines_in_app. unfold count_kind, lines_in. simpl.
      split; lia.
    + unfold on_fail. destruct (message_of (argument 1 args));
        intros [= <-];
        simpl; rewrite !lines_in_app; unfold count_kind, lines_in; simpl;
        split; lia.
    + unfold on_finish. destruct (is_string (argument 1 args)).
      * destruct (new_Array_join _); [|discriminate]. intros [= <-].
        simpl. rewrite !lines_in_app. unfold count_kind, lines_in. simpl.
        split; lia.
      * intros [= <-].
        simpl. rewrite !lines_in_app. unfold count_kind, lines_in. simpl.
        split; lia.
    + intros [= <-]. unfold count_kind. simpl. split; lia.
  - intros [= <-]. unfold count_kind. simpl. split; lia.
Qed.

Lemma transcript_lines (l : list action) (s s' : Console) :
  transcript ToString c l s = Some s' ->
  lines_in green (written s')
  = lines_in green (written s) + count_kind EvPass (notified c l)
  /\ lines_in red (written s')
     = lines_in red (written s) + count_kind EvFail (notified c l).
Proof.
  revert s. induction l as [|a l IH]; intros s.
  - intros [= <-]. unfold count_kind. simpl. split; lia.
  - change (a :: l) with ([a] ++ l) at 2 3.
    rewrite notified_app, !count_kind_app.
    cbn [transcript].
    destruct (console_step ToString c a s) as [s1|] eqn:Hstep;
      [|discriminate].
    intros Hrest.
    destruct (console_step_lines a s s1 Hstep) as [Hg Hr].
    destruct (IH s1 Hrest) as [Hg' Hr'].
    rewrite Hg', Hr', Hg, Hr. split; lia.
Qed.

End Lines.

Lemma count_kind_heard (k : event) (l : list (event * list value)) :
  heard_by_console k = true ->
  count_kind k (filter (fun e => heard_by_console (fst e)) l)
  = count_kind k l.
Proof.
  intros Hk. unfold count_kind.
  induction l as [|[k' args] l IH]; [reflexivity|]. simpl.
  destruct (heard_by_console k') eqn:Hk'; simpl.
  - destruct (event_eqb k k'); simpl; rewrite IH; reflexivity.
  - destruct k, k'; try discriminate; simpl; exact IH.
Qed.

Lemma settled_counters (this : TestQueue) (st : RunState) (n m : nat) :
  finalized this st ->
  ret st = promise_of (Some (n, m)) ->
  passed st = n /\ failed st = m /\ ret st <> Pending.
Proof.
  intros Hfin Hret. simpl in Hret.
  destruct (0 <? m).
  - destruct (proj2 (settled_results this st _ Hfin) Hret) as [[= -> ->] _].
    rewrite Hret. repeat split. discriminate.
  - destruct (proj1 (settled_results this st _ Hfin) Hret) as [[= -> ->] _].
    rewrite Hret. repeat split. discriminate.
Qed.

(** X13.  The summary agrees with the lines before it.  When no nested
    queue carries listeners of an earlier parent and the listeners of
    [toConsole] are attached once, a run whose promise settles writes one
    green [Pass:] line for each test counted as passed and one red
    [Fail:] line for each test counted as failed, at any depth of
    nesting, and then the summary with these two counts, which are the
    results of the queue. *)
Theorem toConsole_summary_counts_lines (ToString : value -> string)
  (q : TestQueue) (c fuel : nat) :
  pristine q = true ->
  (forall k, attached c k q = 0) ->
  fuel_for q <= fuel ->
  exists res,
    toConsole_run ToString fuel c q = Some res
    /\ forall p s,
         res = RunReturned p s ->
         p <> NeverSettles ->
         exists n m before,
           fate q = Some (n, m)
           /\ written s = before ++ [summary n m]
           /\ lines_in green before = n
           /\ lines_in red before = m.
Proof.
  intros Hpr Hfresh Hfuel.
  destruct (run_total (toConsole c q) fuel) as [r Hr].
  { rewrite fuel_for_toConsole. exact Hfuel. }
  pose proof (proj1 (fated_rule fuel) _ _ Hr) as HR.
  unfold returns_as_fated in HR. rewrite fate_toConsole in HR.
  pose proof (proj1 (finalized_rule fuel) _ _ Hr) as Hfin.
  destruct (proj1 (counted_rule fuel) _ _ Hr
              (eq_trans (pristine_toConsole c q) Hpr)) as [_ Hagree].
  pose proof (notified_toConsole c fuel q r Hfresh Hr) as Hheard.
  unfold toConsole_run. rewrite Hr.
  destruct r as [st|e st]; [|eexists; split; [reflexivity|discriminate]].
  simpl in *.
  destruct (transcript ToString c (log st) (mkConsole 0 [])) as [s0|] eqn:Hs0;
    [|eexists; split; [reflexivity|discriminate]].
  rewrite HR, then_summary.
  destruct (fate q) as [[n m]|].
  - eexists. split; [reflexivity|]. intros p s [= <- <-] _.
    exists n, m, (written s0). split; [reflexivity|].
    split; [reflexivity|].
    destruct (settled_counters _ _ _ _ Hfin HR) as [Hn [Hm Hne]].
    destruct (Hagree (settled_teardown _ _ Hfin Hne)) as [Hp Hf].
    destruct (transcript_lines ToString c _ _ _ Hs0) as [Hg Hred].
    rewrite Hg, Hred, Hheard, !count_kind_heard by reflexivity.
    simpl. rewrite Hp, Hf, Hn, Hm. split; reflexivity.
  - eexists. split; [reflexivity|]. intros p s [= <- <-] Hne.
    contradiction.
Qed.

Lemma toConsole_summary_counts_lines_witness :
  exists res,
    toConsole_run (fun _ => "[object Object]") 9 0 outer = Some res
    /\ forall p s,
         res = RunReturned p s ->
         p <> NeverSettles ->
         exists n m before,
           fate outer = Some (n, m)
           /\ written s = before ++ [summary n m]
           /\ lines_in green before = n
           /\ lines_in red before = m.
Proof.
  apply (toConsole_summary_counts_lines (fun _ => "[object Object]")
           outer 0 9);
    [reflexivity | intros k; reflexivity | vm_compute; lia].
Defined.

(** ** Every test is counted once *)

Lemma leaves_eq (q : TestQueue) :
  leaves q = list_sum (map entry_leaves (tests q)).
Proof. destruct q; reflexivity. Qed.

Lemma never_stops_eq (q : TestQueue) :
  never_stops q
  = negb (stopOnFail q) && forallb entry_never_stops (tests q).
Proof. destruct q; reflexivity. Qed.

Lemma list_sum_In (x : nat) (l : list nat) : In x l -> x <= list_sum l.
Proof.
  induction l as [|y l IH]; simpl; [contradiction|].
  intros [->|H]; [lia|]. apply IH in H. lia.
Qed.

Lemma sub_fuel_lt (q q' : TestQueue) (t : test) :
  In t (tests q) -> fn t = Sub q' -> fuel_for q' < fuel_for q.
Proof.
  intros Hin Hfn. rewrite (fuel_for_eq q).
  assert (H : sub_fuel t <= list_sum (map sub_fuel (tests q)))
    by (apply list_sum_In, in_map, Hin).
  assert (Hq : sub_fuel t = fuel_for q')
    by (unfold sub_fuel; rewrite Hfn; reflexivity).
  lia.
Qed.

Lemma tally_entries_leaves (stop : bool) (l : list test) (p f : nat) :
  (forall t, In t l ->
             fst (contribution t) + snd (contribution t) <= entry_leaves t
             /\ (entry_never_stops t = true -> entry_settles t = true ->
                 fst (contribution t) + snd (contribution t)
                 = entry_leaves t)) ->
  fst (tally_entries stop l p f) + snd (tally_entries stop l p f)
  <= p + f + list_sum (map entry_leaves l)
  /\ (stop = false ->
      forallb entry_never_stops l = true ->
      forallb entry_settles l = true ->
      fst (tally_entries stop l p f) + snd (tally_entries stop l p f)
      = p + f + list_sum (map entry_leaves l)).
Proof.
  revert p f. induction l as [|t l IH]; intros p f Hl; simpl.
  - split; [lia|intros; lia].
  - destruct (Hl t (or_introl eq_refl)) as [Hle Heq].
    assert (Hl' : forall t', In t' l ->
               fst (contribution t') + snd (contribution t')
               <= entry_leaves t'
               /\ (entry_never_stops t' = true ->
                   entry_settles t' = true ->
                   fst (contribution t') + snd (contribution t')
                   = entry_leaves t'))
      by (intros t' Hin; apply Hl; right; exact Hin).
    destruct (IH (p + fst (contribution t)) (f + snd (contribution t)) Hl')
      as [IHle IHeq].
    destruct stop; simpl.
    + destruct (0 <? snd (contribution t)); simpl.
      * split; [lia|discriminate].
      * split; [lia|discriminate].
    + split; [lia|]. intros _ Hns Hs.
      apply andb_prop in Hns as [Hns Hns'].
      apply andb_prop in Hs as [Hs Hs'].
      rewrite (IHeq eq_refl Hns' Hs'). specialize (Heq Hns Hs). lia.
Qed.

Lemma tally_leaves (n : nat) (q : TestQueue) :
  fuel_for q <= n ->
  fst (tally q) + snd (tally q) <= leaves q
  /\ (never_stops q = true -> entries_settle q = true ->
      fst (tally q) + snd (tally q) = leaves q).
Proof.
  revert q. induction n as [|n IH]; intros q Hn.
  - rewrite fuel_for_eq in Hn. lia.
  - rewrite tally_eq, leaves_eq, never_stops_eq.
    destruct (tally_entries_leaves (stopOnFail q) (tests q) 0 0)
      as [Hle Heq].
    { intros t Hin. unfold contribution, entry_leaves, entry_never_stops,
        entry_settles.
      destruct (fn t) as [f|q'] eqn:Hfn.
      - unfold leaf_tally. destruct (new_Promise f); simpl;
          (split; [lia|]); intros _ Hs; try reflexivity; discriminate.
      - pose proof (sub_fuel_lt q q' t Hin Hfn) as Hlt.
        destruct (IH q') as [Hle Heq]; [lia|].
        split; [exact Hle|]. intros Hns Hs. apply Heq; [exact Hns|].
        rewrite runs_through_eq in Hs. apply andb_prop in Hs. apply Hs. }
    split; [exact Hle|]. intros Hns Hs.
    apply andb_prop in Hns as [Hstop Hns].
    apply negb_true_iff in Hstop. rewrite Hstop in *.
    apply Heq; auto.
Qed.

(** X14.  Every test is counted at most once, and all of them when no
    queue stops on a failure.  When setup completes and every entry gets
    an outcome, [passed + failed] is at most the number of leaf tests of
    the queue and its nested queues; and when [stopOnFail] is unset in the
    queue and in all its nested queues, it is exactly that number. *)
Theorem every_leaf_counted (this : TestQueue) (fuel : nat) :
  completes (setupFn this) = true ->
  entries_settle this = true ->
  fuel_for this <= fuel ->
  exists st,
    run fuel this = Some (Returned st)
    /\ passed st + failed st <= leaves this
    /\ (never_stops this = true -> passed st + failed st = leaves this).
Proof.
  intros Hsetup Hentries Hfuel.
  destruct (tallied_run this fuel Hsetup Hentries Hfuel)
    as [st [Hr [Htally _]]].
  exists st. split; [exact Hr|].
  destruct (tally_leaves fuel this Hfuel) as [Hle Heq].
  rewrite <- Htally in Hle, Heq. simpl in Hle, Heq.
  split; [exact Hle|]. intros Hns. apply Heq; assumption.
Qed.

Lemma every_leaf_counted_witness :
  exists st,
    run 9 outer = Some (Returned st)
    /\ passed st + failed st <= leaves outer
    /\ (never_stops outer = true -> passed st + failed st = leaves outer).
Proof.
  apply (every_leaf_counted outer 9);
    [reflexivity | reflexivity | vm_compute; lia].
Defined.

(** ** C6 *)

Lemma finish_rule (fuel : nat) :
  (forall this r,
      run fuel this = Some r ->
      ends_in_finish (reaches_finish this) this (state_of r))
  /\ (forall this st st',
         heading_for_finish this st ->
         _testQueueNext fuel this st = Some st' ->
         ends_in_finish
           (entries_reach_finish (stopOnFail this) (tests this)) this st').
Proof.
  apply (run_rule_fuel
           heading_for_finish
           (fun this st =>
              ends_in_finish
                (entries_reach_finish (stopOnFail this) (tests this))
                this st)
           (fun this r =>
              ends_in_finish (reaches_finish this) this (state_of r))).
  - intros fuel' this st _ [Hunf [Hle Hreach]].
    pose proof (unfinished_entry this (run fuel') st Hunf) as Hunf'.
    destruct (Nat.eq_dec (_testQueueCursor st) (length (tests this)))
      as [Hend|Hend].
    + rewrite after_last_entry by exact Hend.
      rewrite Hend, skipn_all in Hreach. rewrite <- Hreach.
      exists st. split; [exact Hunf|reflexivity].
    + destruct (entry_under_cursor this st) as [t [Ht _]]; [lia|].
      destruct (sub_run_fated fuel' this st t Ht) as [Hout|Hsubs];
        [rewrite Hout; exact I|].
      pose proof (after_fated_entry this (run fuel') st t Ht Hsubs) as Hstep.
      rewrite (skipn_nth_error _ _ _ Ht) in Hreach. simpl in Hreach.
      destruct (entry_fate t) as [c|].
      * destruct Hstep as [s [Hs [Hc _]]]. rewrite Hs in *.
        destruct (stopOnFail this && (0 <? snd c)); simpl in Hreach.
        -- rewrite <- Hreach. exists s. split; [exact Hunf'|reflexivity].
        -- split; [exact Hunf'|]. rewrite Hc. split; [lia|exact Hreach].
      * destruct Hstep as [s [Hs _]]. rewrite Hs in *.
        rewrite <- Hreach. exact Hunf'.
  - intros fuel' this Hnext r Hr. unfold reaches_finish.
    destruct (completes (setupFn this)) eqn:Hsetup.
    + rewrite run_S in Hr.
      destruct (run_body_started _ this r Hsetup Hr) as [st' [-> Hst']].
      simpl. apply (Hnext (started this) st'); [|exact Hst'].
      split; [apply started_unfinished|].
      unfold started. autorewrite with fields. rewrite skipn_O. simpl.
      split; [lia|reflexivity].
    + rewrite (run_without_setup _ this r Hsetup Hr). split; reflexivity.
Qed.

(** C6, as amended.  A run gets to finalization when its setup completes
    and every entry that is reached gets an outcome, the entries being
    reached in order until they are exhausted or, with [stopOnFail], one
    of them adds a failure.  In such a run the finalization steps are, in
    this order: the ['finish'] event with the counters, one call of the
    teardown function, whether tests have failed or not, and, only when
    teardown has completed, the settling of the promise of the run, which
    is rejected with these results when [failed > 0] and resolved with them
    otherwise; when teardown does not complete, the promise stays pending.
    In every other run none of these steps is taken and the promise stays
    pending.  In the log of any run the steps that are there are an
    initial part of this sequence. *)
Theorem finalization_order (this : TestQueue) (fuel : nat) :
  fuel_for this <= fuel ->
  exists r,
    run fuel this = Some r
    /\ finalized this (state_of r)
    /\ (reaches_finish this = true ->
        finalization (log (state_of r)) = finish_steps this (state_of r)
        /\ ret (state_of r)
           = if completes (teardownFn this)
             then verdict (state_of r) else Pending)
    /\ (reaches_finish this = false ->
        finalization (log (state_of r)) = []
        /\ ret (state_of r) = Pending).
Proof.
  intros Hfuel. destruct (run_total this fuel Hfuel) as [r Hr].
  exists r. split; [exact Hr|].
  split; [exact (proj1 (finalized_rule fuel) this r Hr)|].
  pose proof (proj1 (finish_rule fuel) this r Hr) as Hend.
  unfold ends_in_finish in Hend.
  split; intros Hreach; rewrite Hreach in Hend.
  - destruct Hend as [s [Hs ->]].
    destruct (_onFinish_steps this s Hs) as [Hlog Hret].
    destruct (counters__onFinish this s) as [Hp [Hf _]].
    rewrite (finish_steps_counters this s _ Hp Hf).
    split; [exact Hlog|]. rewrite Hret. unfold verdict. rewrite Hp, Hf.
    reflexivity.
  - exact Hend.
Qed.

Lemma finalization_order_witness :
  reaches_finish abc = true
  /\ completes (teardownFn abc) = true
  /\ exists r,
       run 5 abc = Some r
       /\ finalization (log (state_of r))
          = [Emit EvFinish [VResults (mkResults 1 1)];
             CallTeardown;
             Settle (Rejected (mkResults 1 1))]
       /\ ret (state_of r) = Rejected (mkResults 1 1).
Proof.
  split; [reflexivity|]. split; [reflexivity|].
  destruct (finalization_order abc 5) as [r [Hr [_ [Hreach _]]]];
    [vm_compute; lia|].
  destruct (Hreach eq_refl) as [Hlog Hret].
  exists r. split; [exact Hr|].
  vm_compute in Hr. injection Hr as <-.
  split; [exact Hlog|exact Hret].
Defined.

(** A run that resolves, and a run that stops on a failure before an entry
    that would never get an outcome: both take the three steps. *)
Example two_passes_finalization :
  reaches_finish two_passes = true
  /\ option_map (fun r => finalization (log (state_of r))) (run 4 two_passes)
     = Some [Emit EvFinish [VResults (mkResults 2 0)];
             CallTeardown;
             Settle (Resolved (mkResults 2 0))].
Proof. split; vm_compute; reflexivity. Qed.

Example fail_then_hang_finalization :
  reaches_finish fail_then_hang = true
  /\ entries_settle fail_then_hang = false
  /\ option_map (fun r => (dispatched (log (state_of r)),
                           finalization (log (state_of r))))
                (run 4 fail_then_hang)
     = Some ([0],
             [Emit EvFinish [VResults (mkResults 0 1)];
              CallTeardown;
              Settle (Rejected (mkResults 0 1))]).
Proof. repeat split; vm_compute; reflexivity. Qed.

(** C6, as stated, fails for the runs that do not get to finalization and
    for those whose teardown does not complete.  With a setup function
    that returns a rejected promise, and with a test that never calls
    [pass] or [fail], ['finish'] is not emitted, teardown is not called
    and the promise is not settled; with a teardown function that returns
    a rejected promise, ['finish'] is emitted and teardown is called, but
    the promise is not resolved although no test has failed. *)
Lemma finalization_not_reached :
  (exists st,
      run 3 broken_setup = Some (Returned st)
      /\ finalization (log st) = []
      /\ ~ In CallTeardown (log st)
      /\ ret st = Pending)
  /\ (exists st,
         run 4 hang = Some (Returned st)
         /\ completes (setupFn hang) = true
         /\ dispatched (log st) = [0]
         /\ finalization (log st) = []
         /\ ~ In CallTeardown (log st)
         /\ ret st = Pending)
  /\ (exists st,
         run 3 broken_teardown = Some (Returned st)
         /\ finalization (log st)
            = [Emit EvFinish [VResults (mkResults 1 0)]; CallTeardown]
         /\ failed st = 0
         /\ ret st = Pending).
Proof.
  split; [|split]; eexists; (split; [vm_compute; reflexivity|]).
  - split; [reflexivity|]. split; [|reflexivity].
    apply unfinished_no_teardown. split; reflexivity.
  - split; [reflexivity|]. split; [reflexivity|]. split; [reflexivity|].
    split; [|reflexivity].
    apply unfinished_no_teardown. split; reflexivity.
  - repeat split.
Qed.
